(** * to_utf8.py: encoding inference and transcoding

    A shallow embedding of [src/to_utf8.py] and the properties of its
    charset resolver, transcoder and metadata normaliser.

    Conventions of the embedding.
    - Python [bytes] are lists of [byte].
    - Python [str] values that name encodings or paths are Rocq [string]s.
      Every such value in the script is ASCII: the declared hint and the
      detector's answer both come out of [.decode("ascii", "ignore")] and
      the fallbacks are ASCII literals.  [str.upper] and [str.strip] are
      modelled on ASCII code points.
    - Python [str] values that hold the text of a file are lists of Unicode
      code points ([N]); the regular expressions applied to them follow
      [re]'s Unicode IGNORECASE and [\s] tables.
    - The file system, the two external tools and the log of effects are
      explicit: [process_file] is a state-and-exception computation. *)

From Stdlib Require Import NArith Lia List Bool.
From Stdlib.Strings Require Import Ascii String Byte.
From stdpp Require Import gmap strings list.

Open Scope string_scope.
Open Scope list_scope.

(* ================================================================= *)
(** ** Python string primitives *)

Module Py.

(** [bytes] *)
Definition bytes := list byte.

(** the text of a file: a sequence of code points *)
Definition text := list N.

Definition code (c : ascii) : N := N_of_ascii c.

(** [str.isspace] on ASCII: TAB..CR, FS..US and SPACE; this is the set
    [str.strip()] removes. *)
Definition isspace (c : ascii) : bool :=
  ((9 <=? code c) && (code c <=? 13) || (28 <=? code c) && (code c <=? 32))%N.

Definition upper_char (c : ascii) : ascii :=
  if ((97 <=? code c) && (code c <=? 122))%N
  then ascii_of_N (code c - 32) else c.

Definition lower_char (c : ascii) : ascii :=
  if ((65 <=? code c) && (code c <=? 90))%N
  then ascii_of_N (code c + 32) else c.

(** [s.upper()] *)
Fixpoint upper (s : string) : string :=
  match s with
  | EmptyString => EmptyString
  | String c s' => String (upper_char c) (upper s')
  end.

(** [s.lower()] *)
Fixpoint lower (s : string) : string :=
  match s with
  | EmptyString => EmptyString
  | String c s' => String (lower_char c) (lower s')
  end.

(** [s.lstrip()] *)
Fixpoint lstrip (s : string) : string :=
  match s with
  | EmptyString => EmptyString
  | String c s' => if isspace c then lstrip s' else s
  end.

(** [s.rstrip()] *)
Fixpoint rstrip (s : string) : string :=
  match s with
  | EmptyString => EmptyString
  | String c s' =>
      match rstrip s' with
      | EmptyString => if isspace c then EmptyString else String c EmptyString
      | r => String c r
      end
  end.

(** [s.strip()] *)
Definition strip (s : string) : string := rstrip (lstrip s).

(** [s.replace(" ", "")] *)
Fixpoint remove_spaces (s : string) : string :=
  match s with
  | EmptyString => EmptyString
  | String c s' =>
      if Ascii.eqb c " " then remove_spaces s' else String c (remove_spaces s')
  end.

(** truthiness of a [str]: [if s] *)
Definition nonempty (s : string) : bool :=
  match s with EmptyString => false | _ => true end.

(** [b.decode("ascii", "ignore")]: bytes above 127 are dropped *)
Fixpoint decode_ascii_ignore (b : bytes) : string :=
  match b with
  | [] => EmptyString
  | x :: b' =>
      if (Byte.to_N x <? 128)%N
      then String (ascii_of_byte x) (decode_ascii_ignore b')
      else decode_ascii_ignore b'
  end.

(** [b.decode("latin-1")]: every byte is the code point of its value *)
Definition decode_latin1 (b : bytes) : text := map Byte.to_N b.

Definition byte_of (n : N) : byte :=
  match Byte.of_N n with Some b => b | None => x00 end.

Definition is_cont (n : N) : bool := ((128 <=? n) && (n <? 192))%N.

(** a Unicode scalar value: what a [str] made by decoding can hold and
    what the strict UTF-8 codec can write *)
Definition scalar (c : N) : bool :=
  ((c <? 55296) || (57344 <=? c) && (c <? 1114112))%N.

(** [text.encode("utf-8")] for one code point; [None] is
    [UnicodeEncodeError] (surrogates; values past U+10FFFF do not exist) *)
Definition encode_cp (c : N) : option bytes :=
  if (c <? 128)%N then Some [byte_of c]
  else if (c <? 2048)%N then
    Some [byte_of (192 + c / 64); byte_of (128 + c mod 64)]
  else if (c <? 65536)%N then
    if scalar c then
      Some [byte_of (224 + c / 4096); byte_of (128 + (c / 64) mod 64);
            byte_of (128 + c mod 64)]
    else None
  else if (c <? 1114112)%N then
    Some [byte_of (240 + c / 262144); byte_of (128 + (c / 4096) mod 64);
          byte_of (128 + (c / 64) mod 64); byte_of (128 + c mod 64)]
  else None.

Fixpoint encode_utf8 (t : text) : option bytes :=
  match t with
  | [] => Some []
  | c :: t' =>
      match encode_cp c, encode_utf8 t' with
      | Some b, Some b' => Some (b ++ b')
      | _, _ => None
      end
  end.

(** [b.decode("utf-8")], strict: no overlong forms, no surrogates, nothing
    past U+10FFFF, no truncated sequence; [None] is [UnicodeDecodeError] *)
Fixpoint decode_utf8 (b : bytes) : option text :=
  match b with
  | [] => Some []
  | b0 :: r0 =>
      let n0 := Byte.to_N b0 in
      if (n0 <? 128)%N then option_map (cons n0) (decode_utf8 r0)
      else if (n0 <? 194)%N then None
      else if (n0 <? 224)%N then
        match r0 with
        | b1 :: r1 =>
            let n1 := Byte.to_N b1 in
            if is_cont n1
            then option_map (cons ((n0 - 192) * 64 + (n1 - 128))%N)
                            (decode_utf8 r1)
            else None
        | _ => None
        end
      else if (n0 <? 240)%N then
        match r0 with
        | b1 :: b2 :: r2 =>
            let n1 := Byte.to_N b1 in
            let n2 := Byte.to_N b2 in
            let c := ((n0 - 224) * 4096 + (n1 - 128) * 64 + (n2 - 128))%N in
            if is_cont n1 && is_cont n2 && (2048 <=? c)%N && scalar c
            then option_map (cons c) (decode_utf8 r2)
            else None
        | _ => None
        end
      else if (n0 <? 245)%N then
        match r0 with
        | b1 :: b2 :: b3 :: r3 =>
            let n1 := Byte.to_N b1 in
            let n2 := Byte.to_N b2 in
            let n3 := Byte.to_N b3 in
            let c := ((n0 - 240) * 262144 + (n1 - 128) * 4096
                      + (n2 - 128) * 64 + (n3 - 128))%N in
            if is_cont n1 && is_cont n2 && is_cont n3
               && (65536 <=? c)%N && (c <? 1114112)%N
            then option_map (cons c) (decode_utf8 r3)
            else None
        | _ => None
        end
      else None
  end.

(** bytes and text written as ASCII literals *)
Definition b_ (s : string) : bytes := list_byte_of_string s.
Definition t_ (s : string) : text := map Byte.to_N (list_byte_of_string s).

(** the double quote character, for literals *)
Definition dq : string := String (ascii_of_N 34) EmptyString.

End Py.
Import Py.

(* ================================================================= *)
(** ** The fragment of [re] the script uses

    Every pattern of the script is a sequence of single-character items,
    each a literal or a class, bare or under [?], [*] or [+] (all greedy).
    [match_here] is the backtracking matcher at one position: it returns
    the piece of input each item consumed and what is left.  A group of
    the pattern is the piece of the item it wraps. *)

Module Re.
Section Engine.
Context {A : Type}.

Inductive quant := One | Opt | Star | Plus.

Definition atom : Type := quant * (A -> bool).
Definition pattern : Type := list atom.

Definition push {X} (w : list A) (r : option (list (list A) * X))
  : option (list (list A) * X) :=
  match r with
  | Some (ws, x) => Some (w :: ws, x)
  | None => None
  end.

(** [p*] followed by the continuation [k]: longest run first, then
    shorter ones *)
Fixpoint star {X} (p : A -> bool) (k : list A -> option (list (list A) * X))
         (s : list A) : option (list A * (list (list A) * X)) :=
  match s with
  | c :: s' =>
      if p c then
        match star p k s' with
        | Some (w, r) => Some (c :: w, r)
        | None => option_map (pair []) (k s)
        end
      else option_map (pair []) (k s)
  | [] => option_map (pair []) (k [])
  end.

Definition glue {X} (r : option (list A * (list (list A) * X)))
  : option (list (list A) * X) :=
  match r with
  | Some (w, (ws, x)) => Some (w :: ws, x)
  | None => None
  end.

Definition cons_head {X} (c : A) (r : option (list A * X))
  : option (list A * X) :=
  match r with
  | Some (w, x) => Some (c :: w, x)
  | None => None
  end.

Fixpoint match_here (pat : pattern) (s : list A)
  : option (list (list A) * list A) :=
  match pat with
  | [] => Some ([], s)
  | (q, p) :: pat' =>
      let k := match_here pat' in
      match q with
      | One =>
          match s with
          | c :: s' => if p c then push [c] (k s') else None
          | [] => None
          end
      | Opt =>
          match s with
          | c :: s' =>
              if p c then
                match k s' with
                | Some (ws, r) => Some ([c] :: ws, r)
                | None => push [] (k s)
                end
              else push [] (k s)
          | [] => push [] (k s)
          end
      | Star => glue (star p k s)
      | Plus =>
          match s with
          | c :: s' => if p c then glue (cons_head c (star p k s')) else None
          | [] => None
          end
      end
  end.

(** [re.search]: the leftmost position with a match; the prefix before it,
    the pieces of the match, and the rest *)
Fixpoint search (pat : pattern) (s : list A)
  : option (list A * list (list A) * list A) :=
  match match_here pat s with
  | Some (ws, r) => Some ([], ws, r)
  | None =>
      match s with
      | [] => None
      | c :: s' =>
          match search pat s' with
          | Some (pre, ws, r) => Some (c :: pre, ws, r)
          | None => None
          end
      end
  end.

(** [re.sub(pat, repl, s)]: scan left to right; at a match put the
    replacement and go on after the match ([skip] counts the characters
    of the match still to pass over); an empty match puts the
    replacement and keeps the character *)
Fixpoint sub_from (pat : pattern) (repl : list (list A) -> list A)
         (skip : nat) (s : list A) : list A :=
  match s with
  | [] =>
      match skip, match_here pat [] with
      | O, Some (ws, _) => repl ws
      | _, _ => []
      end
  | c :: s' =>
      match skip with
      | S n => sub_from pat repl n s'
      | O =>
          match match_here pat s with
          | Some (ws, _) =>
              match length (concat ws) with
              | O => repl ws ++ c :: sub_from pat repl O s'
              | S n => repl ws ++ sub_from pat repl n s'
              end
          | None => c :: sub_from pat repl O s'
          end
      end
  end.

Definition sub (pat : pattern) (repl : list (list A) -> list A)
           (s : list A) : list A :=
  sub_from pat repl O s.

(** [re.sub(pat, repl, s, count=1)] *)
Definition sub1 (pat : pattern) (repl : list (list A) -> list A)
           (s : list A) : list A :=
  match search pat s with
  | Some (pre, ws, r) => pre ++ repl ws ++ r
  | None => s
  end.

(** the piece of item number [i]: [m.group] of a group around that item *)
Definition piece (i : nat) (ws : list (list A)) : list A := nth i ws [].

End Engine.

Arguments atom : clear implicits.
Arguments pattern : clear implicits.

(** *** Character classes, on code points *)

Definition fold_ascii (n : N) : N :=
  if ((65 <=? n) && (n <=? 90))%N then (n + 32)%N else n.

(** a literal of a bytes pattern under [re.IGNORECASE]: ASCII letters fold *)
Definition lit_b (c : ascii) (n : N) : bool :=
  (fold_ascii n =? fold_ascii (code c))%N.

(** a literal of a str pattern under [(?i)]: Unicode folding adds
    U+0130 and U+0131 to [i], U+017F to [s] and U+212A to [k] *)
Definition lit_u (c : ascii) (n : N) : bool :=
  lit_b c n ||
  match fold_ascii (code c) with
  | 105 => (n =? 304) || (n =? 305)
  | 115 => (n =? 383)
  | 107 => (n =? 8490)
  | _ => false
  end%N.

Definition exactly (c : ascii) (n : N) : bool := (n =? code c)%N.

(** [[^>]] *)
Definition not_gt (n : N) : bool := negb (n =? 62)%N.

(** a quote character, double or single *)
Definition quote (n : N) : bool := ((n =? 34) || (n =? 39))%N.

(** [\s] of a bytes pattern: [ \t\n\r\f\v] *)
Definition ws_b (n : N) : bool := ((9 <=? n) && (n <=? 13) || (n =? 32))%N.

(** [\s] of a str pattern: Unicode white space *)
Definition ws_u (n : N) : bool :=
  ((9 <=? n) && (n <=? 13) || (28 <=? n) && (n <=? 32) || (n =? 133)
   || (n =? 160) || (n =? 5760) || (8192 <=? n) && (n <=? 8202)
   || (n =? 8232) || (n =? 8233) || (n =? 8239) || (n =? 8287)
   || (n =? 12288))%N.

(** [[-A-Za-z0-9_]] of a bytes pattern *)
Definition name_b (n : N) : bool :=
  ((n =? 45) || (65 <=? n) && (n <=? 90) || (97 <=? n) && (n <=? 122)
   || (48 <=? n) && (n <=? 57) || (n =? 95))%N.

(** [[-A-Za-z0-9_]] of a str pattern under [(?i)] *)
Definition name_u (n : N) : bool :=
  (name_b n || (n =? 304) || (n =? 305) || (n =? 383) || (n =? 8490))%N.

(** a run of literals *)
Definition lits (f : ascii -> N -> bool) (s : string) : pattern N :=
  map (fun c => (One, f c)) (list_ascii_of_string s).

(** a pattern on code points, applied to bytes *)
Definition on_bytes (pat : pattern N) : pattern byte :=
  map (fun a : atom N => (fst a, fun b : byte => snd a (Byte.to_N b))) pat.

End Re.
Import Re.

(* ================================================================= *)
(** ** The script: tables and pure helpers *)

(** [ENC_MAP] (the keys of the literal are distinct) *)
Definition ENC_MAP : gmap string string :=
  list_to_map
    [ ("UTF-8", "UTF-8"); ("UTF8", "UTF-8"); ("US-ASCII", "UTF-8");
      ("ASCII", "UTF-8");
      ("WINDOWS-1252", "CP1252"); ("CP-1252", "CP1252"); ("CP1252", "CP1252");
      ("WINDOWS-1250", "CP1250"); ("CP-1250", "CP1250"); ("CP1250", "CP1250");
      ("ISO-8859-1", "ISO-8859-1"); ("ISO8859-1", "ISO-8859-1");
      ("ISO-8859-2", "ISO-8859-2"); ("ISO8859-2", "ISO-8859-2");
      ("ISO-8859-3", "ISO-8859-3"); ("ISO8859-3", "ISO-8859-3");
      ("ISO-8859-9", "ISO-8859-9"); ("ISO8859-9", "ISO-8859-9");
      ("ISO-8859-13", "ISO-8859-13"); ("ISO8859-13", "ISO-8859-13");
      ("ISO-8859-15", "ISO-8859-15"); ("ISO8859-15", "ISO-8859-15");
      ("IBM865", "CP865"); ("CP865", "CP865");
      ("MAC-CENTRALEUROPE", "MAC-CENTRALEUROPE");
      ("MACCENTRALEUROPE", "MAC-CENTRALEUROPE") ].

(** [META_CHARSET_RE]; its group is item number [META_CHARSET_group] *)
Definition META_CHARSET_head : pattern N :=
  lits lit_b "<meta" ++ [(Star, not_gt)] ++ lits lit_b "charset" ++
  [(Star, ws_b); (One, exactly "="); (Star, ws_b); (Opt, quote); (Star, ws_b)].

Definition META_CHARSET_RE : pattern byte :=
  on_bytes (META_CHARSET_head ++
            [(Plus, name_b); (Star, not_gt); (One, exactly ">")]).

Definition META_CHARSET_group : nat := length META_CHARSET_head.

(** [HTTP_EQUIV_RE]; its group is item number [HTTP_EQUIV_group] *)
Definition HTTP_EQUIV_head : pattern N :=
  lits lit_b "<meta" ++ [(Plus, ws_b)] ++ lits lit_b "http-equiv" ++
  [(Star, ws_b); (One, exactly "="); (Star, ws_b); (Opt, quote)] ++
  lits lit_b "content-type" ++ [(Opt, quote); (Plus, ws_b)] ++
  lits lit_b "content" ++
  [(Star, ws_b); (One, exactly "="); (Star, ws_b); (One, quote); (Star, ws_b)] ++
  lits lit_b "text/html" ++ [(Star, ws_b); (One, exactly ";"); (Star, ws_b)] ++
  lits lit_b "charset" ++ [(Star, ws_b); (One, exactly "="); (Star, ws_b)].

Definition HTTP_EQUIV_RE : pattern byte :=
  on_bytes (HTTP_EQUIV_head ++
            [(Plus, name_b); (Star, ws_b); (One, quote); (Star, ws_b);
             (One, exactly ">")]).

Definition HTTP_EQUIV_group : nat := length HTTP_EQUIV_head.

(** the four patterns of [ensure_meta_utf8], in the order of the source *)
Definition meta_charset_re : pattern N :=
  lits lit_u "<meta" ++ [(Star, not_gt)] ++ lits lit_u "charset" ++
  [(Star, ws_u); (One, exactly "="); (Star, ws_u); (Opt, quote);
   (Plus, name_u); (Star, not_gt); (One, exactly ">")].

Definition http_equiv_re : pattern N :=
  lits lit_u "<meta" ++ [(Plus, ws_u)] ++ lits lit_u "http-equiv" ++
  [(Star, ws_u); (One, exactly "="); (Star, ws_u); (Opt, quote)] ++
  lits lit_u "content-type" ++ [(Opt, quote); (Plus, ws_u)] ++
  lits lit_u "content" ++
  [(Star, ws_u); (One, exactly "="); (Star, ws_u); (One, quote)] ++
  lits lit_u "text/html;" ++ [(Star, ws_u)] ++
  lits lit_u "charset" ++
  [(Star, ws_u); (One, exactly "="); (Star, ws_u); (Plus, name_u);
   (One, quote); (Star, ws_u); (One, exactly ">")].

Definition utf8_meta_re : pattern N :=
  lits lit_u "<meta" ++ [(Star, not_gt)] ++ lits lit_u "charset" ++
  [(Star, ws_u); (One, exactly "="); (Star, ws_u); (One, exactly (ascii_of_N 34))] ++
  lits lit_u "utf-8" ++ [(One, exactly (ascii_of_N 34))].

Definition head_re : pattern N :=
  lits lit_u "<head" ++ [(Star, not_gt); (One, exactly ">")].

Definition head_group : nat := length (lits lit_u "<head").

(** the replacement text *)
Definition META_UTF8 : text := t_ ("<meta charset=" +:+ dq +:+ "utf-8" +:+ dq +:+ ">").

Definition is_valid_utf8 (b : bytes) : bool :=
  match decode_utf8 b with Some _ => true | None => false end.

Definition normalize (enc : string) : string :=
  if negb (nonempty enc) then ""
  else
    let enc := remove_spaces (upper (strip enc)) in
    default enc (ENC_MAP !! enc).

Definition declared_charset (b : bytes) : string :=
  match search META_CHARSET_RE b with
  | Some (_, ws, _) => decode_ascii_ignore (piece META_CHARSET_group ws)
  | None =>
      match search HTTP_EQUIV_RE b with
      | Some (_, ws, _) => decode_ascii_ignore (piece HTTP_EQUIV_group ws)
      | None => ""
      end
  end.

Definition ensure_meta_utf8 (t : text) (is_html : bool) : text :=
  if negb is_html then t
  else
    let t := sub meta_charset_re (fun _ => META_UTF8) t in
    let t := sub http_equiv_re (fun _ => META_UTF8) t in
    match search utf8_meta_re t with
    | None =>
        sub1 head_re
             (fun ws => t_ "<head" ++ piece head_group ws ++ t_ ">" ++ [10%N] ++ META_UTF8)
             t
    | Some _ => t
    end.

(** the candidate list: lines 115 to 120 *)
Definition fallbacks : list string :=
  ["CP1252"; "ISO-8859-1"; "CP1250"; "ISO-8859-13"; "CP865"; "MAC-CENTRALEUROPE"].

Fixpoint ordered_loop (candidates : list string) (seen : gset string)
         (ordered : list string) : list string :=
  match candidates with
  | [] => ordered
  | c :: rest =>
      let n := if nonempty c then normalize c else "" in
      if nonempty n && negb (bool_decide (n ∈ seen))
      then ordered_loop rest ({[n]} ∪ seen) (ordered ++ [n])
      else ordered_loop rest seen ordered
  end.

Definition candidate_list (dec det : string) : list string :=
  ordered_loop (dec :: det :: fallbacks) ∅ [].

(** [pathlib]: [Path.name] and [Path.suffix] *)
Fixpoint contains (c : ascii) (s : string) : bool :=
  match s with
  | EmptyString => false
  | String d s' => Ascii.eqb c d || contains c s'
  end.

Fixpoint name_of (s : string) : string :=
  match s with
  | EmptyString => EmptyString
  | String c s' =>
      if contains "/" s' then name_of s'
      else if Ascii.eqb c "/" then s' else s
  end.

Fixpoint from_last_dot (s : string) : option string :=
  match s with
  | EmptyString => None
  | String c s' =>
      match from_last_dot s' with
      | Some r => Some r
      | None => if Ascii.eqb c "." then Some s else None
      end
  end.

Definition suffix (path : string) : string :=
  let name := name_of path in
  match from_last_dot name with
  | Some suf =>
      if (String.length suf <? String.length name)%nat
         && (1 <? String.length suf)%nat
      then suf else ""
  | None => ""
  end.

Definition is_markup (path : string) : bool :=
  bool_decide (lower (suffix path) ∈ [".html"; ".htm"]).

(* ================================================================= *)
(** ** The world of the script: files, subprocesses, exceptions *)

(** what the script does to the outside, in order *)
Inductive event :=
| EvRun (argv : list string)            (** a subprocess was started *)
| EvWrite (path : string) (data : bytes)(** a file was opened for writing and
                                            left with this content *).

Record world := World {
  files : gmap string bytes;      (** the readable files and their content *)
  readonly : gset string;         (** paths that cannot be opened for writing *)
  log : list event
}.

Inductive raised :=
| Exception (description : string)
| KeyboardInterrupt.

Inductive res (A : Type) :=
| Ret (a : A)
| Raise (e : raised).
Arguments Ret {A} a.
Arguments Raise {A} e.

Definition M (A : Type) : Type := world -> res A * world.

Definition ret {A} (a : A) : M A := fun w => (Ret a, w).

Definition bind {A B} (m : M A) (k : A -> M B) : M B :=
  fun w =>
    match m w with
    | (Ret a, w') => k a w'
    | (Raise e, w') => (Raise e, w')
    end.

Definition raise {A} (e : raised) : M A := fun w => (Raise e, w).

(** [try: m except Exception: h]; a [KeyboardInterrupt] goes through *)
Definition try_except {A} (m : M A) (h : M A) : M A :=
  fun w =>
    match m w with
    | (Raise (Exception _), w') => h w'
    | r => r
    end.

Notation "'let!' x ':=' m 'in' k" := (bind m (fun x => k))
  (at level 10, x name, m at level 100, k at level 200).
Notation "'do!' m 'in' k" := (bind m (fun _ => k))
  (at level 10, m at level 100, k at level 200).

Definition emit (e : event) : M unit :=
  fun w => (Ret tt, World (files w) (readonly w) (log w ++ [e])).

(** [path.read_bytes()] *)
Definition read_bytes (path : string) : M bytes :=
  fun w =>
    match files w !! path with
    | Some b => (Ret b, w)
    | None => (Raise (Exception ("No such file or directory: " +:+ path)), w)
    end.

(** [path.write_text(text, encoding="utf-8")] (newlines as on POSIX):
    opening fails on a read-only path; encoding fails after the file was
    truncated by the opening *)
Definition write_text (path : string) (t : text) : M unit :=
  fun w =>
    if bool_decide (path ∈ readonly w)
    then (Raise (Exception ("Permission denied: " +:+ path)), w)
    else
      match encode_utf8 t with
      | Some b =>
          (Ret tt, World (<[path := b]> (files w)) (readonly w)
                         (log w ++ [EvWrite path b]))
      | None =>
          (Raise (Exception "'utf-8' codec can't encode character"),
           World (<[path := []]> (files w)) (readonly w)
                 (log w ++ [EvWrite path []]))
      end.

(** how a subprocess ends *)
Inductive proc :=
| Completed (returncode : nat) (stdout : bytes)
| TimeoutExpired
| OSError.

Inductive outcome :=
| SKIP
| OK (enc : string)
| OK_DRY (enc : string)
| OK_STAR
| FAIL (dec det : string).

Definition or_dash (s : string) : string := if nonempty s then s else "-".

(** the returned line of [process_file] *)
Definition message (path : string) (o : outcome) : string :=
  match o with
  | SKIP => "SKIP  " +:+ path +:+ " (already UTF-8)"
  | OK enc => "OK    " +:+ path +:+ " (source: " +:+ enc +:+ ")"
  | OK_DRY enc => "OK-DRY " +:+ path +:+ " (source: " +:+ enc +:+ ")"
  | OK_STAR => "OK*   " +:+ path +:+ " (fallback latin-1 – check visually)"
  | FAIL dec det =>
      "FAIL  " +:+ path +:+ " (declared=" +:+ or_dash dec +:+ "; detected="
      +:+ or_dash det +:+ ")"
  end.

Section Script.

(** the external collaborators: whether [uchardet] is on the PATH, what
    it does on a file within its three seconds, and what [iconv] does on
    a file for a source encoding within the given time *)
Variable uchardet_installed : bool.
Variable uchardet : string -> option bytes -> proc.
Variable seconds : Type.
Variable iconv : string -> string -> option bytes -> seconds -> proc.

(** the operator presses Ctrl-C while this file is being processed *)
Variable interrupted : string -> bool.

Definition which_uchardet : bool := uchardet_installed.

Definition uchardet_guess (path : string) : M string :=
  if negb which_uchardet then ret ""
  else
    fun w =>
      match uchardet path (files w !! path) with
      | Completed O out =>
          (Ret (strip (decode_ascii_ignore out)),
           World (files w) (readonly w) (log w ++ [EvRun ["uchardet"; path]]))
      | _ =>
          (Ret "",
           World (files w) (readonly w) (log w ++ [EvRun ["uchardet"; path]]))
      end.

Definition convert_with_iconv (path enc : string) (timeout_s : seconds)
  : M bytes :=
  fun w =>
    let w' := World (files w) (readonly w)
                    (log w ++ [EvRun ["iconv"; "-f"; enc; "-t"; "UTF-8"; path]]) in
    match iconv enc path (files w !! path) timeout_s with
    | Completed rc out =>
        if Nat.eqb rc 0 && is_valid_utf8 out then (Ret out, w')
        else (Ret [], w')
    | TimeoutExpired => (Ret [], w')
    | OSError => (Ret [], w')
    end.

(** the loop of lines 122 to 135; [None] when it runs to its end *)
Fixpoint convert_loop (path : string) (timeout_s : seconds)
         (dry_run is_html : bool) (ordered : list string)
  : M (option outcome) :=
  match ordered with
  | [] => ret None
  | enc :: rest =>
      let! out := convert_with_iconv path enc timeout_s in
      match out with
      | [] => convert_loop path timeout_s dry_run is_html rest
      | _ =>
          if dry_run then ret (Some (OK_DRY enc))
          else
            match decode_utf8 out with
            | None => convert_loop path timeout_s dry_run is_html rest
            | Some t =>
                let t := if is_html then ensure_meta_utf8 t true else t in
                do! write_text path t in
                ret (Some (OK enc))
            end
      end
  end.

Definition declares_utf8 (dec : string) : bool :=
  negb (nonempty dec)
  || bool_decide (upper dec ∈ ["UTF-8"; "UTF8"; "US-ASCII"; "ASCII"]).

Definition process_file (path : string) (timeout_s : seconds)
           (dry_run : bool) : M outcome :=
  let is_html := is_markup path in
  let! data := read_bytes path in
  let dec := declared_charset data in
  let! det := uchardet_guess path in
  if is_valid_utf8 data && declares_utf8 dec then
    do! (if negb dry_run then
           if is_html then
             match decode_utf8 data with
             | Some t => write_text path (ensure_meta_utf8 t true)
             | None => raise (Exception "'utf-8' codec can't decode byte")
             end
           else ret tt
         else ret tt) in
    ret SKIP
  else
    let! r := convert_loop path timeout_s dry_run is_html
                           (candidate_list dec det) in
    match r with
    | Some o => ret o
    | None =>
        try_except
          (let t := decode_latin1 data in
           let t := if is_html then ensure_meta_utf8 t true else t in
           do! (if negb dry_run then write_text path t else ret tt) in
           ret OK_STAR)
          (ret (FAIL dec det))
    end.

(** what [main] prints *)
Inductive line :=
| LFound (total : nat)
| LProgress (i total : nat) (f : string)
| LOutcome (msg : string)
| LError (f : string) (description : string)
| LInterrupted
| LDone.

(** the loop of lines 172 to 181 from file number [i]: the lines printed,
    whether the loop ran to its end ([false]: [sys.exit(1)]), the world *)
Fixpoint main_loop (timeout_s : seconds) (dry_run : bool) (total i : nat)
         (fs : list string) (w : world) : list line * bool * world :=
  match fs with
  | [] => ([], true, w)
  | f :: rest =>
      let r := if interrupted f then (Raise KeyboardInterrupt, w)
               else process_file f timeout_s dry_run w in
      match r with
      | (Ret o, w') =>
          let '(ls, fin, w'') := main_loop timeout_s dry_run total (S i) rest w' in
          (LProgress i total f :: LOutcome ("  " +:+ message f o) :: ls, fin, w'')
      | (Raise KeyboardInterrupt, w') =>
          ([LProgress i total f; LInterrupted], false, w')
      | (Raise (Exception e), w') =>
          let '(ls, fin, w'') := main_loop timeout_s dry_run total (S i) rest w' in
          (LProgress i total f :: LError f e :: ls, fin, w'')
      end
  end.

(** [main] once the sorted list of files is known *)
Definition main (timeout_s : seconds) (dry_run : bool) (fs : list string)
           (w : world) : list line * bool * world :=
  let total := length fs in
  let '(ls, fin, w') := main_loop timeout_s dry_run total 1 fs w in
  (LFound total :: ls ++ (if fin then [LDone] else []), fin, w').

End Script.

(* ================================================================= *)
(** ** The resolver as the specification words it

    These two definitions follow the specification, not the source:
    a name is uppercased, loses its spaces and goes through the alias
    table; the candidate list keeps the first occurrence of every
    non-empty name. *)

Definition spec_normalize (s : string) : string :=
  let u := remove_spaces (upper s) in
  default u (ENC_MAP !! u).

Fixpoint first_occurrences (l : list string) : list string :=
  match l with
  | [] => []
  | x :: l' =>
      x :: List.filter (fun y => negb (String.eqb x y)) (first_occurrences l')
  end.

Definition spec_resolve (dec det : string) : list string :=
  first_occurrences
    (List.filter nonempty (map spec_normalize (dec :: det :: fallbacks))).

(* ================================================================= *)
(** ** Views of the effectful steps

    What [uchardet_guess] and [convert_with_iconv] return and log, as
    functions of the file they are run on. *)

Section Views.
Variable uchardet_installed : bool.
Variable uchardet : string -> option bytes -> proc.
Variable seconds : Type.
Variable iconv : string -> string -> option bytes -> seconds -> proc.

Definition detected_hint (path : string) (content : option bytes) : string :=
  if uchardet_installed then
    match uchardet path content with
    | Completed O out => strip (decode_ascii_ignore out)
    | _ => ""
    end
  else "".

Definition uchardet_events (path : string) : list event :=
  if uchardet_installed then [EvRun ["uchardet"; path]] else [].

Definition iconv_output (enc path : string) (content : option bytes)
           (timeout_s : seconds) : bytes :=
  match iconv enc path content timeout_s with
  | Completed rc out => if Nat.eqb rc 0 && is_valid_utf8 out then out else []
  | _ => []
  end.

(** the text a real run starts from, by outcome: the decoded bytes of
    the file, the decoded output of the accepted conversion, or the
    latin-1 reading of the file *)
Definition text_before (path : string) (data : bytes) (timeout_s : seconds)
           (o : outcome) (t : text) : Prop :=
  match o with
  | SKIP => decode_utf8 data = Some t
  | OK enc =>
      exists out,
        iconv enc path (Some data) timeout_s = Completed 0 out /\
        is_valid_utf8 out = true /\ out <> [] /\
        decode_utf8 out = Some t
  | OK_STAR => t = decode_latin1 data
  | _ => False
  end.

(** the first candidate whose conversion is accepted, with the candidates
    tried before it and the converted bytes *)
Fixpoint first_accepted (path : string) (content : option bytes)
         (timeout_s : seconds) (ordered : list string)
  : option (list string * string * bytes) :=
  match ordered with
  | [] => None
  | enc :: rest =>
      match iconv_output enc path content timeout_s with
      | [] =>
          match first_accepted path content timeout_s rest with
          | Some (pre, e, out) => Some (enc :: pre, e, out)
          | None => None
          end
      | out => Some ([], enc, out)
      end
  end.

End Views.

(** the world after more events *)
Definition logged (w : world) (evs : list event) : world :=
  World (files w) (readonly w) (log w ++ evs).

(** the world after a write *)
Definition written (w : world) (path : string) (b : bytes) : world :=
  World (<[path := b]> (files w)) (readonly w) (log w ++ [EvWrite path b]).

(** the text of a byte string known to be valid UTF-8 *)
Definition decoded (b : bytes) : text := default [] (decode_utf8 b).

(** the bytes of a text known to hold scalar values only *)
Definition encoded (t : text) : bytes := default [] (encode_utf8 t).

(** the text the script writes for a decoded text *)
Definition to_write (is_html : bool) (t : text) : text :=
  if is_html then ensure_meta_utf8 t true else t.

Definition iconv_event (enc path : string) : event :=
  EvRun ["iconv"; "-f"; enc; "-t"; "UTF-8"; path].

Definition is_write (e : event) : bool :=
  match e with EvWrite _ _ => true | EvRun _ => false end.

Definition is_iconv_run (e : event) : bool :=
  match e with
  | EvRun (cmd :: _) => String.eqb cmd "iconv"
  | _ => false
  end.

(** the condition of line 107 on the declared hint, in words: no hint, or
    one of the four names of UTF-8 and ASCII in any letter case *)
Definition utf8_hint (dec : string) : Prop :=
  dec = "" \/ In (upper dec) ["UTF-8"; "UTF8"; "US-ASCII"; "ASCII"].

(** a conversion that is not accepted: a timeout, a failure to start the
    converter, a non-zero status, output that is not valid UTF-8, or no
    output at all *)
Definition rejected (r : proc) : Prop :=
  match r with
  | Completed O out => is_valid_utf8 out = false \/ out = []
  | _ => True
  end.

(** an accepted conversion and its output *)
Definition accepted (r : proc) (out : bytes) : Prop :=
  r = Completed 0 out /\ is_valid_utf8 out = true /\ out <> [].

(* ================================================================= *)
(** ** Collaborators of the scenarios *)

(** no detector on the PATH *)
Definition no_uchardet : string -> option bytes -> proc := fun _ _ => OSError.

(** no converter on the PATH: starting it fails *)
Definition no_iconv : string -> string -> option bytes -> unit -> proc :=
  fun _ _ _ _ => OSError.

(** a converter that knows ISO-8859-1 alone, and converts it as [iconv]
    does: byte by byte to the code point of the same value *)
Definition latin1_iconv : string -> string -> option bytes -> unit -> proc :=
  fun enc _ content _ =>
    match content with
    | Some data =>
        if String.eqb enc "ISO-8859-1" then
          match encode_utf8 (decode_latin1 data) with
          | Some out => Completed 0 out
          | None => Completed 1 []
          end
        else Completed 1 []
    | None => Completed 1 []
    end.

Definition never_interrupted : string -> bool := fun _ => false.

Definition one_file (path : string) (data : bytes) : world :=
  World {[ path := data ]} ∅ [].

Definition one_readonly_file (path : string) (data : bytes) : world :=
  World {[ path := data ]} {[ path ]} [].

(** *** Files of the scenarios *)

(** the letter e with an acute accent in ISO-8859-1: one byte, not UTF-8 *)
Definition e_acute : bytes := [xe9].

(** a markup file with a head, already UTF-8, no charset declared *)
Definition page_with_head : bytes := b_ "<head><title>x</title></head>".

(** a markup fragment: no head, no meta *)
Definition fragment : bytes := b_ "<p>hi</p>".

(** a script that writes a legacy declaration, in ISO-8859-1 *)
Definition legacy_script : bytes :=
  b_ "document.write('<meta charset=iso-8859-1>')" ++ e_acute.

(** a markup fragment whose declaration has a space after the quote *)
Definition spaced_meta : bytes :=
  b_ ("<meta charset=" +:+ dq +:+ " iso-8859-1" +:+ dq +:+ ">") ++ e_acute.

(** a markup file in ISO-8859-1 with an upper-case head *)
Definition legacy_page : bytes :=
  b_ "<HEAD><title>caf" ++ e_acute ++ b_ "</title></HEAD>".

(** a directory with a markup file and a style sheet *)
Definition two_files : world :=
  World (<["a.html" := page_with_head]> {["b.css" := e_acute]}) ∅ [].

(** the run of the scenarios: no detector, time out of the picture *)
Definition run (iconv : string -> string -> option bytes -> unit -> proc)
           (path : string) (dry_run : bool) (w : world) : res outcome * world :=
  process_file false no_uchardet unit iconv path tt dry_run w.

(* ================================================================= *)
(** ** Notions used in the proofs *)

(** a string that starts, or ends, with no white space *)
Definition head_ok (s : string) : bool :=
  match s with
  | EmptyString => true
  | String c _ => negb (isspace c)
  end.

Fixpoint last_ok (s : string) : bool :=
  match s with
  | EmptyString => true
  | String c EmptyString => negb (isspace c)
  | String _ s' => last_ok s'
  end.

(** a name already uppercased, free of spaces and of surrounding white
    space, as the first three steps of [normalize] leave it *)
Definition canonical_form (t : string) : Prop :=
  remove_spaces (upper (strip t)) = t.

(** a piece of input fits an item: its characters are in the class and
    their number is what the quantifier allows *)
Definition fits {A} (a : atom A) (w : list A) : Prop :=
  Forall (fun c => snd a c = true) w /\
  match fst a with
  | One => length w = 1
  | Opt => length w <= 1
  | Star => True
  | Plus => 1 <= length w
  end.

Fixpoint str_forall (P : ascii -> bool) (s : string) : bool :=
  match s with
  | EmptyString => true
  | String c s' => P c && str_forall P s'
  end.

Definition unseen (seen : gset string) (x : string) : bool :=
  negb (bool_decide (x ∈ seen)).

(** the text after the two replacements *)
Definition replaced (t : text) : text :=
  sub http_equiv_re (fun _ => META_UTF8)
      (sub meta_charset_re (fun _ => META_UTF8) t).

(** what [ensure_meta_utf8] makes of a markup text [t]: the text after the
    two replacements when this holds a UTF-8 declaration; else, when it
    holds a match of the head pattern, that text with the canonical tag
    put behind the first such match and a line feed, which then holds a
    UTF-8 declaration; else that text, which holds none *)
Definition meta_cases (t : text) : Prop :=
  let u := replaced t in
  match search utf8_meta_re u with
  | Some _ => ensure_meta_utf8 t true = u
  | None =>
      match search head_re u with
      | Some (pre, ws, post) =>
          u = pre ++ concat ws ++ post /\
          ensure_meta_utf8 t true =
            pre ++ t_ "<head" ++ piece head_group ws ++ t_ ">" ++ [10%N]
                ++ META_UTF8 ++ post /\
          is_Some (search utf8_meta_re (ensure_meta_utf8 t true))
      | None =>
          ensure_meta_utf8 t true = u /\
          search utf8_meta_re (ensure_meta_utf8 t true) = None
      end
  end.

Definition utf8_meta_pieces : list (list N) :=
  map (fun c => [c]) (t_ "<meta") ++ [t_ " "] ++
  map (fun c => [c]) (t_ "charset") ++
  [[]; t_ "="; []; [34%N]] ++ map (fun c => [c]) (t_ "utf-8") ++ [[34%N]].

Definition iconv_events (path : string) (encs : list string) : list event :=
  map (fun e => iconv_event e path) encs.

(* ================================================================= *)
(** ** What the operator reads

    For each file, in order: its progress line, then exactly one report,
    an outcome line or an ERROR line. *)

Definition is_report (f : string) (l : line) : Prop :=
  (exists o, l = LOutcome ("  " +:+ message f o)) \/ (exists e, l = LError f e).

Fixpoint reported (total i : nat) (fs : list string) (ls : list line) : Prop :=
  match fs with
  | [] => ls = []
  | f :: rest =>
      exists r ls',
        ls = LProgress i total f :: r :: ls' /\ is_report f r /\
        reported total (S i) rest ls'
  end.

(* ================================================================= *)
(** ** Further notions *)

(** a character of a charset name, [[-A-Za-z0-9_]] *)
Definition name_char (c : ascii) : bool := name_b (code c).

(** a string is matched by a pattern: it can be cut into pieces that fit
    the items, one after the other *)
Definition matches {A} (pat : pattern A) (s : list A) : Prop :=
  exists ws, Forall2 fits pat ws /\ concat ws = s.

(** every character an item can consume is in the class [P] *)
Definition within {A} (P : A -> bool) (a : atom A) : Prop :=
  forall c, snd a c = true -> P c = true.

Definition is_lower_letter (c : ascii) : bool :=
  ((97 <=? code c) && (code c <=? 122))%N.

Definition is_space_char (c : ascii) : bool := Ascii.eqb c " ".

(** the part of [HTTP_EQUIV_RE] between [<meta] and [charset] *)
Definition http_equiv_middle : pattern N :=
  [(Plus, ws_b)] ++ lits lit_b "http-equiv" ++
  [(Star, ws_b); (One, exactly "="); (Star, ws_b); (Opt, quote)] ++
  lits lit_b "content-type" ++ [(Opt, quote); (Plus, ws_b)] ++
  lits lit_b "content" ++
  [(Star, ws_b); (One, exactly "="); (Star, ws_b); (One, quote); (Star, ws_b)] ++
  lits lit_b "text/html" ++ [(Star, ws_b); (One, exactly ";"); (Star, ws_b)].

Definition charset_eq : pattern N :=
  lits lit_b "charset" ++ [(Star, ws_b); (One, exactly "="); (Star, ws_b)].


(** the parts of the patterns of [ensure_meta_utf8] *)
Definition meta_open : pattern N := lits lit_u "<meta".

Definition charset_eq_u : pattern N :=
  lits lit_u "charset" ++ [(Star, ws_u); (One, exactly "="); (Star, ws_u)].

(** the part of [http_equiv_re] between [<meta] and [charset] *)
Definition http_equiv_middle_u : pattern N :=
  [(Plus, ws_u)] ++ lits lit_u "http-equiv" ++
  [(Star, ws_u); (One, exactly "="); (Star, ws_u); (Opt, quote)] ++
  lits lit_u "content-type" ++ [(Opt, quote); (Plus, ws_u)] ++
  lits lit_u "content" ++
  [(Star, ws_u); (One, exactly "="); (Star, ws_u); (One, quote)] ++
  lits lit_u "text/html;" ++ [(Star, ws_u)].

(** any code point but [<] *)
Definition not_lt_char (n : N) : bool := negb (n =? 60)%N.

(** two code points that differ at most by the case of an ASCII letter *)
Definition same_fold (x y : N) : Prop := fold_ascii x = fold_ascii y.

(** the canonical tag cut into the pieces of [meta_charset_re] *)
Definition meta_utf8_pieces : list (list N) :=
  map (fun c => [c]) (t_ "<meta") ++ [t_ " "] ++
  map (fun c => [c]) (t_ "charset") ++
  [[]; t_ "="; []; [34%N]; t_ "utf-8"; [34%N]; t_ ">"].

(** the replacement of the head pattern, as in the source *)
Definition head_repl (ws : list (list N)) : text :=
  t_ "<head" ++ piece head_group ws ++ t_ ">" ++ [10%N] ++ META_UTF8.

(** the part of [meta_charset_re] from [charset] to the name *)
Definition charset_core : pattern N :=
  charset_eq_u ++ [(Opt, quote); (Plus, name_u)].

(** the operator interrupts at the file [f] *)
Definition interrupted_at (f : string) : string -> bool :=
  fun g => String.eqb f g.

(* ================================================================= *)
(** ** The file selection of [main]: lines 157 to 165

    The value of [--ext] and the file names are taken to be ASCII, as the
    other strings of the embedding. *)

(** [s.split(",")] *)
Fixpoint split_comma (s : string) : list string :=
  match s with
  | EmptyString => [EmptyString]
  | String c s' =>
      if Ascii.eqb c ","
      then EmptyString :: split_comma s'
      else
        match split_comma s' with
        | h :: t => String c h :: t
        | [] => [String c EmptyString]
        end
  end.

(** [s.lstrip(".")] *)
Fixpoint lstrip_dots (s : string) : string :=
  match s with
  | EmptyString => EmptyString
  | String c s' => if Ascii.eqb c "." then lstrip_dots s' else s
  end.

(** the set [exts] of line 158, replaced at line 160 under [--only-html] *)
Definition parse_exts (ext : string) (only_html : bool) : gset string :=
  if only_html then {[ ".html"; ".htm" ]}
  else
    list_to_set
      (map (fun e => "." +:+ lower (lstrip_dots (strip e)))
           (List.filter (fun e => nonempty (strip e)) (split_comma ext))).

(** the test of line 164 on a file name *)
Definition selected (exts : gset string) (name : string) : bool :=
  bool_decide (lower (suffix name) ∈ exts).

(** a string without the character [c] *)
Definition free_of (c : ascii) (s : string) : bool := negb (contains c s).

(* ================================================================= *)
(** * Properties *)

(** ** Strings *)

Module PyFacts.

Ltac each_char c := destruct c as [[] [] [] [] [] [] [] []]; vm_compute; reflexivity.

Lemma isspace_upper c : isspace (upper_char c) = isspace c.
Proof. each_char c. Qed.

Lemma upper_char_idem c : upper_char (upper_char c) = upper_char c.
Proof. each_char c. Qed.

Lemma space_upper c : Ascii.eqb (upper_char c) " " = Ascii.eqb c " ".
Proof. each_char c. Qed.

Lemma space_isspace c : Ascii.eqb c " " = true -> isspace c = true.
Proof. intros H. apply Ascii.eqb_eq in H. subst c. reflexivity. Qed.

Lemma head_ok_lstrip s : head_ok (lstrip s) = true.
Proof.
  induction s as [|c s IH]; simpl; [reflexivity|].
  destruct (isspace c) eqn:E; [exact IH|]. simpl. now rewrite E.
Qed.

Lemma lstrip_fix s : head_ok s = true -> lstrip s = s.
Proof.
  destruct s as [|c s]; simpl; [reflexivity|].
  destruct (isspace c); [discriminate|reflexivity].
Qed.

Lemma rstrip_empty_iff s :
  rstrip s = EmptyString -> last_ok s = true -> s = EmptyString.
Proof.
  induction s as [|c s IH]; simpl; [reflexivity|].
  destruct (rstrip s) eqn:E.
  - destruct (isspace c) eqn:Ec; [|discriminate].
    intros _ H. destruct s; [simpl in H; discriminate|].
    specialize (IH eq_refl H). discriminate.
  - discriminate.
Qed.

Lemma last_ok_rstrip s : last_ok (rstrip s) = true.
Proof.
  induction s as [|c s IH]; simpl; [reflexivity|].
  destruct (rstrip s) eqn:E.
  - destruct (isspace c) eqn:Ec; simpl; [reflexivity|now rewrite Ec].
  - exact IH.
Qed.

Lemma rstrip_fix s : last_ok s = true -> rstrip s = s.
Proof.
  induction s as [|c s IH]; simpl; [reflexivity|].
  destruct s as [|d s].
  - simpl. intros H. destruct (isspace c); [discriminate|reflexivity].
  - intros H. rewrite (IH H). reflexivity.
Qed.

Lemma head_ok_rstrip s : head_ok s = true -> head_ok (rstrip s) = true.
Proof.
  destruct s as [|c s]; simpl; [reflexivity|].
  intros H. destruct (rstrip s); destruct (isspace c) eqn:E; simpl in *;
    try discriminate; now rewrite ?E.
Qed.

Lemma head_ok_strip s : head_ok (strip s) = true.
Proof. apply head_ok_rstrip, head_ok_lstrip. Qed.

Lemma last_ok_strip s : last_ok (strip s) = true.
Proof. apply last_ok_rstrip. Qed.

Lemma strip_fix s : head_ok s = true -> last_ok s = true -> strip s = s.
Proof.
  intros H1 H2. unfold strip. rewrite (lstrip_fix _ H1). now apply rstrip_fix.
Qed.

Lemma strip_idem s : strip (strip s) = strip s.
Proof. apply strip_fix; [apply head_ok_strip|apply last_ok_strip]. Qed.

Lemma head_ok_upper s : head_ok (upper s) = head_ok s.
Proof. destruct s; simpl; [reflexivity|now rewrite isspace_upper]. Qed.

Lemma last_ok_upper s : last_ok (upper s) = last_ok s.
Proof.
  induction s as [|c s IH]; simpl; [reflexivity|].
  destruct s; simpl in *; [now rewrite isspace_upper|exact IH].
Qed.

Lemma upper_idem s : upper (upper s) = upper s.
Proof.
  induction s as [|c s IH]; simpl; [reflexivity|].
  now rewrite upper_char_idem, IH.
Qed.

Lemma upper_remove_spaces s :
  upper (remove_spaces s) = remove_spaces (upper s).
Proof.
  induction s as [|c s IH]; simpl; [reflexivity|].
  rewrite space_upper. destruct (Ascii.eqb c " "); simpl; now rewrite IH.
Qed.

Lemma remove_spaces_idem s : remove_spaces (remove_spaces s) = remove_spaces s.
Proof.
  induction s as [|c s IH]; simpl; [reflexivity|].
  destruct (Ascii.eqb c " ") eqn:E; simpl; [exact IH|].
  now rewrite E, IH.
Qed.

Lemma head_ok_remove_spaces s :
  head_ok s = true -> head_ok (remove_spaces s) = true.
Proof.
  destruct s as [|c s]; simpl; [reflexivity|].
  intros H. destruct (Ascii.eqb c " ") eqn:E; simpl; [|exact H].
  apply space_isspace in E. rewrite E in H. discriminate.
Qed.

Lemma remove_spaces_nonempty s :
  last_ok s = true -> s <> EmptyString -> remove_spaces s <> EmptyString.
Proof.
  induction s as [|c s IH]; [congruence|].
  intros H _. simpl. destruct (Ascii.eqb c " ") eqn:E; [|discriminate].
  destruct s as [|d s].
  - simpl in H. apply space_isspace in E. rewrite E in H. discriminate.
  - apply IH; [exact H|discriminate].
Qed.

Lemma last_ok_remove_spaces s :
  last_ok s = true -> last_ok (remove_spaces s) = true.
Proof.
  induction s as [|c s IH]; simpl; [reflexivity|].
  intros H. destruct (Ascii.eqb c " ") eqn:E.
  - destruct s as [|d s]; [reflexivity|]. apply IH, H.
  - destruct s as [|d s]; [simpl; exact H|].
    specialize (IH H).
    pose proof (remove_spaces_nonempty (String d s) H ltac:(discriminate)) as Hne.
    simpl. simpl in IH, Hne. destruct (remove_spaces (String d s)) eqn:R.
    + simpl in R. rewrite R in Hne. congruence.
    + simpl in R. rewrite R. rewrite R in IH. exact IH.
Qed.

End PyFacts.

(** ** The alias table and [normalize] *)

Module NormalizeFacts.
Import PyFacts.

Lemma ENC_MAP_values_fixed k v : ENC_MAP !! k = Some v -> normalize v = v.
Proof.
  intros H. unfold ENC_MAP in H. apply elem_of_list_to_map_2 in H.
  repeat (apply elem_of_cons in H;
          destruct H as [H|H]; [inversion H; vm_compute; reflexivity|]).
  now apply elem_of_nil in H.
Qed.

Lemma canonical_after_steps s : canonical_form (remove_spaces (upper (strip s))).
Proof.
  unfold canonical_form.
  set (t := remove_spaces (upper (strip s))).
  assert (Hs : strip t = t).
  { apply strip_fix; unfold t.
    - apply head_ok_remove_spaces. rewrite head_ok_upper. apply head_ok_strip.
    - apply last_ok_remove_spaces. rewrite last_ok_upper. apply last_ok_strip. }
  rewrite Hs. unfold t.
  now rewrite <- upper_remove_spaces, remove_spaces_idem, upper_remove_spaces,
    upper_idem.
Qed.

Lemma normalize_empty : normalize "" = "".
Proof. reflexivity. Qed.

Lemma normalize_unfold s :
  normalize s =
  if nonempty s
  then default (remove_spaces (upper (strip s)))
               (ENC_MAP !! remove_spaces (upper (strip s)))
  else "".
Proof. unfold normalize. now destruct (nonempty s). Qed.

End NormalizeFacts.

(** C9.  Encoding-name normalisation is idempotent: for every name [s],
    [normalize (normalize s) = normalize s].  A value of the alias table is
    a fixed point of [normalize]; a name the table does not know comes out
    uppercased, without spaces and without surrounding white space, and a
    second pass changes none of that. *)
Theorem normalize_idempotent (s : string) :
  normalize (normalize s) = normalize s.
Proof.
  rewrite (NormalizeFacts.normalize_unfold s).
  destruct (nonempty s); [|reflexivity].
  pose proof (NormalizeFacts.canonical_after_steps s) as Hc.
  set (t := remove_spaces (upper (strip s))) in *.
  destruct (ENC_MAP !! t) as [v|] eqn:E; simpl.
  - eapply NormalizeFacts.ENC_MAP_values_fixed, E.
  - rewrite NormalizeFacts.normalize_unfold.
    destruct (nonempty t) eqn:Ht; [|now destruct t].
    rewrite Hc, E. reflexivity.
Qed.

(** ** The matcher *)

Module ReFacts.
Section Engine.
Context {A : Type}.
Implicit Types (pat : pattern A) (s r w : list A) (ws : list (list A)).

Lemma star_sound {X} p (k : list A -> option (list (list A) * X)) s w x :
  star p k s = Some (w, x) ->
  exists s', s = w ++ s' /\ Forall (fun c => p c = true) w /\ k s' = Some x.
Proof.
  revert w x. induction s as [|c s IH]; intros w x; simpl.
  - destruct (k []) eqn:E; simpl; [|discriminate].
    intros [= <- <-]. exists []. auto.
  - destruct (p c) eqn:Ec.
    + destruct (star p k s) as [[w' x']|] eqn:Es.
      * intros [= <- <-]. destruct (IH _ _ eq_refl) as (s' & -> & Hw & Hk).
        exists s'. repeat split; auto.
      * destruct (k (c :: s)) eqn:E; simpl; [|discriminate].
        intros [= <- <-]. exists (c :: s). auto.
    + destruct (k (c :: s)) eqn:E; simpl; [|discriminate].
      intros [= <- <-]. exists (c :: s). auto.
Qed.

Lemma star_of_k {X} p (k : list A -> option (list (list A) * X)) s :
  is_Some (k s) -> is_Some (star p k s).
Proof.
  intros [x Hx]. destruct s as [|c s]; simpl.
  - rewrite Hx. simpl. eauto.
  - destruct (p c); [destruct (star p k s) as [[? ?]|]|]; rewrite ?Hx; simpl; eauto.
Qed.

Lemma star_complete {X} p (k : list A -> option (list (list A) * X)) w s :
  Forall (fun c => p c = true) w -> is_Some (k s) -> is_Some (star p k (w ++ s)).
Proof.
  intros Hw Hk. induction Hw as [|c w Hc Hw IH]; simpl.
  - now apply star_of_k.
  - rewrite Hc. destruct IH as [[w' x] ->]. eauto.
Qed.

Lemma match_here_sound pat s ws r :
  match_here pat s = Some (ws, r) ->
  s = concat ws ++ r /\ Forall2 fits pat ws.
Proof.
  revert s ws r. induction pat as [|[q p] pat IH]; intros s ws r; simpl.
  - intros [= <- <-]. split; [reflexivity|constructor].
  - destruct q.
    + destruct s as [|c s]; [discriminate|].
      destruct (p c) eqn:Ec; [|discriminate].
      destruct (match_here pat s) as [[ws' r']|] eqn:E; simpl; [|discriminate].
      intros [= <- <-]. destruct (IH _ _ _ E) as [-> HF].
      split; [reflexivity|]. constructor; [|exact HF].
      split; simpl; [repeat constructor; exact Ec|reflexivity].
    + assert (Hskip : push [] (match_here pat s) = Some (ws, r) ->
                      s = concat ws ++ r /\ Forall2 fits ((Opt, p) :: pat) ws).
      { destruct (match_here pat s) as [[ws' r']|] eqn:E; simpl; [|discriminate].
        intros [= <- <-]. destruct (IH _ _ _ E) as [-> HF].
        split; [reflexivity|]. constructor; [|exact HF].
        split; simpl; [constructor|lia]. }
      destruct s as [|c s]; [exact Hskip|].
      destruct (p c) eqn:Ec; [|exact Hskip].
      destruct (match_here pat s) as [[ws' r']|] eqn:E; [|exact Hskip].
      intros [= <- <-]. destruct (IH _ _ _ E) as [-> HF].
      split; [reflexivity|]. constructor; [|exact HF].
      split; simpl; [repeat constructor; exact Ec|lia].
    + destruct (star p (match_here pat) s) as [[w [ws' r']]|] eqn:E; simpl;
        [|discriminate].
      intros [= <- <-].
      destruct (star_sound _ _ _ _ _ E) as (s' & -> & Hw & Hk).
      destruct (IH _ _ _ Hk) as [-> HF].
      split; [simpl; now rewrite app_assoc|].
      constructor; [|exact HF]. split; simpl; auto.
    + destruct s as [|c s]; [discriminate|].
      destruct (p c) eqn:Ec; [|discriminate].
      destruct (star p (match_here pat) s) as [[w [ws' r']]|] eqn:E; simpl;
        [|discriminate].
      intros [= <- <-].
      destruct (star_sound _ _ _ _ _ E) as (s' & -> & Hw & Hk).
      destruct (IH _ _ _ Hk) as [-> HF].
      split; [simpl; now rewrite app_assoc|].
      constructor; [|exact HF]. split; simpl; [constructor; auto|lia].
Qed.

Lemma push_is_Some {X} w (o : option (list (list A) * X)) :
  is_Some o -> is_Some (push w o).
Proof. intros [[ws x] ->]. simpl. eauto. Qed.

(** the matcher misses no way of cutting the input: if the input starts
    with pieces that fit the items, it finds a match *)
Lemma match_here_complete pat ws r :
  Forall2 fits pat ws -> is_Some (match_here pat (concat ws ++ r)).
Proof.
  intros HF. induction HF as [|[q p] w pat ws [Hw Hq] HF IH]; simpl.
  - eauto.
  - simpl in Hw, Hq. rewrite <- app_assoc. destruct q.
    + destruct w as [|c [|? ?]]; simpl in Hq; try discriminate.
      inversion Hw; subst. simpl. rewrite H1. now apply push_is_Some.
    + destruct w as [|c [|? ?]]; simpl in Hq; try lia.
      * simpl. destruct (concat ws ++ r) as [|c s] eqn:E.
        -- now apply push_is_Some.
        -- destruct (p c); [destruct (match_here pat s) as [[? ?]|]; eauto|];
             now apply push_is_Some.
      * inversion Hw; subst. simpl. rewrite H1.
        destruct IH as [[ws' r'] ->]. eauto.
    + destruct (star_complete p (match_here pat) w _ Hw IH) as [[w' [ws' r']] ->].
      simpl. eauto.
    + destruct w as [|c w]; simpl in Hq; [lia|].
      inversion Hw; subst. simpl. rewrite H1.
      destruct (star_complete p (match_here pat) w _ H2 IH) as [[w' [ws' r']] ->].
      simpl. eauto.
Qed.

Lemma search_sound pat s pre ws r :
  search pat s = Some (pre, ws, r) ->
  s = pre ++ concat ws ++ r /\
  match_here pat (concat ws ++ r) = Some (ws, r).
Proof.
  revert pre. induction s as [|c s IH]; intros pre; simpl.
  - destruct (match_here pat []) as [[ws' r']|] eqn:E; [|discriminate].
    intros [= <- <- <-]. destruct (match_here_sound _ _ _ _ E) as [Hs _].
    rewrite <- Hs. auto.
  - destruct (match_here pat (c :: s)) as [[ws' r']|] eqn:E.
    + intros [= <- <- <-]. destruct (match_here_sound _ _ _ _ E) as [Hs _].
      rewrite <- Hs. auto.
    + destruct (search pat s) as [[[pre' ws'] r']|] eqn:Es; [|discriminate].
      intros [= <- <- <-]. destruct (IH _ eq_refl) as [-> Hm]. auto.
Qed.

Lemma search_none pat pre s :
  search pat (pre ++ s) = None -> match_here pat s = None.
Proof.
  induction pre as [|c pre IH]; simpl.
  - destruct s; simpl; destruct (match_here pat _) as [[? ?]|]; try discriminate;
      auto.
  - destruct (match_here pat (c :: pre ++ s)) as [[? ?]|]; [discriminate|].
    destruct (search pat (pre ++ s)) as [[[? ?] ?]|]; [discriminate|].
    intros _. now apply IH.
Qed.

Lemma search_complete pat pre s :
  is_Some (match_here pat s) -> is_Some (search pat (pre ++ s)).
Proof.
  intros H. destruct (search pat (pre ++ s)) eqn:E; [eauto|].
  apply search_none in E. rewrite E in H. now destruct H.
Qed.

(** the match [search] returns is the leftmost one *)
Lemma search_leftmost pat s pre ws r pre1 rest :
  search pat s = Some (pre, ws, r) ->
  s = pre1 ++ rest -> length pre1 < length pre ->
  match_here pat rest = None.
Proof.
  revert pre pre1. induction s as [|c s IH]; intros pre pre1; simpl.
  - destruct (match_here pat []) as [[? ?]|]; [|discriminate].
    intros [= <- <- <-]. simpl. lia.
  - destruct (match_here pat (c :: s)) as [[? ?]|] eqn:E.
    + intros [= <- <- <-]. simpl. lia.
    + destruct (search pat s) as [[[pre' ws'] r']|] eqn:Es; [|discriminate].
      intros [= <- <- <-] Hs Hl. destruct pre1 as [|d pre1].
      * simpl in Hs. subst rest. exact E.
      * simpl in Hs. injection Hs as -> ->. simpl in Hl.
        eapply IH; eauto. lia.
Qed.

(** pieces of the result of [sub] come from the input or from the
    replacement *)
Lemma sub_from_Forall (P : A -> Prop) pat repl n s :
  (forall ws, Forall P (repl ws)) -> Forall P s ->
  Forall P (sub_from pat repl n s).
Proof.
  intros Hr Hs. revert n. induction Hs as [|c s Hc Hs IH]; intros n; simpl.
  - destruct n; [|constructor].
    destruct (match_here pat []) as [[? ?]|]; [apply Hr|constructor].
  - destruct n; [|apply IH].
    destruct (match_here pat (c :: s)) as [[ws ?]|].
    + destruct (length (concat ws)); apply Forall_app; split; auto.
    + constructor; auto.
Qed.

Lemma sub_from_skip pat repl w r :
  sub_from pat repl (length w) (w ++ r) = sub_from pat repl 0 r.
Proof. induction w as [|c w IH]; simpl; [reflexivity|exact IH]. Qed.

Lemma fits_nth pat ws i d :
  Forall2 fits pat ws -> i < length pat -> fits (nth i pat d) (piece i ws).
Proof.
  intros HF. revert i. unfold piece.
  induction HF as [|a w pat ws Ha HF IH]; intros i Hi; simpl in *; [lia|].
  destruct i; [exact Ha|]. apply IH. lia.
Qed.

End Engine.
End ReFacts.

(** ** The declared hint *)

Module HintFacts.
Import PyFacts ReFacts.

Lemma name_byte_not_space b :
  name_b (Byte.to_N b) = true -> isspace (ascii_of_byte b) = false.
Proof. destruct b; vm_compute; congruence. Qed.

Lemma decode_ascii_ignore_name w :
  Forall (fun b => name_b (Byte.to_N b) = true) w ->
  str_forall (fun c => negb (isspace c)) (decode_ascii_ignore w) = true.
Proof.
  induction 1 as [|b w Hb Hw IH]; simpl; [reflexivity|].
  destruct (Byte.to_N b <? 128)%N; [|exact IH].
  simpl. now rewrite (name_byte_not_space _ Hb), IH.
Qed.

Lemma no_space_ends s :
  str_forall (fun c => negb (isspace c)) s = true ->
  head_ok s = true /\ last_ok s = true.
Proof.
  induction s as [|c s IH]; simpl; [auto|].
  intros H. apply andb_true_iff in H as [Hc Hs]. split; [exact Hc|].
  destruct s; [exact Hc|]. now apply IH.
Qed.

Lemma on_bytes_fits (pat : pattern N) ws i :
  Forall2 fits (on_bytes pat) ws -> i < length pat ->
  Forall (fun b => snd (nth i pat (One, fun _ => false)) (Byte.to_N b) = true)
         (piece i ws).
Proof.
  intros HF Hi.
  pose proof (fits_nth _ _ i (One, fun _ => false) HF) as H.
  unfold on_bytes in H. rewrite length_map in H. destruct (H Hi) as [Hw _].
  change (One, fun _ : byte => false)
    with ((fun a : atom N => (fst a, fun b : byte => snd a (Byte.to_N b)))
            (One, fun _ : N => false)) in Hw.
  rewrite map_nth in Hw. exact Hw.
Qed.

Lemma search_group_name (hd tl : pattern N) b pre ws r :
  search (on_bytes (hd ++ (Plus, name_b) :: tl)) b = Some (pre, ws, r) ->
  Forall (fun x => name_b (Byte.to_N x) = true) (piece (length hd) ws).
Proof.
  intros H. apply search_sound in H as [_ H].
  apply match_here_sound in H as [_ H].
  apply on_bytes_fits with (i := length hd) in H.
  - rewrite nth_middle in H. exact H.
  - rewrite length_app. simpl. lia.
Qed.

(** the declared hint holds no white space: it is the text of a group of
    name characters *)
Lemma declared_charset_no_space data :
  str_forall (fun c => negb (isspace c)) (declared_charset data) = true.
Proof.
  unfold declared_charset.
  destruct (search META_CHARSET_RE data) as [[[pre ws] r]|] eqn:E1.
  - apply decode_ascii_ignore_name.
    exact (search_group_name META_CHARSET_head
             [(Star, not_gt); (One, exactly ">")] _ _ _ _ E1).
  - destruct (search HTTP_EQUIV_RE data) as [[[pre ws] r]|] eqn:E2;
      [|reflexivity].
    apply decode_ascii_ignore_name.
    exact (search_group_name HTTP_EQUIV_head
             [(Star, ws_b); (One, quote); (Star, ws_b); (One, exactly ">")]
             _ _ _ _ E2).
Qed.

Lemma declared_charset_stripped data :
  strip (declared_charset data) = declared_charset data.
Proof.
  destruct (no_space_ends _ (declared_charset_no_space data)).
  now apply strip_fix.
Qed.

End HintFacts.

(** ** The candidate list *)

Module ResolverFacts.
Import PyFacts NormalizeFacts.

Lemma filter_unseen_seen (seen : gset string) n l :
  n ∈ seen ->
  List.filter (unseen seen) (List.filter (fun y => negb (String.eqb n y)) l)
  = List.filter (unseen seen) l.
Proof.
  intros Hn. induction l as [|x l IH]; simpl; [reflexivity|].
  destruct (String.eqb n x) eqn:E; simpl.
  - apply String.eqb_eq in E. subst x. unfold unseen at 2.
    rewrite bool_decide_eq_true_2 by exact Hn. simpl. exact IH.
  - destruct (unseen seen x); now rewrite IH.
Qed.

Lemma filter_unseen_add (seen : gset string) n l :
  List.filter (unseen seen) (List.filter (fun y => negb (String.eqb n y)) l)
  = List.filter (unseen ({[n]} ∪ seen)) l.
Proof.
  induction l as [|x l IH]; simpl; [reflexivity|].
  unfold unseen at 2. destruct (String.eqb n x) eqn:E; simpl.
  - apply String.eqb_eq in E. subst x.
    rewrite bool_decide_eq_true_2 by set_solver. simpl. exact IH.
  - apply String.eqb_neq in E. unfold unseen at 1.
    destruct (bool_decide (x ∈ seen)) eqn:Ex; simpl.
    + apply bool_decide_eq_true_1 in Ex.
      rewrite bool_decide_eq_true_2 by set_solver. simpl. exact IH.
    + apply bool_decide_eq_false_1 in Ex.
      rewrite bool_decide_eq_false_2
        by (intros [Hx|Hx]%elem_of_union;
            [apply elem_of_singleton in Hx; congruence|contradiction]).
      simpl. now rewrite IH.
Qed.

Lemma filter_unseen_empty l : List.filter (unseen ∅) l = l.
Proof.
  induction l as [|x l IH]; simpl; [reflexivity|].
  unfold unseen at 1. rewrite bool_decide_eq_false_2 by set_solver.
  simpl. now rewrite IH.
Qed.

(** the loop with its [seen] set and [ordered] list, against the
    first occurrences of the non-empty normalised names *)
Lemma ordered_loop_spec cs seen acc :
  ordered_loop cs seen acc =
  acc ++ List.filter (unseen seen)
           (first_occurrences (List.filter nonempty (map normalize cs))).
Proof.
  revert seen acc. induction cs as [|c cs IH]; intros seen acc; simpl.
  - now rewrite app_nil_r.
  - assert (Hn : (if nonempty c then normalize c else "") = normalize c).
    { destruct c; reflexivity. }
    rewrite Hn. destruct (nonempty (normalize c)) eqn:En; simpl.
    + change (unseen seen (normalize c))
        with (negb (bool_decide (normalize c ∈ seen))).
      destruct (bool_decide (normalize c ∈ seen)) eqn:Es; simpl.
      * rewrite IH. apply bool_decide_eq_true_1 in Es.
        now rewrite filter_unseen_seen.
      * rewrite IH, <- app_assoc. simpl. now rewrite filter_unseen_add.
    + apply IH.
Qed.

Lemma normalize_stripped s : strip s = s -> normalize s = spec_normalize s.
Proof.
  intros H. rewrite normalize_unfold. unfold spec_normalize. rewrite H.
  destruct s; reflexivity.
Qed.

Lemma fallbacks_stripped : Forall (fun s => strip s = s) fallbacks.
Proof. repeat constructor. Qed.

Lemma map_normalize_stripped l :
  Forall (fun s => strip s = s) l -> map normalize l = map spec_normalize l.
Proof.
  induction 1 as [|s l Hs Hl IH]; [reflexivity|].
  cbn [map]. now rewrite (normalize_stripped _ Hs), IH.
Qed.

Lemma candidate_list_spec dec det :
  strip dec = dec -> strip det = det ->
  candidate_list dec det = spec_resolve dec det.
Proof.
  intros Hdec Hdet. unfold candidate_list, spec_resolve.
  rewrite ordered_loop_spec, filter_unseen_empty, app_nil_l.
  rewrite map_normalize_stripped; [reflexivity|].
  repeat constructor; assumption.
Qed.

End ResolverFacts.

(** C1.  For every raw byte input and every answer of the detector, with
    the declared hint read from the bytes and the detected hint taken from
    the answer as [uchardet_guess] does, the candidate list is: the
    normalised declared hint, the normalised detected hint, then CP1252,
    ISO-8859-1, CP1250, ISO-8859-13, CP865, MAC-CENTRALEUROPE, where
    normalising is uppercasing, removing spaces and mapping through the
    alias table (an unknown name passes unchanged), and where empty names
    and repetitions are dropped, the first occurrence of a name staying in
    place. *)
Theorem candidate_list_order (data answer : bytes) :
  let dec := declared_charset data in
  let det := strip (decode_ascii_ignore answer) in
  candidate_list dec det =
  first_occurrences
    (List.filter nonempty
       (map spec_normalize
            [dec; det; "CP1252"; "ISO-8859-1"; "CP1250"; "ISO-8859-13";
             "CP865"; "MAC-CENTRALEUROPE"])).
Proof.
  intros dec det.
  change (candidate_list dec det = spec_resolve dec det).
  apply ResolverFacts.candidate_list_spec.
  - apply HintFacts.declared_charset_stripped.
  - apply PyFacts.strip_idem.
Qed.

(** ** The UTF-8 codec *)

Module Utf8Facts.

Ltac Zify.zify_post_hook ::= Z.to_euclidean_division_equations.

Lemma to_N_byte_of n : (n < 256)%N -> Byte.to_N (byte_of n) = n.
Proof.
  intros H. unfold byte_of. destruct (Byte.of_N n) as [b|] eqn:E.
  - now apply Byte.to_of_N.
  - apply Byte.of_N_None_iff in E. lia.
Qed.

Lemma byte_of_to_N b : byte_of (Byte.to_N b) = b.
Proof. unfold byte_of. now rewrite Byte.of_to_N. Qed.

Lemma to_N_lt b : (Byte.to_N b < 256)%N.
Proof. pose proof (Byte.to_N_bounded b). lia. Qed.

Ltac cmp :=
  repeat match goal with
    | |- context [(?a <? ?b)%N] => destruct (N.ltb_spec a b); try lia
    | |- context [(?a <=? ?b)%N] => destruct (N.leb_spec a b); try lia
    | H : context [(?a <? ?b)%N] |- _ => destruct (N.ltb_spec a b); try lia
    | H : context [(?a <=? ?b)%N] |- _ => destruct (N.leb_spec a b); try lia
    end.

Lemma encode_cp_scalar c bs : encode_cp c = Some bs -> scalar c = true.
Proof.
  unfold encode_cp, scalar. cmp; simpl; try discriminate; try reflexivity.
Qed.

Lemma scalar_encode_cp c : scalar c = true -> is_Some (encode_cp c).
Proof.
  unfold encode_cp. intros H. cmp; eauto.
  - rewrite H. eauto.
  - unfold scalar in H. revert H. cmp; simpl; discriminate.
Qed.

(** decoding reads back one encoded code point *)
Lemma decode_encode_cp c bs rest :
  encode_cp c = Some bs ->
  decode_utf8 (bs ++ rest) = option_map (cons c) (decode_utf8 rest).
Proof.
  unfold encode_cp.
  destruct (N.ltb_spec c 128).
  { intros [= <-]. cbn [app decode_utf8]. rewrite to_N_byte_of by lia.
    cmp. reflexivity. }
  destruct (N.ltb_spec c 2048).
  { intros [= <-]. cbn [app decode_utf8]. unfold is_cont.
    rewrite !to_N_byte_of by lia.
    cmp. cbn [andb]. do 2 f_equal. lia. }
  destruct (N.ltb_spec c 65536).
  { destruct (scalar c) eqn:Hs; [|discriminate].
    intros [= <-]. cbn [app decode_utf8]. unfold is_cont.
    rewrite !to_N_byte_of by lia.
    assert (E : ((224 + c / 4096 - 224) * 4096
                 + (128 + (c / 64) mod 64 - 128) * 64
                 + (128 + c mod 64 - 128) = c)%N) by lia.
    rewrite E, Hs. cmp. reflexivity. }
  destruct (N.ltb_spec c 1114112); [|discriminate].
  intros [= <-]. cbn [app decode_utf8]. unfold is_cont.
  rewrite !to_N_byte_of by lia.
  assert (E : ((240 + c / 262144 - 240) * 262144
               + (128 + (c / 4096) mod 64 - 128) * 4096
               + (128 + (c / 64) mod 64 - 128) * 64
               + (128 + c mod 64 - 128) = c)%N) by lia.
  rewrite E. cmp. reflexivity.
Qed.

(** what [encode] writes, [decode] reads back: the written file is valid
    UTF-8 and holds the text *)
Lemma decode_encode t b : encode_utf8 t = Some b -> decode_utf8 b = Some t.
Proof.
  revert b. induction t as [|c t IH]; intros b; cbn [encode_utf8].
  - now intros [= <-].
  - destruct (encode_cp c) as [bs|] eqn:Ec; [|discriminate].
    destruct (encode_utf8 t) as [b'|] eqn:Et; [|discriminate].
    intros [= <-]. rewrite (decode_encode_cp _ _ _ Ec), (IH _ eq_refl).
    reflexivity.
Qed.

Lemma encode_scalar t b : encode_utf8 t = Some b -> Forall (fun c => scalar c = true) t.
Proof.
  revert b. induction t as [|c t IH]; intros b; cbn [encode_utf8]; [constructor|].
  destruct (encode_cp c) as [bs|] eqn:Ec; [|discriminate].
  destruct (encode_utf8 t) as [b'|] eqn:Et; [|discriminate].
  intros _. constructor; [eapply encode_cp_scalar, Ec|eapply IH; eauto].
Qed.

Lemma scalar_encode t : Forall (fun c => scalar c = true) t -> is_Some (encode_utf8 t).
Proof.
  induction 1 as [|c t Hc Ht IH]; cbn [encode_utf8]; [eauto|].
  destruct (scalar_encode_cp _ Hc) as [bs ->]. destruct IH as [b' ->]. eauto.
Qed.

Lemma latin1_scalar data : Forall (fun c => scalar c = true) (decode_latin1 data).
Proof.
  unfold decode_latin1. apply Forall_map, Forall_forall. intros b _.
  pose proof (to_N_lt b). unfold scalar. cmp; reflexivity.
Qed.

Lemma t_scalar s : Forall (fun c => scalar c = true) (t_ s).
Proof. apply (latin1_scalar (list_byte_of_string s)). Qed.

Lemma option_map_cons_Some {X} (c : X) o t :
  option_map (cons c) o = Some t -> exists t', o = Some t' /\ t = c :: t'.
Proof. destruct o; simpl; [|discriminate]. intros [= <-]. eauto. Qed.

(** what [decode] accepts is what [encode] writes for the decoded text:
    a valid UTF-8 byte string has one reading and is its encoding *)
Lemma encode_decode_le n :
  forall b t, length b <= n -> decode_utf8 b = Some t -> encode_utf8 t = Some b.
Proof.
  induction n as [|n IH]; intros b t Hl.
  { destruct b; [|simpl in Hl; lia]. now intros [= <-]. }
  destruct b as [|b0 r0]; [now intros [= <-]|].
  cbn [decode_utf8]. cbv zeta.
  pose proof (to_N_lt b0) as B0.
  destruct (N.ltb_spec (Byte.to_N b0) 128).
  { intros H'. apply option_map_cons_Some in H' as (t' & Hd & ->).
    cbn [encode_utf8]. rewrite (IH r0 t') by (simpl in Hl; auto with arith).
    unfold encode_cp. cmp. now rewrite byte_of_to_N. }
  destruct (N.ltb_spec (Byte.to_N b0) 194); [discriminate|].
  destruct (N.ltb_spec (Byte.to_N b0) 224).
  { destruct r0 as [|b1 r1]; [discriminate|].
    pose proof (to_N_lt b1) as B1. unfold is_cont.
    destruct (N.leb_spec 128 (Byte.to_N b1)); [|discriminate].
    destruct (N.ltb_spec (Byte.to_N b1) 192); [|discriminate].
    cbn [andb]. intros H'. apply option_map_cons_Some in H' as (t' & Hd & ->).
    cbn [encode_utf8]. rewrite (IH r1 t') by (simpl in Hl; auto; lia).
    set (c := ((Byte.to_N b0 - 192) * 64 + (Byte.to_N b1 - 128))%N).
    assert (E0 : (192 + c / 64 = Byte.to_N b0)%N) by (unfold c; lia).
    assert (E1 : (128 + c mod 64 = Byte.to_N b1)%N) by (unfold c; lia).
    unfold encode_cp.
    destruct (N.ltb_spec c 128); [unfold c in *; lia|].
    destruct (N.ltb_spec c 2048); [|unfold c in *; lia].
    now rewrite E0, E1, !byte_of_to_N. }
  destruct (N.ltb_spec (Byte.to_N b0) 240).
  { destruct r0 as [|b1 [|b2 r2]]; try discriminate.
    pose proof (to_N_lt b1) as B1. pose proof (to_N_lt b2) as B2.
    unfold is_cont.
    destruct (N.leb_spec 128 (Byte.to_N b1)); [|discriminate].
    destruct (N.ltb_spec (Byte.to_N b1) 192); [|discriminate].
    destruct (N.leb_spec 128 (Byte.to_N b2)); [|discriminate].
    destruct (N.ltb_spec (Byte.to_N b2) 192); [|discriminate].
    set (c := ((Byte.to_N b0 - 224) * 4096 + (Byte.to_N b1 - 128) * 64
               + (Byte.to_N b2 - 128))%N).
    destruct (N.leb_spec 2048 c); [|discriminate].
    destruct (scalar c) eqn:Hs; [|discriminate].
    cbn [andb]. intros H'. apply option_map_cons_Some in H' as (t' & Hd & ->).
    cbn [encode_utf8]. rewrite (IH r2 t') by (simpl in Hl; auto; lia).
    assert (E0 : (224 + c / 4096 = Byte.to_N b0)%N) by (unfold c in *; lia).
    assert (E1 : (128 + (c / 64) mod 64 = Byte.to_N b1)%N) by (unfold c in *; lia).
    assert (E2 : (128 + c mod 64 = Byte.to_N b2)%N) by (unfold c in *; lia).
    unfold encode_cp. rewrite Hs.
    destruct (N.ltb_spec c 128); [lia|].
    destruct (N.ltb_spec c 2048); [lia|].
    destruct (N.ltb_spec c 65536); [|unfold c in *; lia].
    now rewrite E0, E1, E2, !byte_of_to_N. }
  destruct (N.ltb_spec (Byte.to_N b0) 245); [|discriminate].
  destruct r0 as [|b1 [|b2 [|b3 r3]]]; try discriminate.
  pose proof (to_N_lt b1) as B1. pose proof (to_N_lt b2) as B2.
  pose proof (to_N_lt b3) as B3.
  unfold is_cont.
  destruct (N.leb_spec 128 (Byte.to_N b1)); [|discriminate].
  destruct (N.ltb_spec (Byte.to_N b1) 192); [|discriminate].
  destruct (N.leb_spec 128 (Byte.to_N b2)); [|discriminate].
  destruct (N.ltb_spec (Byte.to_N b2) 192); [|discriminate].
  destruct (N.leb_spec 128 (Byte.to_N b3)); [|discriminate].
  destruct (N.ltb_spec (Byte.to_N b3) 192); [|discriminate].
  set (c := ((Byte.to_N b0 - 240) * 262144 + (Byte.to_N b1 - 128) * 4096
             + (Byte.to_N b2 - 128) * 64 + (Byte.to_N b3 - 128))%N).
  destruct (N.leb_spec 65536 c); [|discriminate].
  destruct (N.ltb_spec c 1114112); [|discriminate].
  cbn [andb]. intros H'. apply option_map_cons_Some in H' as (t' & Hd & ->).
  cbn [encode_utf8]. rewrite (IH r3 t') by (simpl in Hl; auto; lia).
  assert (E0 : (240 + c / 262144 = Byte.to_N b0)%N) by (unfold c in *; lia).
  assert (E1 : (128 + (c / 4096) mod 64 = Byte.to_N b1)%N) by (unfold c in *; lia).
  assert (E2 : (128 + (c / 64) mod 64 = Byte.to_N b2)%N) by (unfold c in *; lia).
  assert (E3 : (128 + c mod 64 = Byte.to_N b3)%N) by (unfold c in *; lia).
  unfold encode_cp.
  destruct (N.ltb_spec c 128); [lia|].
  destruct (N.ltb_spec c 2048); [lia|].
  destruct (N.ltb_spec c 65536); [lia|].
  destruct (N.ltb_spec c 1114112); [|lia].
  now rewrite E0, E1, E2, E3, !byte_of_to_N.
Qed.

Lemma encode_decode b t : decode_utf8 b = Some t -> encode_utf8 t = Some b.
Proof. apply (encode_decode_le (length b)). lia. Qed.

Lemma decode_scalar b t : decode_utf8 b = Some t -> Forall (fun c => scalar c = true) t.
Proof. intros H. eapply encode_scalar, encode_decode, H. Qed.

End Utf8Facts.

(** ** The metadata normaliser *)

Module MetaFacts.
Import ReFacts Utf8Facts.

Lemma piece_Forall {A} (P : A -> Prop) i (ws : list (list A)) :
  Forall P (concat ws) -> Forall P (piece i ws).
Proof.
  unfold piece. revert i. induction ws as [|w ws IH]; intros i H.
  - destruct i; constructor.
  - simpl in H. apply Forall_app in H as [Hw Hws].
    destruct i; simpl; auto.
Qed.

Lemma sub_Forall {A} (P : A -> Prop) pat repl (s : list A) :
  (forall ws, Forall P (repl ws)) -> Forall P s -> Forall P (sub pat repl s).
Proof. apply sub_from_Forall. Qed.

Lemma sub1_Forall {A} (P : A -> Prop) pat repl (s : list A) :
  (forall ws, Forall P (concat ws) -> Forall P (repl ws)) ->
  Forall P s -> Forall P (sub1 pat repl s).
Proof.
  intros Hr Hs. unfold sub1.
  destruct (search pat s) as [[[pre ws] r]|] eqn:E; [|exact Hs].
  apply search_sound in E as [-> _].
  apply Forall_app in Hs as [Hpre Hs]. apply Forall_app in Hs as [Hws Hr'].
  repeat (apply Forall_app; split); auto.
Qed.

Lemma META_UTF8_scalar : Forall (fun c => scalar c = true) META_UTF8.
Proof. apply t_scalar. Qed.

(** the normaliser keeps a text writable *)
Lemma ensure_meta_utf8_scalar t is_html :
  Forall (fun c => scalar c = true) t ->
  Forall (fun c => scalar c = true) (ensure_meta_utf8 t is_html).
Proof.
  intros H. unfold ensure_meta_utf8. destruct is_html; cbn [negb]; [|exact H].
  assert (H2 : Forall (fun c => scalar c = true)
                 (sub http_equiv_re (fun _ => META_UTF8)
                    (sub meta_charset_re (fun _ => META_UTF8) t))).
  { repeat apply sub_Forall; auto using META_UTF8_scalar. }
  destruct (search utf8_meta_re _); [exact H2|].
  apply sub1_Forall; [|exact H2].
  intros ws Hws. repeat (apply Forall_app; split);
    auto using t_scalar, META_UTF8_scalar, piece_Forall.
Qed.

Lemma ensure_meta_utf8_encodes t is_html :
  Forall (fun c => scalar c = true) t ->
  is_Some (encode_utf8 (ensure_meta_utf8 t is_html)).
Proof. intros H. now apply scalar_encode, ensure_meta_utf8_scalar. Qed.

Lemma utf8_meta_pieces_fit : Forall2 fits utf8_meta_re utf8_meta_pieces.
Proof.
  cbv.
  repeat (constructor; [split; [repeat constructor|lia]|]).
  constructor.
Qed.

(** a text that holds the canonical tag holds a UTF-8 declaration *)
Lemma search_utf8_meta pre post :
  is_Some (search utf8_meta_re (pre ++ META_UTF8 ++ post)).
Proof.
  apply search_complete.
  change (META_UTF8 ++ post)
    with (concat utf8_meta_pieces ++ (t_ ">" ++ post)).
  apply match_here_complete, utf8_meta_pieces_fit.
Qed.

(** what [ensure_meta_utf8] does to a markup text, case by case *)
Lemma ensure_meta_utf8_cases t : meta_cases t.
Proof.
  unfold meta_cases. cbv zeta.
  unfold ensure_meta_utf8. cbn [negb]. fold (replaced t).
  destruct (search utf8_meta_re (replaced t)) eqn:E1; [reflexivity|].
  unfold sub1.
  destruct (search head_re (replaced t)) as [[[pre ws] post]|] eqn:E2;
    [|split; [reflexivity|exact E1]].
  split; [now apply search_sound in E2 as [-> _]|].
  split; [now rewrite <- !app_assoc|].
  replace (pre ++ (t_ "<head" ++ piece head_group ws ++ t_ ">" ++ [10%N]
                   ++ META_UTF8) ++ post)
    with ((pre ++ t_ "<head" ++ piece head_group ws ++ t_ ">" ++ [10%N])
            ++ META_UTF8 ++ post)
    by now rewrite <- !app_assoc.
  apply search_utf8_meta.
Qed.

End MetaFacts.

(** ** The steps of [process_file'] *)

Module Transcoder.
Section Steps.
Import Utf8Facts MetaFacts.

Variable uchardet_installed : bool.
Variable uchardet : string -> option bytes -> proc.
Variable seconds : Type.
Variable iconv : string -> string -> option bytes -> seconds -> proc.

Local Abbreviation uchardet_guess' := (uchardet_guess uchardet_installed uchardet).
Local Abbreviation detected_hint' := (detected_hint uchardet_installed uchardet).
Local Abbreviation uchardet_events' := (uchardet_events uchardet_installed).
Local Abbreviation convert_with_iconv' := (convert_with_iconv seconds iconv).
Local Abbreviation convert_loop' := (convert_loop seconds iconv).
Local Abbreviation iconv_output' := (iconv_output seconds iconv).
Local Abbreviation first_accepted' := (first_accepted seconds iconv).
Local Abbreviation process_file' := (process_file uchardet_installed uchardet seconds iconv).

Lemma logged_nil w : logged w [] = w.
Proof. destruct w. unfold logged. simpl. now rewrite app_nil_r. Qed.

Lemma logged_logged w e1 e2 : logged (logged w e1) e2 = logged w (e1 ++ e2).
Proof. unfold logged. simpl. now rewrite app_assoc. Qed.

Lemma uchardet_guess_run path w :
  uchardet_guess' path w =
  (Ret (detected_hint' path (files w !! path)), logged w (uchardet_events' path)).
Proof.
  unfold uchardet_guess, detected_hint, uchardet_events, which_uchardet.
  destruct uchardet_installed; cbn [negb].
  - destruct (uchardet path (files w !! path)) as [[|rc] out| |]; reflexivity.
  - unfold ret. now rewrite logged_nil.
Qed.

Lemma convert_with_iconv_run path enc timeout_s w :
  convert_with_iconv' path enc timeout_s w =
  (Ret (iconv_output' enc path (files w !! path) timeout_s),
   logged w [iconv_event enc path]).
Proof.
  unfold convert_with_iconv, iconv_output.
  destruct (iconv enc path (files w !! path) timeout_s) as [rc out| |];
    try reflexivity.
  destruct (Nat.eqb rc 0 && is_valid_utf8 out); reflexivity.
Qed.

Lemma iconv_output_valid enc path content timeout_s :
  is_valid_utf8 (iconv_output' enc path content timeout_s) = true.
Proof.
  unfold iconv_output.
  destruct (iconv enc path content timeout_s) as [rc out| |]; try reflexivity.
  destruct (Nat.eqb rc 0); cbn [andb]; [|reflexivity].
  destruct (is_valid_utf8 out) eqn:E; [exact E|reflexivity].
Qed.

(** an accepted conversion is a run of [iconv] that ended with status 0
    in time and printed valid UTF-8 *)
Lemma iconv_output_accepted enc path content timeout_s :
  iconv_output' enc path content timeout_s <> [] ->
  iconv enc path content timeout_s
    = Completed 0 (iconv_output' enc path content timeout_s)
  /\ is_valid_utf8 (iconv_output' enc path content timeout_s) = true.
Proof.
  intros H. split; [|apply iconv_output_valid].
  revert H. unfold iconv_output.
  destruct (iconv enc path content timeout_s) as [rc out| |]; try congruence.
  destruct rc; cbn [Nat.eqb andb]; [|congruence].
  destruct (is_valid_utf8 out); congruence.
Qed.

Lemma write_text_ok path t b w :
  path ∉ readonly w -> encode_utf8 t = Some b ->
  write_text path t w = (Ret tt, written w path b).
Proof.
  intros Hro He. unfold write_text.
  rewrite bool_decide_eq_false_2 by exact Hro. now rewrite He.
Qed.

Lemma write_text_readonly path t w :
  path ∈ readonly w ->
  write_text path t w = (Raise (Exception ("Permission denied: " +:+ path)), w).
Proof.
  intros Hro. unfold write_text. now rewrite bool_decide_eq_true_2 by exact Hro.
Qed.

Lemma first_accepted_spec path content timeout_s ordered pre enc out :
  first_accepted' path content timeout_s ordered = Some (pre, enc, out) ->
  exists post,
    ordered = pre ++ enc :: post /\
    Forall (fun e => iconv_output' e path content timeout_s = []) pre /\
    out = iconv_output' enc path content timeout_s /\ out <> [].
Proof.
  revert pre. induction ordered as [|e rest IH]; intros pre; cbn [first_accepted].
  - discriminate.
  - destruct (iconv_output' e path content timeout_s) as [|x o] eqn:E.
    + destruct (first_accepted' path content timeout_s rest) as [[[pre' e'] out']|];
        [|discriminate].
      intros [= <- <- <-]. destruct (IH _ eq_refl) as (post & -> & Hpre & Ho & Hne).
      exists post. repeat split; auto.
    + intros [= <- <- <-]. exists rest. repeat split; auto; congruence.
Qed.

Lemma first_accepted_found path content timeout_s pre enc post :
  Forall (fun e => iconv_output' e path content timeout_s = []) pre ->
  iconv_output' enc path content timeout_s <> [] ->
  first_accepted' path content timeout_s (pre ++ enc :: post)
  = Some (pre, enc, iconv_output' enc path content timeout_s).
Proof.
  intros Hpre Hne. induction Hpre as [|e pre He Hpre IH]; cbn [app first_accepted].
  - destruct (iconv_output' enc path content timeout_s) eqn:E;
      [now destruct Hne|reflexivity].
  - now rewrite He, IH.
Qed.

Lemma first_accepted_none path content timeout_s ordered :
  first_accepted' path content timeout_s ordered = None ->
  Forall (fun e => iconv_output' e path content timeout_s = []) ordered.
Proof.
  induction ordered as [|e rest IH]; cbn [first_accepted]; [constructor|].
  destruct (iconv_output' e path content timeout_s) as [|x o] eqn:E; [|discriminate].
  destruct (first_accepted' path content timeout_s rest) as [[[? ?] ?]|];
    [discriminate|].
  intros _. constructor; auto.
Qed.

(** the loop over the candidates: it starts [iconv] on each candidate up
    to the first accepted one and on no other *)
Lemma convert_loop_run path timeout_s dry_run is_html ordered w :
  convert_loop' path timeout_s dry_run is_html ordered w =
  match first_accepted' path (files w !! path) timeout_s ordered with
  | None => (Ret None, logged w (map (fun e => iconv_event e path) ordered))
  | Some (pre, enc, out) =>
      let w1 := logged w (map (fun e => iconv_event e path) (pre ++ [enc])) in
      if dry_run then (Ret (Some (OK_DRY enc)), w1)
      else
        (do! write_text path (if is_html then ensure_meta_utf8 (decoded out) true
                              else decoded out)
         in ret (Some (OK enc))) w1
  end.
Proof.
  revert w. induction ordered as [|e rest IH]; intros w.
  - cbn. unfold ret. now rewrite logged_nil.
  - cbn [convert_loop first_accepted]. unfold bind at 1.
    rewrite convert_with_iconv_run.
    pose proof (iconv_output_valid e path (files w !! path) timeout_s) as Hv.
    destruct (iconv_output' e path (files w !! path) timeout_s) as [|x o] eqn:E.
    + rewrite IH. cbn [files logged].
      destruct (first_accepted' path (files w !! path) timeout_s rest)
        as [[[pre enc] out]|]; cbn [app map]; rewrite logged_logged; reflexivity.
    + cbn [app map]. destruct dry_run; [reflexivity|].
      unfold is_valid_utf8 in Hv. unfold decoded.
      destruct (decode_utf8 (x :: o)); [reflexivity|discriminate].
Qed.

(** [process_file], with its reading and its detector call done *)
Lemma process_file_unfold path timeout_s dry_run w :
  process_file' path timeout_s dry_run w =
  match files w !! path with
  | None => (Raise (Exception ("No such file or directory: " +:+ path)), w)
  | Some data =>
      let dec := declared_charset data in
      let det := detected_hint' path (Some data) in
      let w0 := logged w (uchardet_events' path) in
      if is_valid_utf8 data && declares_utf8 dec then
        (do! (if negb dry_run then
                if is_markup path then
                  match decode_utf8 data with
                  | Some t => write_text path (ensure_meta_utf8 t true)
                  | None => raise (Exception "'utf-8' codec can't decode byte")
                  end
                else ret tt
              else ret tt) in
         ret SKIP) w0
      else
        match first_accepted' path (Some data) timeout_s (candidate_list dec det) with
        | Some (pre, enc, out) =>
            let w1 := logged w0 (map (fun e => iconv_event e path) (pre ++ [enc])) in
            if dry_run then (Ret (OK_DRY enc), w1)
            else
              (do! write_text path
                     (if is_markup path then ensure_meta_utf8 (decoded out) true
                      else decoded out)
               in ret (OK enc)) w1
        | None =>
            let w1 := logged w0 (map (fun e => iconv_event e path)
                                     (candidate_list dec det)) in
            try_except
              (do! (if negb dry_run
                    then write_text path
                           (if is_markup path
                            then ensure_meta_utf8 (decode_latin1 data) true
                            else decode_latin1 data)
                    else ret tt) in
               ret OK_STAR)
              (ret (FAIL dec det)) w1
        end
  end.
Proof.
  unfold process_file, bind at 1, read_bytes.
  destruct (files w !! path) as [data|] eqn:Ef; [|reflexivity].
  unfold bind at 1. rewrite uchardet_guess_run. rewrite Ef.
  cbv zeta.
  destruct (is_valid_utf8 data && declares_utf8 (declared_charset data));
    [reflexivity|].
  unfold bind at 1. rewrite convert_loop_run. cbn [files logged]. rewrite Ef.
  destruct (first_accepted' _ _ _ _) as [[[pre enc] out]|]; [|reflexivity].
  cbv zeta. destruct dry_run; [reflexivity|].
  unfold bind.
  destruct (write_text _ _ _) as [[[]|e] w']; reflexivity.
Qed.

Lemma declares_utf8_iff dec : declares_utf8 dec = true <-> utf8_hint dec.
Proof.
  unfold declares_utf8, utf8_hint. rewrite orb_true_iff, bool_decide_eq_true.
  rewrite list_elem_of_In. destruct dec; simpl; intuition congruence.
Qed.

Lemma iconv_output_nil_iff enc path content timeout_s :
  iconv_output' enc path content timeout_s = [] <->
  rejected (iconv enc path content timeout_s).
Proof.
  unfold iconv_output, rejected.
  destruct (iconv enc path content timeout_s) as [[|rc] out| |];
    cbn [Nat.eqb andb]; try tauto.
  destruct (is_valid_utf8 out), out; intuition congruence.
Qed.

Lemma iconv_output_of_accepted enc path content timeout_s out :
  accepted (iconv enc path content timeout_s) out ->
  iconv_output' enc path content timeout_s = out.
Proof.
  intros (Hi & Hv & _). unfold iconv_output. rewrite Hi. cbn [Nat.eqb andb].
  now rewrite Hv.
Qed.

Lemma accepted_of_iconv_output enc path content timeout_s :
  iconv_output' enc path content timeout_s <> [] ->
  accepted (iconv enc path content timeout_s)
           (iconv_output' enc path content timeout_s).
Proof.
  intros H. destruct (iconv_output_accepted _ _ _ _ H) as [Hi Hv].
  repeat split; assumption.
Qed.

Lemma decoded_scalar out :
  Forall (fun c => scalar c = true) (decoded out).
Proof.
  unfold decoded. destruct (decode_utf8 out) as [t|] eqn:E; [|constructor].
  now apply decode_scalar in E.
Qed.

Lemma decoded_valid out t : decode_utf8 out = Some t -> decoded out = t.
Proof. unfold decoded. now intros ->. Qed.

(** the text the script writes can always be encoded *)
Lemma written_text_encodes (is_html : bool) t :
  Forall (fun c => scalar c = true) t ->
  is_Some (encode_utf8 (if is_html then ensure_meta_utf8 t true else t)).
Proof.
  intros H. destruct is_html; [now apply ensure_meta_utf8_encodes|].
  now apply scalar_encode.
Qed.

(** C4.  A file whose bytes are valid UTF-8 and whose declared hint is
    absent or is one of UTF-8, UTF8, US-ASCII, ASCII (in any letter case)
    is reported as SKIP and [iconv] is not started for it.  When it is
    markup and the run is not a dry run, the file is rewritten with its
    text passed through [ensure_meta_utf8]; otherwise nothing is written.
    (The rewriting needs a path that can be opened for writing.) *)
Theorem skip_when_already_utf8 path timeout_s dry_run w data :
  files w !! path = Some data ->
  is_valid_utf8 data = true ->
  utf8_hint (declared_charset data) ->
  (is_markup path = true -> dry_run = false -> path ∉ readonly w) ->
  exists t b,
    decode_utf8 data = Some t /\
    encode_utf8 (ensure_meta_utf8 t true) = Some b /\
    process_file' path timeout_s dry_run w =
      (Ret SKIP,
       if is_markup path && negb dry_run
       then written (logged w (uchardet_events' path)) path b
       else logged w (uchardet_events' path)) /\
    Forall (fun e => is_iconv_run e = false)
           (uchardet_events' path ++ [EvWrite path b]).
Proof.
  intros Ef Hv Hd Hro. apply declares_utf8_iff in Hd.
  pose proof Hv as Hv'. unfold is_valid_utf8 in Hv'.
  destruct (decode_utf8 data) as [t|] eqn:Et; [|discriminate].
  destruct (ensure_meta_utf8_encodes t true (decode_scalar _ _ Et)) as [b Hb].
  exists t, b. repeat split; auto.
  - rewrite process_file_unfold, Ef. cbv zeta. rewrite Hv, Hd. cbn [andb].
    destruct (is_markup path) eqn:Em, dry_run; cbn [negb andb]; try reflexivity.
    unfold bind. rewrite Et.
    rewrite (write_text_ok path _ b) by (auto; apply Hro; auto). reflexivity.
  - unfold uchardet_events. destruct uchardet_installed; repeat constructor.
Qed.

(** C3.  Outside the short-circuit, with the candidates in their order:
    a candidate is accepted only when [iconv] ended with status 0 within
    the time allowed and printed valid UTF-8; candidates whose conversion
    timed out, failed or printed invalid bytes are passed over without any
    trace in the result; the first accepted candidate gives the outcome,
    OK with that candidate as the source (OK-DRY with it in a dry run).
    (In a real run the file must be writable.) *)
Theorem first_accepted_candidate_wins path timeout_s dry_run w data :
  files w !! path = Some data ->
  is_valid_utf8 data && declares_utf8 (declared_charset data) = false ->
  (dry_run = false -> path ∉ readonly w) ->
  let ordered := candidate_list (declared_charset data)
                                (detected_hint' path (Some data)) in
  (forall pre enc post out,
      ordered = pre ++ enc :: post ->
      Forall (fun e => rejected (iconv e path (Some data) timeout_s)) pre ->
      accepted (iconv enc path (Some data) timeout_s) out ->
      fst (process_file' path timeout_s dry_run w)
      = Ret (if dry_run then OK_DRY enc else OK enc))
  /\
  (forall enc,
      fst (process_file' path timeout_s dry_run w)
      = Ret (if dry_run then OK_DRY enc else OK enc) ->
      exists pre post out,
        ordered = pre ++ enc :: post /\
        Forall (fun e => rejected (iconv e path (Some data) timeout_s)) pre /\
        accepted (iconv enc path (Some data) timeout_s) out).
Proof.
  intros Ef Hs Hro ordered. split.
  - intros pre enc post out Ho Hpre Hacc.
    rewrite process_file_unfold, Ef. cbv zeta. rewrite Hs. fold ordered.
    rewrite Ho, first_accepted_found.
    + destruct dry_run; [reflexivity|]. unfold bind.
      destruct (written_text_encodes (is_markup path) _
                  (decoded_scalar (iconv_output' enc path (Some data) timeout_s)))
        as [b Hb].
      rewrite (write_text_ok path _ b) by (auto; apply Hro; auto). reflexivity.
    + eapply Forall_impl; [exact Hpre|]. intros e. apply iconv_output_nil_iff.
    + rewrite (iconv_output_of_accepted _ _ _ _ _ Hacc). apply Hacc.
  - intros enc. rewrite process_file_unfold, Ef. cbv zeta. rewrite Hs. fold ordered.
    destruct (first_accepted' path (Some data) timeout_s ordered)
      as [[[pre e] out]|] eqn:Efa.
    + apply first_accepted_spec in Efa as (post & Ho & Hpre & -> & Hne).
      intros H. assert (e = enc) as ->.
      { destruct dry_run; [simpl in H; congruence|].
        unfold bind in H. destruct (write_text _ _ _) as [[[]|x] w']; simpl in H;
          congruence. }
      exists pre, post, (iconv_output' enc path (Some data) timeout_s).
      repeat split; auto.
      * eapply Forall_impl; [exact Hpre|]. intros x. apply iconv_output_nil_iff.
      * now apply iconv_output_accepted in Hne as [? ?].
      * now apply iconv_output_valid.
    + unfold try_except, bind. destruct dry_run; cbn [negb].
      * simpl. congruence.
      * destruct (write_text _ _ _) as [[[]|[x|]] w']; simpl; congruence.
Qed.

Lemma encoded_spec t :
  Forall (fun c => scalar c = true) t -> encode_utf8 t = Some (encoded t).
Proof.
  intros H. unfold encoded. now destruct (scalar_encode t H) as [b ->].
Qed.

Lemma to_write_scalar is_html t :
  Forall (fun c => scalar c = true) t ->
  Forall (fun c => scalar c = true) (to_write is_html t).
Proof.
  intros H. unfold to_write. destruct is_html; [|exact H].
  now apply ensure_meta_utf8_scalar.
Qed.

Lemma write_text_run path t w :
  Forall (fun c => scalar c = true) t ->
  write_text path t w =
  if bool_decide (path ∈ readonly w)
  then (Raise (Exception ("Permission denied: " +:+ path)), w)
  else (Ret tt, written w path (encoded t)).
Proof.
  intros H. unfold write_text. rewrite (encoded_spec t H). reflexivity.
Qed.

(** a dry run, in full *)
Lemma process_file_dry path timeout_s w data :
  files w !! path = Some data ->
  let dec := declared_charset data in
  let det := detected_hint' path (Some data) in
  process_file' path timeout_s true w =
  if is_valid_utf8 data && declares_utf8 dec then
    (Ret SKIP, logged w (uchardet_events' path))
  else
    match first_accepted' path (Some data) timeout_s (candidate_list dec det) with
    | Some (pre, enc, _) =>
        (Ret (OK_DRY enc),
         logged w (uchardet_events' path ++ iconv_events path (pre ++ [enc])))
    | None =>
        (Ret OK_STAR,
         logged w (uchardet_events' path
                   ++ iconv_events path (candidate_list dec det)))
    end.
Proof.
  intros Ef dec det. rewrite process_file_unfold, Ef. cbv zeta. fold dec det.
  destruct (is_valid_utf8 data && declares_utf8 dec); [reflexivity|].
  destruct (first_accepted' _ _ _ _) as [[[pre enc] out]|];
    rewrite logged_logged; reflexivity.
Qed.

(** a real run, in full *)
Lemma process_file_real path timeout_s w data :
  files w !! path = Some data ->
  let dec := declared_charset data in
  let det := detected_hint' path (Some data) in
  let denied := Exception ("Permission denied: " +:+ path) in
  process_file' path timeout_s false w =
  if is_valid_utf8 data && declares_utf8 dec then
    let w0 := logged w (uchardet_events' path) in
    if is_markup path then
      if bool_decide (path ∈ readonly w) then (Raise denied, w0)
      else (Ret SKIP, written w0 path (encoded (to_write true (decoded data))))
    else (Ret SKIP, w0)
  else
    match first_accepted' path (Some data) timeout_s (candidate_list dec det) with
    | Some (pre, enc, out) =>
        let w1 := logged w (uchardet_events' path
                            ++ iconv_events path (pre ++ [enc])) in
        if bool_decide (path ∈ readonly w) then (Raise denied, w1)
        else (Ret (OK enc),
              written w1 path (encoded (to_write (is_markup path) (decoded out))))
    | None =>
        let w1 := logged w (uchardet_events' path
                            ++ iconv_events path (candidate_list dec det)) in
        if bool_decide (path ∈ readonly w) then (Ret (FAIL dec det), w1)
        else (Ret OK_STAR,
              written w1 path
                (encoded (to_write (is_markup path) (decode_latin1 data))))
    end.
Proof.
  intros Ef dec det denied. rewrite process_file_unfold, Ef. cbv zeta. fold dec det.
  destruct (is_valid_utf8 data && declares_utf8 dec) eqn:Es.
  - apply andb_true_iff in Es as [Hv _]. unfold is_valid_utf8 in Hv.
    cbn [negb]. destruct (is_markup path); [|reflexivity].
    unfold decoded. destruct (decode_utf8 data) as [t|] eqn:Et; [|discriminate].
    unfold bind. rewrite write_text_run
      by (apply ensure_meta_utf8_scalar; eapply decode_scalar; eauto).
    cbn [readonly logged]. destruct (bool_decide (path ∈ readonly w)); reflexivity.
  - destruct (first_accepted' _ _ _ _) as [[[pre enc] out]|].
    + rewrite logged_logged. unfold bind. fold (to_write (is_markup path) (decoded out)).
      rewrite write_text_run by apply to_write_scalar, decoded_scalar.
      cbn [readonly logged]. destruct (bool_decide (path ∈ readonly w)); reflexivity.
    + rewrite logged_logged. unfold try_except, bind. cbn [negb].
      fold (to_write (is_markup path) (decode_latin1 data)).
      rewrite write_text_run by apply to_write_scalar, latin1_scalar.
      cbn [readonly logged]. destruct (bool_decide (path ∈ readonly w)); reflexivity.
Qed.

Lemma first_accepted_all_rejected path content timeout_s ordered :
  Forall (fun e => rejected (iconv e path content timeout_s)) ordered ->
  first_accepted' path content timeout_s ordered = None.
Proof.
  induction 1 as [|e rest He Hr IH]; cbn [first_accepted]; [reflexivity|].
  apply iconv_output_nil_iff in He. now rewrite He, IH.
Qed.

Lemma uchardet_events_no_write path :
  Forall (fun e => is_write e = false) (uchardet_events' path).
Proof. unfold uchardet_events. destruct uchardet_installed; repeat constructor. Qed.

Lemma iconv_events_no_write path encs :
  Forall (fun e => is_write e = false) (iconv_events path encs).
Proof. unfold iconv_events. apply Forall_map, Forall_forall. reflexivity. Qed.

Lemma runs_no_write path encs :
  Forall (fun e => is_write e = false)
         (uchardet_events' path ++ iconv_events path encs).
Proof.
  apply Forall_app. split; [apply uchardet_events_no_write|apply iconv_events_no_write].
Qed.

Lemma message_dry_distinct path enc :
  message path (OK_DRY enc) <> message path (OK enc).
Proof. cbn. intros H. injection H. discriminate. Qed.

(** C6, as the code has it.  In a dry run [process_file] writes nothing:
    the world after it is the world before it with subprocess runs added
    to the log, whatever the result.  The detector and the candidate
    conversions run as in a real run.  A file that is already UTF-8 is
    reported SKIP; a file with an accepted candidate is reported OK-DRY
    with that candidate, a line no real run prints; a file with no
    accepted candidate is reported OK*, as the fallback of a real run is. *)
Theorem dry_run_writes_nothing path timeout_s w :
  let r := process_file' path timeout_s true w in
  (exists evs, snd r = logged w evs /\ Forall (fun e => is_write e = false) evs) /\
  match files w !! path with
  | None => exists e, fst r = Raise (Exception e)
  | Some data =>
      let dec := declared_charset data in
      let det := detected_hint' path (Some data) in
      fst r =
      Ret (if is_valid_utf8 data && declares_utf8 dec then SKIP
           else
             match first_accepted' path (Some data) timeout_s
                                   (candidate_list dec det) with
             | Some (_, enc, _) => OK_DRY enc
             | None => OK_STAR
             end)
  end /\
  (forall enc, message path (OK_DRY enc) <> message path (OK enc)).
Proof.
  intros r. subst r. split; [|split; [|intros enc; apply message_dry_distinct]].
  - destruct (files w !! path) as [data|] eqn:Ef.
    + rewrite (process_file_dry _ _ _ _ Ef). cbv zeta.
      destruct (is_valid_utf8 data && declares_utf8 (declared_charset data)).
      * eexists. split; [reflexivity|apply uchardet_events_no_write].
      * destruct (first_accepted' _ _ _ _) as [[[pre enc] out]|];
          (eexists; split; [reflexivity|apply runs_no_write]).
    + rewrite process_file_unfold, Ef. exists []. cbn [snd].
      rewrite logged_nil. split; [reflexivity|constructor].
  - destruct (files w !! path) as [data|] eqn:Ef.
    + rewrite (process_file_dry _ _ _ _ Ef). cbv zeta.
      destruct (is_valid_utf8 data && declares_utf8 (declared_charset data));
        [reflexivity|].
      destruct (first_accepted' _ _ _ _) as [[[pre enc] out]|]; reflexivity.
    + rewrite process_file_unfold, Ef. eexists. reflexivity.
Qed.

Lemma latin1_lossless data : map byte_of (decode_latin1 data) = data.
Proof.
  unfold decode_latin1. rewrite map_map.
  induction data as [|b data IH]; cbn [map]; [reflexivity|].
  now rewrite byte_of_to_N, IH.
Qed.


Lemma encoded_decoded out : is_valid_utf8 out = true -> encoded (decoded out) = out.
Proof.
  unfold is_valid_utf8, encoded, decoded.
  destruct (decode_utf8 out) as [t|] eqn:E; [|discriminate].
  intros _. simpl. now rewrite (encode_decode _ _ E).
Qed.

Lemma decode_encoded t :
  Forall (fun c => scalar c = true) t -> decode_utf8 (encoded t) = Some t.
Proof. intros H. apply decode_encode, encoded_spec, H. Qed.

Lemma first_accepted_accepted path content timeout_s ordered pre enc out :
  first_accepted' path content timeout_s ordered = Some (pre, enc, out) ->
  accepted (iconv enc path content timeout_s) out.
Proof.
  intros H. apply first_accepted_spec in H as (post & _ & _ & -> & Hne).
  now apply accepted_of_iconv_output.
Qed.


(** C2, as the code has it.  For a markup file whose real run ends in
    SKIP, OK or OK*, the persisted bytes are the UTF-8 encoding of
    [ensure_meta_utf8] of the text (the decoded old bytes, the decoded
    conversion, or the latin-1 reading).  That text is the input after
    the two replacements when this holds a UTF-8 declaration; otherwise,
    when it holds a match of the head pattern, the canonical tag is put
    right after the first such match, behind a line feed, and the
    persisted text then holds a UTF-8 declaration; otherwise nothing is
    inserted and the persisted text holds none. *)
Theorem markup_written_through_ensure_meta path timeout_s w data o w' :
  is_markup path = true ->
  files w !! path = Some data ->
  process_file' path timeout_s false w = (Ret o, w') ->
  (forall d1 d2, o <> FAIL d1 d2) ->
  exists t,
    text_before seconds iconv path data timeout_s o t /\
    files w' = <[path := encoded (ensure_meta_utf8 t true)]> (files w) /\
    decode_utf8 (encoded (ensure_meta_utf8 t true))
      = Some (ensure_meta_utf8 t true) /\
    meta_cases t.
Proof.
  intros Hm Ef H Hnf.
  rewrite (process_file_real _ _ _ _ Ef) in H. cbv zeta in H. rewrite Hm in H.
  assert (Hgen : forall t, Forall (fun c => scalar c = true) t ->
            decode_utf8 (encoded (ensure_meta_utf8 t true))
              = Some (ensure_meta_utf8 t true)).
  { intros t Ht. now apply decode_encoded, ensure_meta_utf8_scalar. }
  destruct (is_valid_utf8 data && declares_utf8 (declared_charset data)) eqn:Es.
  { apply andb_true_iff in Es as [Hv _]. unfold is_valid_utf8 in Hv.
    destruct (decode_utf8 data) as [t|] eqn:Et; [|discriminate].
    destruct (bool_decide (path ∈ readonly w)); [discriminate|].
    injection H as <- <-. exists t. cbn [text_before to_write].
    rewrite (decoded_valid _ _ Et).
    repeat split; [exact Et|apply Hgen; eapply decode_scalar; eauto|].
    apply ensure_meta_utf8_cases. }
  destruct (first_accepted' _ _ _ _) as [[[pre enc] out]|] eqn:Efa.
  - destruct (bool_decide (path ∈ readonly w)); [discriminate|].
    injection H as <- <-. apply first_accepted_accepted in Efa.
    pose proof Efa as (Hi & Hv & Hne). pose proof Hv as Hv'.
    unfold is_valid_utf8 in Hv'.
    destruct (decode_utf8 out) as [t|] eqn:Et; [|discriminate].
    exists t. cbn [text_before to_write]. rewrite (decoded_valid _ _ Et).
    split; [exists out; auto|].
    repeat split; [apply Hgen; eapply decode_scalar; eauto|].
    apply ensure_meta_utf8_cases.
  - destruct (bool_decide (path ∈ readonly w)); injection H as <- <-.
    + now destruct (Hnf (declared_charset data) (detected_hint' path (Some data))).
    + exists (decode_latin1 data). cbn [text_before to_write].
      repeat split; [apply Hgen, latin1_scalar|].
      apply ensure_meta_utf8_cases.
Qed.

(** C5, as the code has it.  A file that a real run converted, with result
    OK or OK*, is left as valid UTF-8.  The next run, real or dry, reports SKIP for
    it exactly when the declared hint read from the rewritten bytes is
    absent or names UTF-8 or ASCII. *)
Theorem second_run_skips_when_hint_is_utf8 path timeout_s dry_run w data o w1 :
  files w !! path = Some data ->
  process_file' path timeout_s false w = (Ret o, w1) ->
  (o = OK_STAR \/ (exists enc, o = OK enc)) ->
  exists data1,
    files w1 !! path = Some data1 /\
    is_valid_utf8 data1 = true /\
    (fst (process_file' path timeout_s dry_run w1) = Ret SKIP
     <-> utf8_hint (declared_charset data1)).
Proof.
  intros Ef H Ho.
  rewrite (process_file_real _ _ _ _ Ef) in H. cbv zeta in H.
  assert (Hw : exists t, Forall (fun c => scalar c = true) t /\
                         (path ∉ readonly w) /\
                         files w1 = <[path := encoded t]> (files w) /\
                         readonly w1 = readonly w).
  { destruct (is_valid_utf8 data && declares_utf8 (declared_charset data)).
    { destruct (is_markup path); [destruct (bool_decide (path ∈ readonly w))|];
        inversion H; subst; destruct Ho as [?|[? ?]]; discriminate. }
    destruct (first_accepted' _ _ _ _) as [[[pre enc] out]|];
      destruct (bool_decide (path ∈ readonly w)) eqn:Er;
      inversion H; subst; try (destruct Ho as [?|[? ?]]; discriminate);
      apply bool_decide_eq_false_1 in Er;
      eexists; (split; [|split; [exact Er|split; reflexivity]]);
      apply to_write_scalar; first [apply decoded_scalar|apply latin1_scalar]. }
  destruct Hw as (t & Ht & Hro & Hf & Hr). clear H Ho.
  assert (Ef1 : files w1 !! path = Some (encoded t)).
  { rewrite Hf. apply lookup_insert_eq. }
  assert (Hv : is_valid_utf8 (encoded t) = true).
  { unfold is_valid_utf8. now rewrite (decode_encoded t Ht). }
  exists (encoded t). repeat split; auto.
  - intros Hskip. apply declares_utf8_iff.
    destruct (declares_utf8 (declared_charset (encoded t))) eqn:Ed; [reflexivity|].
    exfalso. revert Hskip. destruct dry_run.
    + rewrite (process_file_dry _ _ _ _ Ef1). cbv zeta. rewrite Hv, Ed. cbn [andb].
      destruct (first_accepted' _ _ _ _) as [[[pre enc] out]|];
        cbn [fst]; discriminate.
    + rewrite (process_file_real _ _ _ _ Ef1). cbv zeta. rewrite Hv, Ed. cbn [andb].
      destruct (first_accepted' _ _ _ _) as [[[pre enc] out]|];
        destruct (bool_decide (path ∈ readonly w1)); cbn [fst]; discriminate.
  - intros Hd. apply declares_utf8_iff in Hd. destruct dry_run.
    + rewrite (process_file_dry _ _ _ _ Ef1). cbv zeta. now rewrite Hv, Hd.
    + rewrite (process_file_real _ _ _ _ Ef1). cbv zeta. rewrite Hv, Hd. cbn [andb].
      destruct (is_markup path); [|reflexivity].
      rewrite bool_decide_eq_false_2 by (rewrite Hr; exact Hro). reflexivity.
Qed.

(** ** The loop of [main] *)

Variable interrupted : string -> bool.

Local Abbreviation main_loop' :=
  (main_loop uchardet_installed uchardet seconds iconv interrupted).
Local Abbreviation main' :=
  (main uchardet_installed uchardet seconds iconv interrupted).

Lemma process_file_missing path timeout_s dry_run w :
  files w !! path = None ->
  process_file' path timeout_s dry_run w =
  (Raise (Exception ("No such file or directory: " +:+ path)), w).
Proof. intros H. now rewrite process_file_unfold, H. Qed.

(** a file that is not there is not created by the processing of another *)
Lemma process_file_keeps_absent g timeout_s dry_run w f :
  files w !! f = None ->
  files (snd (process_file' g timeout_s dry_run w)) !! f = None.
Proof.
  intros Hf. destruct (files w !! g) as [data|] eqn:Eg.
  - assert (Hne : g <> f) by congruence.
    destruct dry_run.
    + rewrite (process_file_dry _ _ _ _ Eg). cbv zeta.
      destruct (is_valid_utf8 data && declares_utf8 (declared_charset data));
        [exact Hf|].
      destruct (first_accepted' _ _ _ _) as [[[pre enc] out]|]; exact Hf.
    + rewrite (process_file_real _ _ _ _ Eg). cbv zeta.
      destruct (is_valid_utf8 data && declares_utf8 (declared_charset data)).
      { destruct (is_markup g); try destruct (bool_decide (g ∈ readonly w));
          cbn [snd files written logged]; rewrite ?lookup_insert_ne by exact Hne;
          exact Hf. }
      destruct (first_accepted' _ _ _ _) as [[[pre enc] out]|];
        destruct (bool_decide (g ∈ readonly w));
        cbn [snd files written logged]; rewrite ?lookup_insert_ne by exact Hne;
        exact Hf.
  - now rewrite (process_file_missing _ _ _ _ Eg).
Qed.

Lemma main_loop_reports timeout_s dry_run total fs :
  forall i w,
    (forall f, In f fs -> interrupted f = false) ->
    exists body w',
      main_loop' timeout_s dry_run total i fs w = (body, true, w') /\
      reported total i fs body /\
      (forall f, In f fs -> files w !! f = None ->
                 In (LError f ("No such file or directory: " +:+ f)) body) /\
      (forall f, files w !! f = None -> files w' !! f = None).
Proof.
  induction fs as [|g rest IH]; intros i w Hint.
  - exists [], w. cbn. repeat split; auto; intros f [].
  - cbn [main_loop]. rewrite (Hint g) by now left.
    pose proof (process_file_keeps_absent g timeout_s dry_run w) as Hkeep.
    destruct (files w !! g) as [data|] eqn:Eg.
    + destruct (process_file' g timeout_s dry_run w) as [[o|[e|]] w1] eqn:Ep.
      * destruct (IH (S i) w1) as (body & w' & -> & Hrep & Herr & Habs);
          [intros f Hf; apply Hint; now right|].
        eexists _, w'. split; [reflexivity|]. cbn [snd] in Hkeep.
        split; [|split].
        -- eexists _, body. split; [reflexivity|]. split; [left; eauto|exact Hrep].
        -- intros f [->|Hf] Hn; [congruence|]. right. right. auto.
        -- auto.
      * destruct (IH (S i) w1) as (body & w' & -> & Hrep & Herr & Habs);
          [intros f Hf; apply Hint; now right|].
        eexists _, w'. split; [reflexivity|]. cbn [snd] in Hkeep.
        split; [|split].
        -- eexists _, body. split; [reflexivity|]. split; [right; eauto|exact Hrep].
        -- intros f [->|Hf] Hn; [congruence|]. right. right. auto.
        -- auto.
      * exfalso. destruct dry_run.
        -- rewrite (process_file_dry _ _ _ _ Eg) in Ep. cbv zeta in Ep.
           destruct (is_valid_utf8 data && declares_utf8 (declared_charset data));
             [discriminate|].
           destruct (first_accepted' _ _ _ _) as [[[? ?] ?]|]; discriminate.
        -- rewrite (process_file_real _ _ _ _ Eg) in Ep. cbv zeta in Ep.
           destruct (is_valid_utf8 data && declares_utf8 (declared_charset data)).
           { destruct (is_markup g); [destruct (bool_decide (g ∈ readonly w))|];
               discriminate. }
           destruct (first_accepted' _ _ _ _) as [[[? ?] ?]|];
             destruct (bool_decide (g ∈ readonly w)); discriminate.
    + rewrite (process_file_missing _ _ _ _ Eg).
      destruct (IH (S i) w) as (body & w' & -> & Hrep & Herr & Habs);
        [intros f Hf; apply Hint; now right|].
      eexists _, w'. split; [reflexivity|]. split; [|split].
      * eexists _, body. split; [reflexivity|]. split; [right; eauto|exact Hrep].
      * intros f [->|Hf] Hn; [right; now left|]. right. right. auto.
      * auto.
Qed.


End Steps.
End Transcoder.

(** ** Scenarios *)

Lemma skip_when_already_utf8_witness :
  files (one_file "index.html" page_with_head) !! "index.html"
    = Some page_with_head /\
  is_valid_utf8 page_with_head = true /\
  utf8_hint (declared_charset page_with_head) /\
  exists t b,
    decode_utf8 page_with_head = Some t /\
    encode_utf8 (ensure_meta_utf8 t true) = Some b /\
    run no_iconv "index.html" false (one_file "index.html" page_with_head) =
      (Ret SKIP,
       if is_markup "index.html" && negb false
       then written (logged (one_file "index.html" page_with_head)
                            (uchardet_events false "index.html"))
                    "index.html" b
       else logged (one_file "index.html" page_with_head)
                   (uchardet_events false "index.html")) /\
    Forall (fun e => is_iconv_run e = false)
           (uchardet_events false "index.html" ++ [EvWrite "index.html" b]).
Proof.
  split; [reflexivity|]. split; [reflexivity|]. split; [left; reflexivity|].
  apply (Transcoder.skip_when_already_utf8 false no_uchardet unit no_iconv
           "index.html" tt false (one_file "index.html" page_with_head)
           page_with_head);
    [reflexivity|reflexivity|left; reflexivity|intros _ _; set_solver].
Defined.

Lemma first_accepted_candidate_wins_witness :
  files (one_file "notes.css" e_acute) !! "notes.css" = Some e_acute /\
  is_valid_utf8 e_acute && declares_utf8 (declared_charset e_acute) = false /\
  ("notes.css" ∉ readonly (one_file "notes.css" e_acute)) /\
  Forall (fun e => rejected (latin1_iconv e "notes.css" (Some e_acute) tt))
         ["CP1252"] /\
  accepted (latin1_iconv "ISO-8859-1" "notes.css" (Some e_acute) tt) [xc3; xa9] /\
  fst (run latin1_iconv "notes.css" false (one_file "notes.css" e_acute))
  = Ret (OK "ISO-8859-1").
Proof.
  assert (H1 : files (one_file "notes.css" e_acute) !! "notes.css" = Some e_acute)
    by reflexivity.
  assert (H2 : is_valid_utf8 e_acute && declares_utf8 (declared_charset e_acute)
               = false) by reflexivity.
  assert (H3 : "notes.css" ∉ readonly (one_file "notes.css" e_acute))
    by set_solver.
  assert (H4 : Forall (fun e => rejected (latin1_iconv e "notes.css" (Some e_acute) tt))
                      ["CP1252"]) by (repeat constructor).
  assert (H5 : accepted (latin1_iconv "ISO-8859-1" "notes.css" (Some e_acute) tt)
                        [xc3; xa9])
    by (repeat split; try reflexivity; discriminate).
  repeat (split; [assumption|]).
  exact (proj1 (Transcoder.first_accepted_candidate_wins
                  false no_uchardet unit latin1_iconv "notes.css" tt false
                  (one_file "notes.css" e_acute) e_acute H1 H2 (fun _ => H3))
               ["CP1252"] "ISO-8859-1"
               ["CP1250"; "ISO-8859-13"; "CP865"; "MAC-CENTRALEUROPE"]
               [xc3; xa9] eq_refl H4 H5).
Defined.

(** C6, a counterexample to the sentence of the specification.  With no
    converter at hand every candidate fails.  The dry run then goes on to
    the fallback of step 3 and reports OK*, the very line the real run
    prints after it has rewritten the file; the dry run itself leaves the
    file alone. *)
Lemma dry_run_reports_fallback_like_real_run :
  fst (run no_iconv "style.css" true (one_file "style.css" e_acute))
    = Ret OK_STAR /\
  fst (run no_iconv "style.css" false (one_file "style.css" e_acute))
    = Ret OK_STAR /\
  message "style.css" OK_STAR
    = "OK*   style.css (fallback latin-1 – check visually)" /\
  files (snd (run no_iconv "style.css" true (one_file "style.css" e_acute)))
    !! "style.css" = Some [xe9] /\
  files (snd (run no_iconv "style.css" false (one_file "style.css" e_acute)))
    !! "style.css" = Some [xc3; xa9].
Proof. vm_compute. repeat split; reflexivity. Qed.



(** C2, a counterexample to the sentence of the specification.  A markup
    fragment with neither head nor meta, already UTF-8: the run ends in
    SKIP, the file is rewritten as it was, and the persisted text holds no
    UTF-8 declaration at all.  And two legacy declarations in a text
    become two UTF-8 declarations. *)
Lemma markup_without_head_gets_no_declaration :
  is_markup "index.html" = true /\
  fst (run no_iconv "index.html" false (one_file "index.html" fragment))
    = Ret SKIP /\
  files (snd (run no_iconv "index.html" false (one_file "index.html" fragment)))
    !! "index.html" = Some fragment /\
  decode_utf8 fragment = Some (t_ "<p>hi</p>") /\
  search utf8_meta_re (t_ "<p>hi</p>") = None /\
  ensure_meta_utf8 (t_ "<head><meta charset=cp1252><meta charset=latin1></head>")
                   true
  = t_ "<head>" ++ META_UTF8 ++ META_UTF8 ++ t_ "</head>".
Proof. vm_compute. repeat split; reflexivity. Qed.

Lemma markup_written_through_ensure_meta_witness :
  is_markup "index.html" = true /\
  files (one_file "index.html" legacy_page) !! "index.html" = Some legacy_page /\
  run latin1_iconv "index.html" false (one_file "index.html" legacy_page)
  = (Ret (OK "ISO-8859-1"),
     snd (run latin1_iconv "index.html" false (one_file "index.html" legacy_page))) /\
  (forall d1 d2, OK "ISO-8859-1" <> FAIL d1 d2) /\
  exists t,
    text_before unit latin1_iconv "index.html" legacy_page tt (OK "ISO-8859-1") t /\
    files (snd (run latin1_iconv "index.html" false
                    (one_file "index.html" legacy_page)))
    = <["index.html" := encoded (ensure_meta_utf8 t true)]>
        (files (one_file "index.html" legacy_page)) /\
    decode_utf8 (encoded (ensure_meta_utf8 t true))
      = Some (ensure_meta_utf8 t true) /\
    meta_cases t.
Proof.
  assert (H : run latin1_iconv "index.html" false
                  (one_file "index.html" legacy_page)
              = (Ret (OK "ISO-8859-1"),
                 snd (run latin1_iconv "index.html" false
                          (one_file "index.html" legacy_page))))
    by (vm_compute; reflexivity).
  assert (Hn : forall d1 d2, OK "ISO-8859-1" <> FAIL d1 d2) by discriminate.
  split; [reflexivity|]. split; [reflexivity|]. split; [exact H|].
  split; [exact Hn|].
  exact (Transcoder.markup_written_through_ensure_meta
           false no_uchardet unit latin1_iconv
           "index.html" tt (one_file "index.html" legacy_page) legacy_page
           (OK "ISO-8859-1") _ eq_refl eq_refl H Hn).
Defined.

(** C5, a counterexample to the sentence of the specification.  A script
    that holds the text of a legacy declaration, and a markup fragment
    whose legacy declaration has a space after the quote (the pattern of
    the hint reads it, the pattern of the replacement does not): the first
    run converts each from ISO-8859-1, and the second run, finding the same
    declared hint in bytes that are now UTF-8, converts again instead of
    skipping, and rewrites the file with other bytes. *)
Lemma second_run_converts_again :
  fst (run latin1_iconv "site.js" false (one_file "site.js" legacy_script))
    = Ret (OK "ISO-8859-1") /\
  fst (run latin1_iconv "site.js" false
           (snd (run latin1_iconv "site.js" false
                     (one_file "site.js" legacy_script))))
    = Ret (OK "ISO-8859-1") /\
  files (snd (run latin1_iconv "site.js" false (one_file "site.js" legacy_script)))
    !! "site.js"
    = Some (b_ "document.write('<meta charset=iso-8859-1>')" ++ [xc3; xa9]) /\
  files (snd (run latin1_iconv "site.js" false
                  (snd (run latin1_iconv "site.js" false
                            (one_file "site.js" legacy_script)))))
    !! "site.js"
    = Some (b_ "document.write('<meta charset=iso-8859-1>')"
            ++ [xc3; x83; xc2; xa9]) /\
  fst (run latin1_iconv "index.html" false (one_file "index.html" spaced_meta))
    = Ret (OK "ISO-8859-1") /\
  fst (run latin1_iconv "index.html" false
           (snd (run latin1_iconv "index.html" false
                     (one_file "index.html" spaced_meta))))
    = Ret (OK "ISO-8859-1") /\
  fst (run latin1_iconv "index.html" true
           (snd (run latin1_iconv "index.html" false
                     (one_file "index.html" spaced_meta))))
    = Ret (OK_DRY "ISO-8859-1").
Proof. vm_compute. repeat split; reflexivity. Qed.

Lemma second_run_skips_when_hint_is_utf8_witness :
  files (one_file "notes.css" e_acute) !! "notes.css" = Some e_acute /\
  run latin1_iconv "notes.css" false (one_file "notes.css" e_acute)
  = (Ret (OK "ISO-8859-1"),
     snd (run latin1_iconv "notes.css" false (one_file "notes.css" e_acute))) /\
  (OK "ISO-8859-1" = OK_STAR \/ (exists enc, OK "ISO-8859-1" = OK enc)) /\
  exists data1,
    files (snd (run latin1_iconv "notes.css" false (one_file "notes.css" e_acute)))
      !! "notes.css" = Some data1 /\
    is_valid_utf8 data1 = true /\
    (fst (run latin1_iconv "notes.css" false
              (snd (run latin1_iconv "notes.css" false
                        (one_file "notes.css" e_acute)))) = Ret SKIP
     <-> utf8_hint (declared_charset data1)).
Proof.
  assert (H : run latin1_iconv "notes.css" false (one_file "notes.css" e_acute)
              = (Ret (OK "ISO-8859-1"),
                 snd (run latin1_iconv "notes.css" false
                          (one_file "notes.css" e_acute))))
    by (vm_compute; reflexivity).
  assert (Ho : OK "ISO-8859-1" = OK_STAR \/ (exists enc, OK "ISO-8859-1" = OK enc))
    by (right; eexists; reflexivity).
  split; [reflexivity|]. split; [exact H|]. split; [exact Ho|].
  exact (Transcoder.second_run_skips_when_hint_is_utf8
           false no_uchardet unit latin1_iconv
           "notes.css" tt false (one_file "notes.css" e_acute) e_acute
           (OK "ISO-8859-1") _ eq_refl H Ho).
Defined.


(* ================================================================= *)
(** * Further properties of the script *)

(** ** [is_valid_utf8] *)

Module Utf8Props.
Import Utf8Facts.

(** X1.  [is_valid_utf8] accepts exactly the byte strings that are the
    UTF-8 encoding of some text: what the script writes it will later
    recognise, and nothing else passes. *)
Theorem is_valid_utf8_iff_encoding (b : bytes) :
  is_valid_utf8 b = true <-> exists t, encode_utf8 t = Some b.
Proof.
  unfold is_valid_utf8. split.
  - destruct (decode_utf8 b) as [t|] eqn:E; [|discriminate].
    intros _. exists t. now apply encode_decode.
  - intros [t Ht]. now rewrite (decode_encode _ _ Ht).
Qed.

Lemma decode_ascii b :
  Forall (fun x => (Byte.to_N x < 128)%N) b ->
  decode_utf8 b = Some (decode_latin1 b).
Proof.
  induction 1 as [|x b Hx Hb IH]; [reflexivity|].
  cbn [decode_utf8 decode_latin1 map]. cbv zeta.
  destruct (N.ltb_spec (Byte.to_N x) 128); [|lia].
  now rewrite IH.
Qed.

(** X2.  Bytes that are all below 128 are valid UTF-8, and their UTF-8
    reading is their latin-1 reading: on an ASCII file the fallback and
    the proper decoding give the same text. *)
Theorem ascii_bytes_are_valid_utf8 (b : bytes) :
  Forall (fun x => (Byte.to_N x < 128)%N) b ->
  is_valid_utf8 b = true /\ decode_utf8 b = Some (decode_latin1 b).
Proof.
  intros H. unfold is_valid_utf8. now rewrite (decode_ascii b H).
Qed.

Lemma ascii_bytes_are_valid_utf8_witness :
  Forall (fun x => (Byte.to_N x < 128)%N) page_with_head /\
  is_valid_utf8 page_with_head = true /\
  decode_utf8 page_with_head = Some (decode_latin1 page_with_head).
Proof.
  assert (H : Forall (fun x => (Byte.to_N x < 128)%N) page_with_head)
    by (repeat constructor).
  split; [exact H|]. exact (ascii_bytes_are_valid_utf8 page_with_head H).
Defined.

End Utf8Props.

(** ** Patterns as languages *)

Module LangFacts.
Import ReFacts.
Section Lang.
Context {A : Type}.
Implicit Types (pat : pattern A) (s : list A).

Lemma matches_nil : matches (@nil (atom A)) [].
Proof. exists []. split; [constructor|reflexivity]. Qed.

Lemma matches_app pat1 pat2 s1 s2 :
  matches pat1 s1 -> matches pat2 s2 -> matches (pat1 ++ pat2) (s1 ++ s2).
Proof.
  intros (ws1 & H1 & <-) (ws2 & H2 & <-). exists (ws1 ++ ws2).
  split; [now apply Forall2_app|now rewrite concat_app].
Qed.

Lemma matches_app_inv pat1 pat2 s :
  matches (pat1 ++ pat2) s ->
  exists s1 s2, s = s1 ++ s2 /\ matches pat1 s1 /\ matches pat2 s2.
Proof.
  intros (ws & H & <-). apply Forall2_app_inv_l in H as (ws1 & ws2 & H1 & H2 & ->).
  exists (concat ws1), (concat ws2). rewrite concat_app.
  split; [reflexivity|]. split; eexists; eauto.
Qed.

Lemma matches_star (P : A -> bool) s :
  Forall (fun c => P c = true) s -> matches [(Star, P)] s.
Proof.
  intros H. exists [s]. split; [|cbn; now rewrite app_nil_r].
  repeat constructor; exact H.
Qed.

Lemma matches_opt_nil (P : A -> bool) : matches [(Opt, P)] [].
Proof.
  exists [[]]. split; [|reflexivity]. repeat constructor.
Qed.

(** a match only holds characters its items can consume *)
Lemma matches_within (P : A -> bool) pat s :
  Forall (within P) pat -> matches pat s -> Forall (fun c => P c = true) s.
Proof.
  intros Hp (ws & H & <-). induction H as [|a w pat ws [Hw _] H IH]; cbn.
  - constructor.
  - inversion Hp as [|? ? Ha Hp']; subst. apply Forall_app. split; [|auto].
    eapply Forall_impl; [exact Hw|]. exact Ha.
Qed.

Lemma matches_of_match_here pat s ws r :
  match_here pat s = Some (ws, r) -> matches pat (concat ws) /\ s = concat ws ++ r.
Proof.
  intros H. apply match_here_sound in H as [-> H]. split; [|reflexivity].
  exists ws. auto.
Qed.

Lemma match_here_of_matches pat s r :
  matches pat s -> is_Some (match_here pat (s ++ r)).
Proof. intros (ws & H & <-). now apply match_here_complete. Qed.

(** [search] finds a match exactly when some part of the text is matched *)
Lemma search_iff_matches pat s :
  is_Some (search pat s) <->
  exists pre m post, s = pre ++ m ++ post /\ matches pat m.
Proof.
  split.
  - intros [[[pre ws] post] H]. apply search_sound in H as [-> H].
    apply matches_of_match_here in H as [H _]. eauto.
  - intros (pre & m & post & -> & H). apply search_complete.
    now apply match_here_of_matches.
Qed.

End Lang.
End LangFacts.

(** ** [declared_charset] *)

Module HintProps.
Import PyFacts ReFacts LangFacts HintFacts.

Ltac bool_to_prop :=
  repeat (rewrite ?orb_true_iff, ?andb_true_iff, ?negb_true_iff, ?N.leb_le,
            ?N.ltb_lt, ?N.eqb_eq, ?N.eqb_neq in *).

Lemma lit_b_not_gt c n :
  fold_ascii (code c) <> 62%N -> lit_b c n = true -> not_gt n = true.
Proof.
  unfold lit_b, not_gt. intros Hc H.
  destruct (N.eqb_spec n 62) as [->|]; [|reflexivity].
  apply N.eqb_eq in H. change (fold_ascii 62) with 62%N in H. congruence.
Qed.

Lemma ws_b_not_gt n : ws_b n = true -> not_gt n = true.
Proof. unfold ws_b, not_gt. intros H. bool_to_prop. lia. Qed.

Lemma quote_not_gt n : quote n = true -> not_gt n = true.
Proof. unfold quote, not_gt. intros H. bool_to_prop. lia. Qed.

Lemma exactly_not_gt c n : code c <> 62%N -> exactly c n = true -> not_gt n = true.
Proof. unfold exactly, not_gt. intros Hc H. bool_to_prop. lia. Qed.

Lemma name_b_ascii n : name_b n = true -> (n < 128)%N.
Proof. unfold name_b. intros H. bool_to_prop. lia. Qed.

Lemma within_on_bytes (P : N -> bool) (pat : pattern N) :
  Forall (fun a => forall n, snd a n = true -> P n = true) pat ->
  Forall (within (fun b => P (Byte.to_N b))) (on_bytes pat).
Proof.
  intros H. unfold on_bytes. apply Forall_map.
  eapply Forall_impl; [exact H|]. intros a Ha b. cbn. apply Ha.
Qed.

Lemma on_bytes_app p q : on_bytes (p ++ q) = on_bytes p ++ on_bytes q.
Proof. apply map_app. Qed.

Lemma HTTP_EQUIV_RE_parts :
  HTTP_EQUIV_RE =
  on_bytes (lits lit_b "<meta") ++ on_bytes http_equiv_middle ++
  on_bytes charset_eq ++ on_bytes [(Plus, name_b)] ++
  on_bytes [(Star, ws_b); (One, quote); (Star, ws_b)] ++
  on_bytes [(One, exactly ">")].
Proof. reflexivity. Qed.

Lemma META_CHARSET_RE_parts :
  META_CHARSET_RE =
  on_bytes (lits lit_b "<meta") ++ on_bytes [(Star, not_gt)] ++
  (on_bytes charset_eq ++ on_bytes [(Opt, quote)] ++ on_bytes [(Star, ws_b)]) ++
  on_bytes [(Plus, name_b)] ++ on_bytes [(Star, not_gt)] ++
  on_bytes [(One, exactly ">")].
Proof. reflexivity. Qed.

Lemma http_equiv_middle_not_gt :
  Forall (fun a => forall n, snd a n = true -> not_gt n = true) http_equiv_middle.
Proof.
  repeat constructor; cbn [snd]; intros n;
    first [apply ws_b_not_gt | apply quote_not_gt
          | apply exactly_not_gt; vm_compute; discriminate
          | apply lit_b_not_gt; vm_compute; discriminate].
Qed.

Lemma tail_not_gt :
  Forall (fun a => forall n, snd a n = true -> not_gt n = true)
         [(Star, ws_b); (One, quote); (Star, ws_b)].
Proof.
  repeat constructor; cbn [snd]; intros n;
    first [apply ws_b_not_gt | apply quote_not_gt].
Qed.

(** whatever [HTTP_EQUIV_RE] matches, [META_CHARSET_RE] matches too *)
Lemma http_equiv_matches_meta m :
  matches HTTP_EQUIV_RE m -> matches META_CHARSET_RE m.
Proof.
  rewrite HTTP_EQUIV_RE_parts, META_CHARSET_RE_parts. intros H.
  apply matches_app_inv in H as (a & r1 & -> & Ha & H).
  apply matches_app_inv in H as (b & r2 & -> & Hb & H).
  apply matches_app_inv in H as (c & r3 & -> & Hc & H).
  apply matches_app_inv in H as (d & r4 & -> & Hd & H).
  apply matches_app_inv in H as (e & f & -> & He & Hf).
  apply matches_app; [exact Ha|].
  apply matches_app.
  { apply (matches_star (fun x => not_gt (Byte.to_N x))).
    eapply matches_within; [|exact Hb].
    apply within_on_bytes, http_equiv_middle_not_gt. }
  replace c with (c ++ [] ++ []) by now rewrite !app_nil_r.
  apply matches_app.
  { apply matches_app; [exact Hc|]. apply matches_app; [apply matches_opt_nil|].
    apply (matches_star (fun x => ws_b (Byte.to_N x))). constructor. }
  apply matches_app; [exact Hd|].
  apply matches_app; [|exact Hf].
  apply (matches_star (fun x => not_gt (Byte.to_N x))).
  eapply matches_within; [|exact He].
  apply within_on_bytes, tail_not_gt.
Qed.

Lemma http_equiv_search_meta data :
  is_Some (search HTTP_EQUIV_RE data) -> is_Some (search META_CHARSET_RE data).
Proof.
  rewrite !search_iff_matches. intros (pre & m & post & -> & H).
  exists pre, m, post. split; [reflexivity|now apply http_equiv_matches_meta].
Qed.

(** X3.  The second pattern of [declared_charset] never decides: wherever
    [HTTP_EQUIV_RE] matches, [META_CHARSET_RE] matches too, so the hint is
    always the group of the first match of [META_CHARSET_RE], and there is
    no hint exactly when that pattern does not match. *)
Theorem http_equiv_pattern_never_decides (data : bytes) :
  (search META_CHARSET_RE data = None -> search HTTP_EQUIV_RE data = None) /\
  declared_charset data =
  match search META_CHARSET_RE data with
  | Some (_, ws, _) => decode_ascii_ignore (piece META_CHARSET_group ws)
  | None => ""
  end.
Proof.
  assert (H : search META_CHARSET_RE data = None ->
              search HTTP_EQUIV_RE data = None).
  { intros E1. destruct (search HTTP_EQUIV_RE data) eqn:E2; [|reflexivity].
    destruct (http_equiv_search_meta data) as [x Hx]; [rewrite E2; eauto|].
    congruence. }
  split; [exact H|]. unfold declared_charset.
  destruct (search META_CHARSET_RE data) as [[[pre ws] r]|] eqn:E1; [reflexivity|].
  now rewrite (H eq_refl).
Qed.

Lemma code_ascii_of_byte b : code (ascii_of_byte b) = Byte.to_N b.
Proof. destruct b; reflexivity. Qed.

Lemma decode_ascii_ignore_name_chars w :
  Forall (fun b => name_b (Byte.to_N b) = true) w ->
  str_forall name_char (decode_ascii_ignore w) = true /\
  String.length (decode_ascii_ignore w) = length w.
Proof.
  induction 1 as [|b w Hb Hw [IH1 IH2]]; cbn [decode_ascii_ignore]; [auto|].
  pose proof (name_b_ascii _ Hb) as Hlt.
  destruct (N.ltb_spec (Byte.to_N b) 128); [|lia].
  cbn [str_forall String.length length]. unfold name_char at 1.
  rewrite code_ascii_of_byte, Hb, IH1, IH2. auto.
Qed.

Lemma meta_group_fits data pre ws r :
  search META_CHARSET_RE data = Some (pre, ws, r) ->
  Forall (fun b => name_b (Byte.to_N b) = true) (piece META_CHARSET_group ws) /\
  1 <= length (piece META_CHARSET_group ws).
Proof.
  intros H. apply search_sound in H as [_ H].
  apply match_here_sound in H as [_ H].
  assert (Hlt : META_CHARSET_group < length META_CHARSET_RE) by (vm_compute; lia).
  pose proof (fits_nth META_CHARSET_RE ws META_CHARSET_group
                (One, fun _ => false) H Hlt) as [Hall Hlen].
  change (nth META_CHARSET_group META_CHARSET_RE (One, fun _ => false))
    with (Plus, fun b : byte => name_b (Byte.to_N b)) in *.
  auto.
Qed.

Lemma declared_charset_by_meta data :
  declared_charset data =
  match search META_CHARSET_RE data with
  | Some (_, ws, _) => decode_ascii_ignore (piece META_CHARSET_group ws)
  | None => ""
  end.
Proof.
  unfold declared_charset.
  destruct (search META_CHARSET_RE data) as [[[pre ws] r]|] eqn:E1; [reflexivity|].
  destruct (search HTTP_EQUIV_RE data) as [[[pre ws] r]|] eqn:E2; [|reflexivity].
  destruct (http_equiv_search_meta data) as [x Hx]; [rewrite E2; eauto|].
  congruence.
Qed.

(** X4.  The declared hint is made of name characters only (letters,
    digits, hyphen, underscore), and it is empty exactly when
    [META_CHARSET_RE] matches nowhere in the bytes: a match always gives a
    name of at least one character. *)
Theorem declared_charset_is_a_name (data : bytes) :
  str_forall name_char (declared_charset data) = true /\
  (declared_charset data = "" <-> search META_CHARSET_RE data = None).
Proof.
  rewrite declared_charset_by_meta.
  destruct (search META_CHARSET_RE data) as [[[pre ws] r]|] eqn:E.
  - destruct (meta_group_fits _ _ _ _ E) as [Hall Hlen].
    destruct (decode_ascii_ignore_name_chars _ Hall) as [H1 H2].
    split; [exact H1|]. split; [|discriminate].
    intros H0. rewrite H0 in H2. change (String.length "") with 0 in H2. lia.
  - split; [reflexivity|]. split; reflexivity.
Qed.

Lemma matches_first_char {A} (P : A -> bool) (pat : pattern A) m :
  matches ((One, P) :: pat) m -> exists c m', m = c :: m' /\ P c = true.
Proof.
  intros (ws & H & <-). inversion H as [|a w ? ws' [Hw Hl] H']; subst.
  cbn in Hl. destruct w as [|c [|? ?]]; try discriminate.
  inversion Hw; subst. exists c, (concat ws'). auto.
Qed.

Lemma lt_byte n : Byte.to_N n = 60%N -> n = "<"%byte.
Proof.
  intros H. apply (f_equal Byte.of_N) in H. rewrite Byte.of_to_N in H.
  now injection H.
Qed.

(** X5.  Bytes that hold no [<] give no declared hint (the empty byte
    string among them): both patterns start with that character. *)
Theorem no_angle_bracket_no_hint (data : bytes) :
  Forall (fun x => x <> "<"%byte) data -> declared_charset data = "".
Proof.
  intros Hno. rewrite declared_charset_by_meta.
  destruct (search META_CHARSET_RE data) as [[[pre ws] r]|] eqn:E; [|reflexivity].
  exfalso.
  assert (Hs : is_Some (search META_CHARSET_RE data)) by (rewrite E; eauto).
  apply search_iff_matches in Hs as (p & m & q & -> & Hm).
  apply (matches_first_char (fun b => lit_b "<" (Byte.to_N b))) in Hm
    as (c & m' & -> & Hc).
  apply Forall_app in Hno as [_ Hno]. inversion Hno as [|? ? Hc' _]; subst.
  apply Hc', lt_byte. unfold lit_b in Hc. apply N.eqb_eq in Hc.
  change (fold_ascii (code "<")) with 60%N in Hc.
  unfold fold_ascii in Hc.
  destruct ((65 <=? Byte.to_N c) && (Byte.to_N c <=? 90))%N eqn:Hb; [|exact Hc].
  bool_to_prop. lia.
Qed.

Lemma no_angle_bracket_no_hint_witness :
  Forall (fun x => x <> "<"%byte) (b_ "body { color: red }") /\
  declared_charset (b_ "body { color: red }") = "".
Proof.
  assert (H : Forall (fun x => x <> "<"%byte) (b_ "body { color: red }"))
    by (repeat constructor; discriminate).
  split; [exact H|]. exact (no_angle_bracket_no_hint _ H).
Defined.

End HintProps.

(** ** [normalize] *)

Module NormalizeProps.
Import PyFacts NormalizeFacts.

Lemma isspace_lower c : isspace (lower_char c) = isspace c.
Proof. each_char c. Qed.

Lemma upper_lower_char c : upper_char (lower_char c) = upper_char c.
Proof. each_char c. Qed.

Lemma upper_not_lower c : is_lower_letter (upper_char c) = false.
Proof. each_char c. Qed.

Lemma upper_lower s : upper (lower s) = upper s.
Proof.
  induction s as [|c s IH]; cbn; [reflexivity|]. now rewrite upper_lower_char, IH.
Qed.

Lemma lstrip_upper s : lstrip (upper s) = upper (lstrip s).
Proof.
  induction s as [|c s IH]; cbn; [reflexivity|]. rewrite isspace_upper.
  destruct (isspace c); [exact IH|reflexivity].
Qed.

Lemma lstrip_lower s : lstrip (lower s) = lower (lstrip s).
Proof.
  induction s as [|c s IH]; cbn; [reflexivity|]. rewrite isspace_lower.
  destruct (isspace c); [exact IH|reflexivity].
Qed.

Lemma rstrip_upper s : rstrip (upper s) = upper (rstrip s).
Proof.
  induction s as [|c s IH]; cbn; [reflexivity|]. rewrite IH, isspace_upper.
  destruct (rstrip s); cbn; [destruct (isspace c)|]; reflexivity.
Qed.

Lemma rstrip_lower s : rstrip (lower s) = lower (rstrip s).
Proof.
  induction s as [|c s IH]; cbn; [reflexivity|]. rewrite IH, isspace_lower.
  destruct (rstrip s); cbn; [destruct (isspace c)|]; reflexivity.
Qed.

Lemma strip_upper s : strip (upper s) = upper (strip s).
Proof. unfold strip. now rewrite lstrip_upper, rstrip_upper. Qed.

Lemma strip_lower s : strip (lower s) = lower (strip s).
Proof. unfold strip. now rewrite lstrip_lower, rstrip_lower. Qed.

Lemma lstrip_remove_spaces s :
  remove_spaces (lstrip (remove_spaces s)) = remove_spaces (lstrip s).
Proof.
  induction s as [|c s IH]; cbn; [reflexivity|].
  destruct (Ascii.eqb c " ") eqn:E.
  - rewrite (space_isspace _ E). exact IH.
  - cbn. destruct (isspace c); [exact IH|]. cbn.
    now rewrite E, remove_spaces_idem.
Qed.

Lemma rstrip_all_space s :
  rstrip s = EmptyString -> rstrip (remove_spaces s) = EmptyString.
Proof.
  induction s as [|c s IH]; cbn; [reflexivity|].
  destruct (rstrip s) eqn:Er; [|discriminate].
  destruct (isspace c) eqn:Ec; [|discriminate]. intros _.
  destruct (Ascii.eqb c " "); [now apply IH|].
  cbn. now rewrite (IH eq_refl), Ec.
Qed.

Lemma rstrip_some_char s :
  rstrip s <> EmptyString -> rstrip (remove_spaces s) <> EmptyString.
Proof.
  induction s as [|c s IH]; cbn; [auto|].
  destruct (rstrip s) eqn:Er.
  - destruct (isspace c) eqn:Ec; [congruence|]. intros _.
    destruct (Ascii.eqb c " ") eqn:E;
      [apply space_isspace in E; congruence|].
    cbn. destruct (rstrip (remove_spaces s)); [now rewrite Ec|discriminate].
  - intros _. assert (Hr : rstrip (remove_spaces s) <> EmptyString)
      by (apply IH; discriminate).
    destruct (Ascii.eqb c " "); [exact Hr|].
    cbn. destruct (rstrip (remove_spaces s)); [congruence|discriminate].
Qed.

Lemma rstrip_remove_spaces s :
  remove_spaces (rstrip (remove_spaces s)) = remove_spaces (rstrip s).
Proof.
  induction s as [|c s IH]; [reflexivity|].
  cbn [rstrip remove_spaces]. destruct (rstrip s) as [|d r] eqn:Er.
  - pose proof (rstrip_all_space s Er) as Hg.
    destruct (Ascii.eqb c " ") eqn:E.
    + rewrite Hg, (space_isspace _ E). reflexivity.
    + cbn [rstrip]. rewrite Hg. destruct (isspace c); [reflexivity|].
      cbn. now rewrite E.
  - assert (Hne : rstrip (remove_spaces s) <> EmptyString)
      by (apply rstrip_some_char; congruence).
    destruct (Ascii.eqb c " ") eqn:E.
    + rewrite IH. cbn [remove_spaces]. now rewrite E.
    + cbn [rstrip]. destruct (rstrip (remove_spaces s)) as [|e q] eqn:Eq;
        [congruence|].
      cbn [remove_spaces] in *. rewrite E. now rewrite IH.
Qed.

Lemma strip_remove_spaces s :
  remove_spaces (strip (remove_spaces s)) = remove_spaces (strip s).
Proof.
  unfold strip.
  rewrite <- (rstrip_remove_spaces (lstrip (remove_spaces s))).
  rewrite lstrip_remove_spaces. apply rstrip_remove_spaces.
Qed.

Lemma steps_of_spaces s :
  nonempty s = true -> nonempty (remove_spaces s) = false ->
  remove_spaces (upper (strip s)) = EmptyString.
Proof.
  intros _ H. rewrite <- upper_remove_spaces, <- strip_remove_spaces.
  destruct (remove_spaces s); [reflexivity|discriminate].
Qed.

(** X6.  [normalize] does not see letter case, spaces or surrounding white
    space: a name, the same name in upper or lower case, with its spaces
    removed, or stripped, all normalise to the same result. *)
Theorem normalize_ignores_case_and_spaces (s : string) :
  normalize (upper s) = normalize s /\
  normalize (lower s) = normalize s /\
  normalize (remove_spaces s) = normalize s /\
  normalize (strip s) = normalize s.
Proof.
  rewrite !normalize_unfold. repeat split.
  - rewrite strip_upper, upper_idem. now destruct s.
  - rewrite strip_lower, upper_lower. now destruct s.
  - rewrite <- (upper_remove_spaces (strip (remove_spaces s))).
    rewrite strip_remove_spaces, upper_remove_spaces.
    destruct (nonempty s) eqn:Es; [|now destruct s].
    destruct (nonempty (remove_spaces s)) eqn:Eg; [reflexivity|].
    now rewrite (steps_of_spaces s Es Eg).
  - rewrite strip_idem. destruct (nonempty s) eqn:Es; [|now destruct s].
    destruct (nonempty (strip s)) eqn:Eg; [reflexivity|].
    destruct (strip s); [reflexivity|discriminate].
Qed.

Lemma remove_spaces_no_space s :
  str_forall (fun c => negb (is_space_char c)) (remove_spaces s) = true.
Proof.
  induction s as [|c s IH]; cbn; [reflexivity|].
  destruct (Ascii.eqb c " ") eqn:E; [exact IH|].
  cbn. unfold is_space_char at 1. now rewrite E, IH.
Qed.

Lemma upper_no_lower s :
  str_forall (fun c => negb (is_lower_letter c)) (upper s) = true.
Proof.
  induction s as [|c s IH]; cbn; [reflexivity|]. now rewrite upper_not_lower, IH.
Qed.

Lemma remove_spaces_keeps (P : ascii -> bool) s :
  str_forall P s = true -> str_forall P (remove_spaces s) = true.
Proof.
  induction s as [|c s IH]; cbn; [reflexivity|]. intros H.
  apply andb_true_iff in H as [Hc Hs].
  destruct (Ascii.eqb c " "); [auto|]. cbn. now rewrite Hc, IH.
Qed.

Lemma str_forall_and (P Q : ascii -> bool) s :
  str_forall P s = true -> str_forall Q s = true ->
  str_forall (fun c => P c && Q c) s = true.
Proof.
  induction s as [|c s IH]; cbn; [reflexivity|]. intros H1 H2.
  apply andb_true_iff in H1 as [? ?]. apply andb_true_iff in H2 as [? ?].
  rewrite IH by assumption. now rewrite H, H1.
Qed.

Lemma ENC_MAP_values_clean k v :
  ENC_MAP !! k = Some v ->
  str_forall (fun c => negb (is_lower_letter c) && negb (is_space_char c)) v = true
  /\ head_ok v = true /\ last_ok v = true.
Proof.
  intros H. unfold ENC_MAP in H. apply elem_of_list_to_map_2 in H.
  repeat (apply elem_of_cons in H;
          destruct H as [H|H]; [inversion H; vm_compute; auto|]).
  now apply elem_of_nil in H.
Qed.

(** X7.  A normalised name holds no lower-case letter and no space, and
    neither starts nor ends with white space, whatever the input. *)
Theorem normalize_is_clean (s : string) :
  str_forall (fun c => negb (is_lower_letter c) && negb (is_space_char c))
             (normalize s) = true /\
  head_ok (normalize s) = true /\ last_ok (normalize s) = true.
Proof.
  rewrite normalize_unfold. destruct (nonempty s); [|auto].
  destruct (ENC_MAP !! remove_spaces (upper (strip s))) as [v|] eqn:E; cbn.
  - eapply ENC_MAP_values_clean, E.
  - split; [|split].
    + apply str_forall_and; [|apply remove_spaces_no_space].
      apply remove_spaces_keeps, upper_no_lower.
    + apply head_ok_remove_spaces. rewrite head_ok_upper. apply head_ok_strip.
    + apply last_ok_remove_spaces. rewrite last_ok_upper. apply last_ok_strip.
Qed.

End NormalizeProps.

(** ** The candidate list *)

Module ResolverProps.
Import PyFacts NormalizeFacts ResolverFacts.

Lemma In_filter_neq x y l :
  In y (List.filter (fun z => negb (String.eqb x z)) l) <-> In y l /\ x <> y.
Proof.
  rewrite filter_In, negb_true_iff, String.eqb_neq. tauto.
Qed.

Lemma first_occurrences_In l x : In x (first_occurrences l) <-> In x l.
Proof.
  induction l as [|y l IH]; cbn; [tauto|].
  rewrite In_filter_neq, IH. destruct (string_dec y x); tauto.
Qed.

Lemma NoDup_filter' {X} (f : X -> bool) l : List.NoDup l -> List.NoDup (List.filter f l).
Proof.
  induction 1 as [|x l Hx Hl IH]; cbn; [constructor|].
  destruct (f x); [|exact IH]. constructor; [|exact IH].
  rewrite filter_In. tauto.
Qed.

Lemma first_occurrences_NoDup l : List.NoDup (first_occurrences l).
Proof.
  induction l as [|y l IH]; cbn; constructor.
  - rewrite In_filter_neq. tauto.
  - now apply NoDup_filter'.
Qed.

Lemma first_occurrences_length l : length (first_occurrences l) <= length l.
Proof.
  induction l as [|y l IH]; cbn; [lia|].
  pose proof (filter_length_le (fun z => negb (String.eqb y z))
                (first_occurrences l)). lia.
Qed.

Lemma first_occurrences_head x l :
  hd_error (first_occurrences (x :: l)) = Some x.
Proof. reflexivity. Qed.

Lemma candidate_list_eq dec det :
  candidate_list dec det =
  first_occurrences
    (List.filter nonempty (normalize dec :: normalize det :: fallbacks)).
Proof.
  unfold candidate_list.
  rewrite ordered_loop_spec, filter_unseen_empty, app_nil_l.
  cbn [map]. replace (map normalize fallbacks) with fallbacks; [reflexivity|].
  vm_compute. reflexivity.
Qed.

Lemma fallbacks_NoDup : List.NoDup fallbacks.
Proof.
  unfold fallbacks.
  repeat (constructor; [cbn; intros H; repeat destruct H as [H|H];
                        try discriminate; exact H|]).
  constructor.
Qed.

Lemma candidate_list_at_most_eight dec det :
  length (candidate_list dec det) <= 8.
Proof.
  rewrite candidate_list_eq.
  pose proof (first_occurrences_length
                (List.filter nonempty (normalize dec :: normalize det :: fallbacks))).
  pose proof (filter_length_le nonempty
                (normalize dec :: normalize det :: fallbacks)) as Hl.
  cbn [length] in Hl. change (length fallbacks) with 6 in Hl. lia.
Qed.

(** X8.  Whatever the two hints are, the candidate list holds no empty
    name and no name twice, holds each of the six fallback encodings, and
    has between six and eight names; each of its names is the normalised
    declared hint, the normalised detected hint, or a fallback. *)
Theorem candidate_list_shape (dec det : string) :
  List.NoDup (candidate_list dec det) /\
  Forall (fun n => nonempty n = true) (candidate_list dec det) /\
  (forall f, In f fallbacks -> In f (candidate_list dec det)) /\
  6 <= length (candidate_list dec det) <= 8 /\
  (forall n, In n (candidate_list dec det) ->
             n = normalize dec \/ n = normalize det \/ In n fallbacks).
Proof.
  rewrite candidate_list_eq.
  set (l := List.filter nonempty (normalize dec :: normalize det :: fallbacks)).
  assert (Hf : forall f, In f fallbacks -> In f (first_occurrences l)).
  { intros f Hf. apply first_occurrences_In. unfold l. apply filter_In.
    split; [now right; right|].
    unfold fallbacks in Hf. cbn in Hf.
    repeat destruct Hf as [<-|Hf]; try reflexivity. destruct Hf. }
  split; [apply first_occurrences_NoDup|]. split; [|split; [exact Hf|split]].
  - apply List.Forall_forall. intros n Hn. rewrite first_occurrences_In in Hn.
    unfold l in Hn. now apply filter_In in Hn as [_ Hn].
  - split.
    + change 6 with (length fallbacks).
      apply List.NoDup_incl_length; [apply fallbacks_NoDup|exact Hf].
    + pose proof (first_occurrences_length l).
      pose proof (filter_length_le nonempty
                    (normalize dec :: normalize det :: fallbacks)) as Hl.
      fold l in Hl. cbn [length] in Hl. change (length fallbacks) with 6 in Hl.
      lia.
  - intros n Hn. rewrite first_occurrences_In in Hn. unfold l in Hn.
    apply filter_In in Hn as [Hn _]. cbn [In] in Hn.
    destruct Hn as [<-|[<-|Hn]]; auto.
Qed.

(** X9.  The first candidate is the normalised declared hint when it is
    not empty, else the normalised detected hint when that is not empty,
    else CP1252. *)
Theorem candidate_list_head (dec det : string) :
  hd_error (candidate_list dec det) =
  Some (if nonempty (normalize dec) then normalize dec
        else if nonempty (normalize det) then normalize det
        else "CP1252").
Proof.
  rewrite candidate_list_eq. cbn [List.filter].
  destruct (nonempty (normalize dec)); [reflexivity|].
  destruct (nonempty (normalize det)); reflexivity.
Qed.

End ResolverProps.

(** ** [re.sub] and [re.search] *)

Module SubFacts.
Import ReFacts LangFacts.
Section Sub.
Context {A : Type}.
Implicit Types (pat : pattern A) (s : list A).

Lemma sub_cons_none pat f c s :
  match_here pat (c :: s) = None -> sub pat f (c :: s) = c :: sub pat f s.
Proof. unfold sub. cbn [sub_from]. now intros ->. Qed.

Lemma sub_match pat f s ws r :
  match_here pat s = Some (ws, r) -> concat ws <> [] ->
  sub pat f s = f ws ++ sub pat f r.
Proof.
  intros H Hne. destruct (match_here_sound _ _ _ _ H) as [Hs _].
  destruct (concat ws) as [|c w] eqn:Ew; [congruence|].
  subst s. unfold sub. cbn [app sub_from]. cbn [app] in H. rewrite H, Ew.
  cbn [length]. now rewrite sub_from_skip.
Qed.

Lemma search_nil_none pat : search pat [] = None -> match_here pat [] = None.
Proof. cbn. now destruct (match_here pat []) as [[? ?]|]. Qed.

Lemma search_cons_none pat c s :
  search pat (c :: s) = None <->
  match_here pat (c :: s) = None /\ search pat s = None.
Proof.
  cbn [search]. destruct (match_here pat (c :: s)) as [[? ?]|].
  - split; [discriminate|]. now intros [? _].
  - destruct (search pat s) as [[[? ?] ?]|].
    + split; [discriminate|]. now intros [_ ?].
    + tauto.
Qed.

Lemma search_app_none pat pre s :
  search pat (pre ++ s) = None -> search pat s = None.
Proof.
  induction pre as [|c pre IH]; [auto|].
  cbn [app]. rewrite search_cons_none. tauto.
Qed.

Lemma sub_no_match pat f s : search pat s = None -> sub pat f s = s.
Proof.
  induction s as [|c s IH].
  - intros H. apply search_nil_none in H. unfold sub. cbn. now rewrite H.
  - rewrite search_cons_none. intros [H1 H2].
    rewrite sub_cons_none by exact H1. now rewrite IH.
Qed.

Lemma sub1_no_match pat f s : search pat s = None -> sub1 pat f s = s.
Proof. unfold sub1. now intros ->. Qed.

(** the text before the first match stays *)
Lemma sub_first pat f s pre ws r :
  search pat s = Some (pre, ws, r) -> concat ws <> [] ->
  sub pat f s = pre ++ f ws ++ sub pat f r.
Proof.
  revert pre. induction s as [|c s IH]; intros pre H Hne.
  - cbn in H. destruct (match_here pat []) as [[ws' r']|] eqn:E; [|discriminate].
    injection H as <- <- <-. now apply sub_match.
  - cbn [search] in H.
    destruct (match_here pat (c :: s)) as [[ws' r']|] eqn:E.
    + injection H as <- <- <-. now apply sub_match.
    + destruct (search pat s) as [[[pre' ws'] r']|] eqn:E2; [|discriminate].
      injection H as <- <- <-. rewrite sub_cons_none by exact E.
      cbn [app]. f_equal. now apply IH.
Qed.

(** no match starts in [x]: the replacement goes through [x] *)
Lemma sub_through pat f x y :
  (forall x1 x2, x = x1 ++ x2 -> x2 <> [] -> match_here pat (x2 ++ y) = None) ->
  sub pat f (x ++ y) = x ++ sub pat f y.
Proof.
  induction x as [|c x IH]; intros H; [reflexivity|].
  cbn [app]. rewrite sub_cons_none.
  - f_equal. apply IH. intros x1 x2 -> Hne. apply (H (c :: x1)); auto.
  - apply (H [] (c :: x)); [reflexivity|discriminate].
Qed.

(** a pattern whose first item is one character outside the text *)
Lemma search_first_char (P : A -> bool) pat s :
  Forall (fun c => P c = false) s -> search ((One, P) :: pat) s = None.
Proof.
  induction 1 as [|c s Hc Hs IH]; [reflexivity|].
  apply search_cons_none. split; [|exact IH]. cbn. now rewrite Hc.
Qed.

Lemma matches_nonempty (P : A -> bool) pat m :
  matches ((One, P) :: pat) m -> m <> [].
Proof.
  intros (ws & H & <-). inversion H as [|a w ? ws' [Hw Hl] H']; subst.
  cbn in Hl. destruct w; [discriminate|]. discriminate.
Qed.

(** characters that no item tells apart can be exchanged *)
Lemma fits_respects (R : A -> A -> Prop) (a : atom A) w w' :
  (forall x y, R x y -> snd a x = true -> snd a y = true) ->
  Forall2 R w w' -> fits a w -> fits a w'.
Proof.
  intros Ha HR [Hw Hl]. split.
  - clear Hl. induction HR as [|x y w w' Hxy HR IH]; [constructor|].
    inversion Hw; subst. constructor; [|auto]. eapply Ha; eauto.
  - now rewrite <- (Forall2_length _ _ _ HR).
Qed.

Lemma matches_respects (R : A -> A -> Prop) pat m m' :
  Forall (fun a => forall x y, R x y -> snd a x = true -> snd a y = true) pat ->
  Forall2 R m m' -> matches pat m -> matches pat m'.
Proof.
  intros Hp HR (ws & H & <-). revert m' HR.
  induction H as [|a w pat ws Hw H IH]; intros m' HR.
  - cbn in HR. inversion HR; subst. apply matches_nil.
  - inversion Hp as [|? ? Ha Hp']; subst. cbn [concat] in HR.
    apply Forall2_app_inv_l in HR as (w' & m2 & HR1 & HR2 & ->).
    destruct (IH Hp' _ HR2) as (ws' & H' & <-).
    exists (w' :: ws'). split; [|reflexivity].
    constructor; [|exact H']. eapply fits_respects; eauto.
Qed.

Lemma search_none_respects (R : A -> A -> Prop) pat s s' :
  Forall (fun a => forall x y, R x y -> snd a x = true -> snd a y = true) pat ->
  Forall2 R s' s -> search pat s = None -> search pat s' = None.
Proof.
  intros Hp HR Hs. destruct (search pat s') as [x|] eqn:E; [exfalso|reflexivity].
  assert (H : is_Some (search pat s')) by (rewrite E; eauto).
  apply search_iff_matches in H as (p & m & q & -> & Hm).
  apply Forall2_app_inv_l in HR as (p' & r' & _ & HR & ->).
  apply Forall2_app_inv_l in HR as (m' & q' & HR & _ & ->).
  assert (H : is_Some (search pat (p' ++ m' ++ q'))).
  { apply search_iff_matches. exists p', m', q'. split; [reflexivity|].
    eapply matches_respects; eauto. }
  rewrite Hs in H. now destruct H.
Qed.

(** induction along the scan of [re.sub], for a pattern without empty
    matches *)
Lemma sub_scan_ind pat f (P : list A -> list A -> Prop) :
  (forall s ws r, match_here pat s = Some (ws, r) -> concat ws <> []) ->
  P [] [] ->
  (forall c s, match_here pat (c :: s) = None -> P s (sub pat f s) ->
               P (c :: s) (c :: sub pat f s)) ->
  (forall s ws r, match_here pat s = Some (ws, r) -> P r (sub pat f r) ->
                  P s (f ws ++ sub pat f r)) ->
  forall s, P s (sub pat f s).
Proof.
  intros Hne Hnil Hnone Hsome s.
  remember (length s) as n eqn:En. revert s En.
  induction n as [n IH] using lt_wf_ind. intros s En.
  destruct (match_here pat s) as [[ws r]|] eqn:E.
  - rewrite (sub_match _ _ _ _ _ E (Hne _ _ _ E)). apply Hsome; [exact E|].
    apply (IH (length r)); [|reflexivity].
    destruct (match_here_sound _ _ _ _ E) as [-> _].
    pose proof (Hne _ _ _ E) as Hw. subst n. rewrite length_app.
    destruct (concat ws); [congruence|]. cbn [length]. lia.
  - destruct s as [|c s].
    + unfold sub. cbn. rewrite E. exact Hnil.
    + rewrite (sub_cons_none _ _ _ _ E). apply Hnone; [exact E|].
      apply (IH (length s)); [subst n; cbn; lia|reflexivity].
Qed.

End Sub.
End SubFacts.

(** ** [ensure_meta_utf8] *)

Module MetaProps.
Import PyFacts ReFacts LangFacts HintProps SubFacts Utf8Facts MetaFacts.

Lemma lit_u_code c n :
  lit_u c n = true ->
  fold_ascii n = fold_ascii (code c) \/
  (n = 304 \/ n = 305 \/ n = 383 \/ n = 8490)%N.
Proof.
  unfold lit_u, lit_b. intros H. apply orb_true_iff in H as [H|H].
  - left. now apply N.eqb_eq.
  - right. destruct (fold_ascii (code c)) as [|p]; [discriminate|].
    repeat (destruct p as [p|p|]; try discriminate);
      bool_to_prop; lia.
Qed.

Lemma fold_ascii_small n : (n < 128)%N -> (fold_ascii n < 128)%N.
Proof.
  unfold fold_ascii. intros H.
  destruct ((65 <=? n) && (n <=? 90))%N eqn:E; [|exact H].
  bool_to_prop. lia.
Qed.

Lemma fold_ascii_eq n k :
  fold_ascii n = k -> n = k \/ ((65 <= n <= 90)%N /\ k = (n + 32)%N).
Proof.
  unfold fold_ascii. destruct ((65 <=? n) && (n <=? 90))%N eqn:E; [|auto].
  bool_to_prop. intros <-. right. lia.
Qed.

(** a literal that is not [>] matches no [>] *)
Lemma lit_u_not_gt c n :
  fold_ascii (code c) <> 62%N -> lit_u c n = true -> not_gt n = true.
Proof.
  intros Hc H. unfold not_gt. apply negb_true_iff, N.eqb_neq. intros ->.
  apply lit_u_code in H as [H|H]; [|lia].
  change (fold_ascii 62) with 62%N in H. congruence.
Qed.

Lemma lit_u_not_lt c n :
  fold_ascii (code c) <> 60%N -> lit_u c n = true -> not_lt_char n = true.
Proof.
  intros Hc H. unfold not_lt_char. apply negb_true_iff, N.eqb_neq. intros ->.
  apply lit_u_code in H as [H|H]; [|lia].
  change (fold_ascii 60) with 60%N in H. congruence.
Qed.

Lemma lit_u_lt n : lit_u "<" n = true -> n = 60%N.
Proof.
  unfold lit_u, lit_b. change (fold_ascii (code "<")) with 60%N.
  cbv iota. rewrite orb_false_r, N.eqb_eq. intros H.
  apply fold_ascii_eq in H as [H|H]; lia.
Qed.

Lemma ws_u_not_gt n : ws_u n = true -> not_gt n = true.
Proof. unfold ws_u, not_gt. intros H. bool_to_prop. lia. Qed.

Lemma ws_u_not_lt n : ws_u n = true -> not_lt_char n = true.
Proof. unfold ws_u, not_lt_char. intros H. bool_to_prop. lia. Qed.

Lemma quote_not_lt n : quote n = true -> not_lt_char n = true.
Proof. unfold quote, not_lt_char. intros H. bool_to_prop. lia. Qed.

Lemma exactly_not_lt c n : code c <> 60%N -> exactly c n = true -> not_lt_char n = true.
Proof. unfold exactly, not_lt_char. intros Hc H. bool_to_prop. lia. Qed.

Lemma name_u_not_gt n : name_u n = true -> not_gt n = true.
Proof. unfold name_u, name_b, not_gt. intros H. bool_to_prop. lia. Qed.

Lemma name_u_not_lt n : name_u n = true -> not_lt_char n = true.
Proof. unfold name_u, name_b, not_lt_char. intros H. bool_to_prop. lia. Qed.

Ltac class_in :=
  repeat constructor; cbn [snd]; intros n;
  first [ apply ws_u_not_gt | apply quote_not_gt | apply name_u_not_gt
        | apply exactly_not_gt; vm_compute; discriminate
        | apply lit_u_not_gt; vm_compute; discriminate
        | apply ws_u_not_lt | apply quote_not_lt | apply name_u_not_lt
        | apply exactly_not_lt; vm_compute; discriminate
        | apply lit_u_not_lt; vm_compute; discriminate
        | trivial ].

Lemma meta_charset_re_parts :
  meta_charset_re =
  meta_open ++ [(Star, not_gt)] ++ (charset_eq_u ++ [(Opt, quote)]) ++
  [(Plus, name_u)] ++ [(Star, not_gt)] ++ [(One, exactly ">")].
Proof. reflexivity. Qed.

Lemma http_equiv_re_parts :
  http_equiv_re =
  meta_open ++ http_equiv_middle_u ++ charset_eq_u ++ [(Plus, name_u)] ++
  [(One, quote); (Star, ws_u)] ++ [(One, exactly ">")].
Proof. reflexivity. Qed.

Lemma http_equiv_middle_u_not_gt : Forall (within not_gt) http_equiv_middle_u.
Proof. unfold within. class_in. Qed.

Lemma http_tail_not_gt : Forall (within not_gt) [(One, quote); (Star, ws_u)].
Proof. unfold within. class_in. Qed.

(** whatever [http_equiv_re] matches, [meta_charset_re] matches too *)
Lemma http_equiv_re_matches_meta m :
  matches http_equiv_re m -> matches meta_charset_re m.
Proof.
  rewrite http_equiv_re_parts, meta_charset_re_parts. intros H.
  apply matches_app_inv in H as (a & r1 & -> & Ha & H).
  apply matches_app_inv in H as (b & r2 & -> & Hb & H).
  apply matches_app_inv in H as (c & r3 & -> & Hc & H).
  apply matches_app_inv in H as (d & r4 & -> & Hd & H).
  apply matches_app_inv in H as (e & f & -> & He & Hf).
  apply matches_app; [exact Ha|].
  apply matches_app.
  { apply matches_star. eapply matches_within; [|exact Hb].
    apply http_equiv_middle_u_not_gt. }
  replace c with (c ++ []) by now rewrite app_nil_r.
  apply matches_app.
  { apply matches_app; [exact Hc|]. apply matches_opt_nil. }
  apply matches_app; [exact Hd|].
  apply matches_app; [|exact Hf].
  apply matches_star. eapply matches_within; [|exact He].
  apply http_tail_not_gt.
Qed.

Lemma lit_u_lt_false n : n <> 60%N -> lit_u "<" n = false.
Proof.
  intros Hn. destruct (lit_u "<" n) eqn:E; [|reflexivity].
  now apply lit_u_lt in E.
Qed.

Lemma no_lt_no_match (pat : pattern N) t :
  Forall (fun c => c <> 60%N) t -> search ((One, lit_u "<") :: pat) t = None.
Proof.
  intros H. apply search_first_char.
  eapply Forall_impl; [exact H|]. intros c. apply lit_u_lt_false.
Qed.

(** X10.  A text without the character [<] comes back from
    [ensure_meta_utf8] as it went in, markup or not. *)
Theorem text_without_tags_unchanged (t : text) (is_html : bool) :
  Forall (fun c => c <> 60%N) t -> ensure_meta_utf8 t is_html = t.
Proof.
  intros H. unfold ensure_meta_utf8. destruct is_html; [|reflexivity].
  cbn [negb].
  assert (H1 : sub meta_charset_re (fun _ => META_UTF8) t = t).
  { apply sub_no_match. now apply no_lt_no_match. }
  rewrite H1.
  assert (H2 : sub http_equiv_re (fun _ => META_UTF8) t = t).
  { apply sub_no_match. now apply no_lt_no_match. }
  rewrite H2.
  assert (H3 : search utf8_meta_re t = None) by now apply no_lt_no_match.
  rewrite H3. apply sub1_no_match. now apply no_lt_no_match.
Qed.

Lemma text_without_tags_unchanged_witness :
  Forall (fun c => c <> 60%N) (t_ "body { color: red }") /\
  ensure_meta_utf8 (t_ "body { color: red }") true = t_ "body { color: red }".
Proof.
  assert (H : Forall (fun c => c <> 60%N) (t_ "body { color: red }"))
    by (repeat constructor; discriminate).
  split; [exact H|]. exact (text_without_tags_unchanged _ true H).
Defined.

(** *** What the first replacement leaves behind *)

Local Abbreviation replace_meta := (sub meta_charset_re (fun _ => META_UTF8)).

Lemma meta_charset_re_core :
  meta_charset_re =
  meta_open ++ [(Star, not_gt)] ++ charset_core ++ [(Star, not_gt)] ++
  [(One, exactly ">")].
Proof. reflexivity. Qed.

Lemma matches_star_inv {A} (P : A -> bool) (s : list A) :
  matches [(Star, P)] s -> Forall (fun c => P c = true) s.
Proof.
  intros H. eapply (matches_within P); [|exact H].
  repeat constructor. intros c Hc. exact Hc.
Qed.

Lemma matches_gt s : matches [(One, exactly ">")] s -> s = [62%N].
Proof.
  intros (ws & H & <-). inversion H as [|a w ? ws' [Hw Hl] H']; subst.
  inversion H'; subst. cbn in Hl, Hw |- *.
  destruct w as [|c [|? ?]]; try discriminate.
  inversion Hw as [|? ? Hc _]; subst. apply N.eqb_eq in Hc. now subst.
Qed.

Lemma matches_gt_intro : matches [(One, exactly ">")] [62%N].
Proof.
  exists [[62%N]]. split; [|reflexivity]. repeat constructor.
Qed.

Lemma meta_open_shape a :
  matches meta_open a ->
  exists a', a = 60%N :: a' /\ Forall (fun c => not_lt_char c = true) a' /\
             Forall (fun c => not_gt c = true) a.
Proof.
  intros H.
  assert (Hgt : Forall (fun c => not_gt c = true) a).
  { eapply (matches_within not_gt); [|exact H]. unfold within. class_in. }
  change meta_open with ([(One, lit_u "<")] ++ lits lit_u "meta") in H.
  apply matches_app_inv in H as (x & a' & -> & Hx & Ha).
  exists a'. split; [|split; [|exact Hgt]].
  - destruct (matches_first_char _ _ _ Hx) as (c & m' & -> & Hc).
    destruct Hx as (ws & Hx & E). inversion Hx as [|? w ? ? [_ Hl] Hx']; subst.
    inversion Hx'; subst. cbn in E, Hl. rewrite app_nil_r in E. subst w.
    destruct m'; [|discriminate]. apply lit_u_lt in Hc. now subst.
  - eapply (matches_within not_lt_char); [|exact Ha]. unfold within. class_in.
Qed.

Lemma charset_core_shape k :
  matches charset_core k -> Forall (fun c => not_gt c = true) k.
Proof.
  intros H. eapply (matches_within not_gt); [|exact H]. unfold within. class_in.
Qed.

Lemma meta_match_inv m :
  matches meta_charset_re m ->
  exists a b k e, m = a ++ b ++ k ++ e ++ [62%N] /\ matches meta_open a /\
                  Forall (fun c => not_gt c = true) b /\
                  matches charset_core k /\
                  Forall (fun c => not_gt c = true) e.
Proof.
  rewrite meta_charset_re_core. intros H.
  apply matches_app_inv in H as (a & r1 & -> & Ha & H).
  apply matches_app_inv in H as (b & r2 & -> & Hb & H).
  apply matches_app_inv in H as (k & r3 & -> & Hk & H).
  apply matches_app_inv in H as (e & g & -> & He & Hg).
  apply matches_gt in Hg as ->. apply matches_star_inv in Hb, He.
  exists a, b, k, e. auto.
Qed.

Lemma meta_match_intro a b k e :
  matches meta_open a -> Forall (fun c => not_gt c = true) b ->
  matches charset_core k -> Forall (fun c => not_gt c = true) e ->
  matches meta_charset_re (a ++ b ++ k ++ e ++ [62%N]).
Proof.
  intros Ha Hb Hk He. rewrite meta_charset_re_core.
  repeat apply matches_app; auto using matches_star, matches_gt_intro.
Qed.

(** a match of [meta_charset_re] ends at its only [>] *)
Lemma meta_match_init m :
  matches meta_charset_re m ->
  exists i, m = i ++ [62%N] /\ Forall (fun c => not_gt c = true) i.
Proof.
  intros H. apply meta_match_inv in H as (a & b & k & e & -> & Ha & Hb & Hk & He).
  exists (a ++ b ++ k ++ e). rewrite <- !app_assoc. split; [reflexivity|].
  destruct (meta_open_shape _ Ha) as (_ & _ & _ & Hgt).
  repeat (apply Forall_app; split); auto using charset_core_shape.
Qed.

Lemma meta_match_nonempty s ws r :
  match_here meta_charset_re s = Some (ws, r) -> concat ws <> [].
Proof.
  intros H. apply matches_of_match_here in H as [H _].
  apply meta_match_init in H as (i & -> & _). now destruct i.
Qed.

Lemma first_gt_unique (i i' r r' : list N) :
  i ++ 62%N :: r = i' ++ 62%N :: r' ->
  Forall (fun c => not_gt c = true) i -> Forall (fun c => not_gt c = true) i' ->
  i = i' /\ r = r'.
Proof.
  intros E Hi. revert i' E. induction Hi as [|c i Hc Hi IH]; intros i' E Hi'.
  - destruct Hi' as [|c' i' Hc' Hi']; cbn in E.
    + injection E as ->. auto.
    + injection E as <- _. discriminate.
  - destruct Hi' as [|c' i' Hc' Hi']; cbn in E.
    + injection E as -> _. discriminate.
    + injection E as -> E. destruct (IH _ E Hi') as [-> ->]. auto.
Qed.

Lemma meta_utf8_pieces_fit : Forall2 fits meta_charset_re meta_utf8_pieces.
Proof.
  cbv.
  repeat (constructor; [split; [repeat constructor|lia]|]).
  constructor.
Qed.

(** at the canonical tag the pattern matches the tag and no more *)
Lemma match_at_tag x :
  exists ws, match_here meta_charset_re (META_UTF8 ++ x) = Some (ws, x).
Proof.
  destruct (match_here_complete meta_charset_re meta_utf8_pieces x
              meta_utf8_pieces_fit) as [[ws r] H].
  change (concat meta_utf8_pieces ++ x) with (META_UTF8 ++ x) in H.
  exists ws. rewrite H. do 2 f_equal.
  destruct (matches_of_match_here _ _ _ _ H) as [Hm E].
  apply meta_match_init in Hm as (i & Hi & Hgt). rewrite Hi in E.
  change (META_UTF8 ++ x)
    with (t_ ("<meta charset=" +:+ dq +:+ "utf-8" +:+ dq) ++ 62%N :: x) in E.
  rewrite <- app_assoc in E. cbn [app] in E.
  apply first_gt_unique in E as [_ E]; [now symmetry|repeat constructor|exact Hgt].
Qed.

Lemma replace_meta_tag x :
  replace_meta (META_UTF8 ++ x) = META_UTF8 ++ replace_meta x.
Proof.
  destruct (match_at_tag x) as [ws H].
  now rewrite (sub_match _ _ _ _ _ H (meta_match_nonempty _ _ _ H)).
Qed.

(** what comes before the first [<] of the result was there before *)
Lemma replace_meta_prefix m r t :
  Forall (fun c => not_lt_char c = true) m -> replace_meta t = m ++ r ->
  exists r', t = m ++ r'.
Proof.
  intros Hm. revert t r. induction Hm as [|c m Hc Hm IH]; intros t r E.
  - now exists t.
  - destruct t as [|d t]; [discriminate|].
    destruct (match_here meta_charset_re (d :: t)) as [[ws r2]|] eqn:E2.
    + rewrite (sub_match _ _ _ _ _ E2 (meta_match_nonempty _ _ _ E2)) in E.
      injection E as <- _. discriminate.
    + rewrite (sub_cons_none _ _ _ _ E2) in E. injection E as -> E.
      destruct (IH _ _ E) as [r' ->]. now exists r'.
Qed.

Lemma http_equiv_shape m :
  matches http_equiv_re m ->
  exists m', m = 60%N :: m' /\ Forall (fun c => not_lt_char c = true) m'.
Proof.
  intros H.
  change http_equiv_re
    with ([(One, lit_u "<")] ++ List.tl http_equiv_re) in H.
  apply matches_app_inv in H as (x & m' & -> & Hx & Hm).
  exists m'. split.
  - destruct (matches_first_char _ _ _ Hx) as (c & y & -> & Hc).
    destruct Hx as (ws & Hx & E). inversion Hx as [|? w ? ? [_ Hl] Hx']; subst.
    inversion Hx'; subst. cbn in E, Hl. rewrite app_nil_r in E. subst w.
    destruct y; [|discriminate]. apply lit_u_lt in Hc. now subst.
  - eapply (matches_within not_lt_char); [|exact Hm]. unfold within.
    cbv [List.tl http_equiv_re lits list_ascii_of_string map app]. class_in.
Qed.

Lemma search_tag_none (pat : pattern N) x :
  match_here pat (META_UTF8 ++ x) = None ->
  (forall c y, c <> 60%N -> match_here pat (c :: y) = None) ->
  search pat x = None -> search pat (META_UTF8 ++ x) = None.
Proof.
  intros H0 Hc Hx. apply search_cons_none. split; [exact H0|].
  repeat (apply search_cons_none; split; [apply Hc; discriminate|]).
  exact Hx.
Qed.

(** the second replacement finds nothing to replace *)
Lemma http_equiv_re_after_meta t : search http_equiv_re (replace_meta t) = None.
Proof.
  apply (sub_scan_ind meta_charset_re (fun _ => META_UTF8)
           (fun _ out => search http_equiv_re out = None)).
  - apply meta_match_nonempty.
  - reflexivity.
  - intros c s Hnone IH. apply search_cons_none. split; [|exact IH].
    destruct (match_here http_equiv_re (c :: replace_meta s))
      as [[ws r]|] eqn:E; [exfalso|reflexivity].
    apply matches_of_match_here in E as [Hm E].
    destruct (http_equiv_shape _ Hm) as (m' & Em & Hm').
    rewrite Em in E. injection E as -> E.
    destruct (replace_meta_prefix _ _ _ Hm' E) as [r' ->].
    apply http_equiv_re_matches_meta in Hm. rewrite Em in Hm.
    destruct (match_here_of_matches _ _ r' Hm) as [x Hx].
    cbn [app] in Hx. congruence.
  - intros s ws r _ IH. apply search_tag_none; [reflexivity| |exact IH].
    intros c y Hc. cbn. now rewrite (lit_u_lt_false _ Hc).
Qed.

Lemma ensure_meta_utf8_markup t :
  ensure_meta_utf8 t true =
  match search utf8_meta_re (replace_meta t) with
  | Some _ => replace_meta t
  | None => sub1 head_re head_repl (replace_meta t)
  end.
Proof.
  unfold ensure_meta_utf8. cbn [negb].
  rewrite (sub_no_match http_equiv_re _ _ (http_equiv_re_after_meta t)).
  now destruct (search utf8_meta_re (replace_meta t)).
Qed.

(** X11.  The second replacement of [ensure_meta_utf8] never applies:
    after the first one nothing is left that [http_equiv_re] matches, so
    the function is the first replacement followed by the insertion
    behind the head tag when no UTF-8 declaration is found. *)
Theorem second_replacement_never_applies (t : text) :
  search http_equiv_re (sub meta_charset_re (fun _ => META_UTF8) t) = None /\
  ensure_meta_utf8 t true =
  match search utf8_meta_re (sub meta_charset_re (fun _ => META_UTF8) t) with
  | Some _ => sub meta_charset_re (fun _ => META_UTF8) t
  | None => sub1 head_re head_repl (sub meta_charset_re (fun _ => META_UTF8) t)
  end.
Proof.
  split; [apply http_equiv_re_after_meta|apply ensure_meta_utf8_markup].
Qed.

Lemma replace_meta_first t pre ws r :
  search meta_charset_re t = Some (pre, ws, r) ->
  replace_meta t = pre ++ META_UTF8 ++ replace_meta r.
Proof.
  intros H. apply (sub_first meta_charset_re (fun _ => META_UTF8) _ _ _ _ H).
  apply search_sound in H as [_ H]. eapply meta_match_nonempty; exact H.
Qed.

Lemma ensure_meta_utf8_replaced t :
  is_Some (search meta_charset_re t) -> ensure_meta_utf8 t true = replace_meta t.
Proof.
  intros [[[pre ws] r] H]. rewrite ensure_meta_utf8_markup.
  rewrite (replace_meta_first _ _ _ _ H).
  destruct (search_utf8_meta pre (replace_meta r)) as [x ->]. reflexivity.
Qed.

(** X12.  When the text holds a charset declaration, the result is the
    text with every declaration replaced by the canonical tag, the head
    tag is left alone, and the result holds the canonical tag where the
    first declaration was. *)
Theorem declaration_replaced_head_untouched (t pre r : text) ws :
  search meta_charset_re t = Some (pre, ws, r) ->
  ensure_meta_utf8 t true = sub meta_charset_re (fun _ => META_UTF8) t /\
  ensure_meta_utf8 t true =
    pre ++ META_UTF8 ++ sub meta_charset_re (fun _ => META_UTF8) r.
Proof.
  intros H. rewrite ensure_meta_utf8_replaced by (rewrite H; eauto).
  split; [reflexivity|]. exact (replace_meta_first _ _ _ _ H).
Qed.

Lemma declaration_replaced_head_untouched_witness :
  search meta_charset_re (t_ "<p><meta charset=x></p>") =
    Some (t_ "<p>",
          map (fun c => [c]) (t_ "<meta") ++ [t_ " "] ++
          map (fun c => [c]) (t_ "charset") ++ [[]; t_ "="; []; []; t_ "x"; []; t_ ">"],
          t_ "</p>") /\
  ensure_meta_utf8 (t_ "<p><meta charset=x></p>") true =
    t_ "<p>" ++ META_UTF8 ++ sub meta_charset_re (fun _ => META_UTF8) (t_ "</p>").
Proof.
  assert (H : search meta_charset_re (t_ "<p><meta charset=x></p>") =
    Some (t_ "<p>",
          map (fun c => [c]) (t_ "<meta") ++ [t_ " "] ++
          map (fun c => [c]) (t_ "charset") ++ [[]; t_ "="; []; []; t_ "x"; []; t_ ">"],
          t_ "</p>")) by (vm_compute; reflexivity).
  split; [exact H|].
  exact (proj2 (declaration_replaced_head_untouched _ _ _ _ H)).
Defined.

(** *** The first replacement, done twice *)

Lemma app_eq_cases {X} (x y x' y' : list X) :
  x ++ y = x' ++ y' ->
  (exists l, x = x' ++ l /\ y' = l ++ y) \/
  (exists c l, x' = x ++ c :: l /\ y = c :: l ++ y').
Proof.
  revert x'. induction x as [|a x IH]; intros x' E.
  - destruct x' as [|c l].
    + left. exists []. cbn in *. auto.
    + right. exists c, l. cbn in *. auto.
  - destruct x' as [|c l]; cbn in E.
    + left. exists (a :: x). cbn. auto.
    + injection E as -> E. destruct (IH _ E) as [(k & -> & ->)|(d & k & -> & ->)].
      * left. exists k. auto.
      * right. exists d, k. auto.
Qed.

Lemma not_lt_char_60 : not_lt_char 60 = false.
Proof. reflexivity. Qed.

Lemma not_gt_62 : not_gt 62 = false.
Proof. reflexivity. Qed.

(** a match that runs from the text [cu] into a [<] behind it opens in
    [cu], which then holds no [>] *)
Lemma match_across cu l m :
  matches meta_charset_re m -> m = cu ++ 60%N :: l -> cu <> [] ->
  exists a u', cu = a ++ u' /\ matches meta_open a /\
               Forall (fun c => not_gt c = true) u'.
Proof.
  intros Hm E Hne.
  destruct (meta_match_init _ Hm) as (i & Ei & Hi).
  apply meta_match_inv in Hm as (a & b & k & e & Em & Ha & Hb & Hk & He).
  destruct (meta_open_shape _ Ha) as (a' & Ea & Hlt & Hgt).
  (* [cu] holds no [>] *)
  assert (Hcu : Forall (fun c => not_gt c = true) cu).
  { rewrite Ei in E.
    destruct (app_eq_cases _ _ _ _ E) as [(l1 & -> & E1)|(c & l1 & -> & E1)].
    - now apply Forall_app in Hi as [Hi _].
    - exfalso. destruct l1; cbn in E1; [|destruct l1; discriminate].
      injection E1 as E1. discriminate. }
  (* the opening is inside [cu] *)
  rewrite Em in E.
  destruct (app_eq_cases _ _ _ _ E) as [(l1 & El & E1)|(c & l1 & -> & E1)].
  - destruct l1 as [|d l1].
    + exists a, []. rewrite app_nil_r in El. subst cu. rewrite app_nil_r.
      split; [reflexivity|]. split; [exact Ha|constructor].
    + exfalso. cbn in E1. injection E1 as <- _.
      destruct cu as [|c cu]; [congruence|].
      rewrite Ea in El. cbn in El. injection El as _ El. subst a'.
      apply Forall_app in Hlt as [_ Hlt]. inversion Hlt. discriminate.
  - exists a, (c :: l1). split; [reflexivity|]. split; [exact Ha|].
    now apply Forall_app in Hcu as [_ Hcu].
Qed.

(** replacing the declarations behind a text opens no match in it *)
Lemma no_new_match c t :
  match_here meta_charset_re (c :: t) = None ->
  match_here meta_charset_re (c :: replace_meta t) = None.
Proof.
  intros Hnone.
  destruct (search meta_charset_re t) as [[[u ws1] t2]|] eqn:E;
    [|now rewrite (sub_no_match _ _ _ E)].
  rewrite (replace_meta_first _ _ _ _ E).
  apply search_sound in E as [-> E].
  apply matches_of_match_here in E as [HM1 _].
  destruct (match_here meta_charset_re (c :: u ++ META_UTF8 ++ replace_meta t2))
    as [[ws r]|] eqn:E2; [exfalso|reflexivity].
  apply matches_of_match_here in E2 as [Hm E2].
  change (c :: u ++ META_UTF8 ++ replace_meta t2)
    with ((c :: u) ++ 60%N :: List.tl META_UTF8 ++ replace_meta t2) in E2.
  symmetry in E2.
  destruct (app_eq_cases _ _ _ _ E2) as [(l1 & El & E1)|(d & l1 & El & E1)].
  - (* the match runs into the tag *)
    destruct l1 as [|d l1].
    { rewrite app_nil_r in El.
      destruct (match_here_of_matches _ _ (concat ws1 ++ t2) Hm) as [x Hx].
      rewrite El in Hx. cbn [app] in Hx. congruence. }
    cbn in E1. injection E1 as <- E1.
    destruct (match_across (c :: u) l1 _ Hm El) as (a & u' & Ecu & Ha & Hu');
      [discriminate|].
    apply meta_match_inv in HM1
      as (a1 & b1 & k1 & e1 & EM1 & Ha1 & Hb1 & Hk1 & He1).
    destruct (meta_open_shape _ Ha1) as (_ & _ & _ & Hgt1).
    assert (Hnew : matches meta_charset_re
                     (a ++ (u' ++ a1 ++ b1) ++ k1 ++ e1 ++ [62%N])).
    { apply meta_match_intro; auto.
      repeat (apply Forall_app; split); auto. }
    destruct (match_here_of_matches _ _ t2 Hnew) as [x Hx].
    replace ((a ++ (u' ++ a1 ++ b1) ++ k1 ++ e1 ++ [62%N]) ++ t2)
      with (c :: u ++ concat ws1 ++ t2) in Hx; [congruence|].
    rewrite EM1. change (c :: u ++ ?z) with ((c :: u) ++ z). rewrite Ecu.
    now rewrite <- !app_assoc.
  - (* the match ends before the tag *)
    destruct (match_here_of_matches _ _ (d :: l1 ++ concat ws1 ++ t2) Hm)
      as [x Hx].
    replace (concat ws ++ d :: l1 ++ concat ws1 ++ t2)
      with (c :: u ++ concat ws1 ++ t2) in Hx; [congruence|].
    change (c :: u ++ ?z) with ((c :: u) ++ z). rewrite El.
    now rewrite <- !app_assoc.
Qed.

Lemma replace_meta_twice t : replace_meta (replace_meta t) = replace_meta t.
Proof.
  apply (sub_scan_ind meta_charset_re (fun _ => META_UTF8)
           (fun _ out => replace_meta out = out)).
  - apply meta_match_nonempty.
  - reflexivity.
  - intros c s Hnone IH.
    rewrite (sub_cons_none _ _ _ _ (no_new_match _ _ Hnone)). now rewrite IH.
  - intros s ws r _ IH. rewrite replace_meta_tag. now rewrite IH.
Qed.

(** *** The function, done twice *)

Lemma same_fold_cases x y :
  same_fold x y ->
  x = y \/ ((65 <= x <= 90)%N /\ y = (x + 32)%N)
  \/ ((65 <= y <= 90)%N /\ x = (y + 32)%N).
Proof.
  unfold same_fold, fold_ascii.
  destruct ((65 <=? x) && (x <=? 90))%N eqn:Ex;
    destruct ((65 <=? y) && (y <=? 90))%N eqn:Ey; intros E; bool_to_prop; lia.
Qed.

Lemma same_fold_sym x y : same_fold x y -> same_fold y x.
Proof. unfold same_fold. congruence. Qed.

Lemma lit_u_same_fold c x y :
  same_fold x y -> lit_u c x = true -> lit_u c y = true.
Proof.
  intros Hxy H. pose proof (lit_u_code _ _ H) as [Hc|Hc].
  - unfold lit_u, lit_b. apply orb_true_iff. left. apply N.eqb_eq.
    unfold same_fold in Hxy. congruence.
  - apply same_fold_cases in Hxy as [->|Hxy]; [exact H|lia].
Qed.

Lemma not_gt_same_fold x y : same_fold x y -> not_gt x = true -> not_gt y = true.
Proof.
  intros Hxy. apply same_fold_cases in Hxy. unfold not_gt. intros H.
  bool_to_prop. lia.
Qed.

Lemma ws_u_same_fold x y : same_fold x y -> ws_u x = true -> ws_u y = true.
Proof.
  intros Hxy H. apply same_fold_cases in Hxy as [->|Hxy]; [exact H|].
  exfalso. unfold ws_u in H. bool_to_prop. lia.
Qed.

Lemma quote_same_fold x y : same_fold x y -> quote x = true -> quote y = true.
Proof.
  intros Hxy H. apply same_fold_cases in Hxy as [->|Hxy]; [exact H|].
  exfalso. unfold quote in H. bool_to_prop. lia.
Qed.

Lemma exactly_same_fold c x y :
  (code c < 65)%N -> same_fold x y -> exactly c x = true -> exactly c y = true.
Proof.
  intros Hc Hxy H. apply same_fold_cases in Hxy as [->|Hxy]; [exact H|].
  exfalso. unfold exactly in H. bool_to_prop. lia.
Qed.

Lemma name_u_same_fold x y : same_fold x y -> name_u x = true -> name_u y = true.
Proof.
  intros Hxy H. apply same_fold_cases in Hxy as [->|Hxy]; [exact H|].
  unfold name_u, name_b in *. bool_to_prop. lia.
Qed.

Lemma meta_charset_re_same_fold :
  Forall (fun a : atom N =>
            forall x y, same_fold x y -> snd a x = true -> snd a y = true)
         meta_charset_re.
Proof.
  repeat constructor; cbn [snd]; intros x y;
    first [ apply lit_u_same_fold | apply not_gt_same_fold
          | apply ws_u_same_fold | apply quote_same_fold
          | apply name_u_same_fold
          | apply exactly_same_fold; vm_compute; reflexivity ].
Qed.

Lemma lit_u_plain c n :
  match fold_ascii (code c) with
  | 105 | 115 | 107 => false
  | _ => true
  end%N = true ->
  lit_u c n = true -> same_fold (code c) n.
Proof.
  unfold lit_u, lit_b, same_fold. intros Hc H.
  apply orb_true_iff in H as [H|H]; [symmetry; now apply N.eqb_eq|].
  destruct (fold_ascii (code c)) as [|p]; [discriminate|].
  repeat (destruct p as [p|p|]; try discriminate).
Qed.

Lemma same_fold_refl l : Forall2 same_fold l l.
Proof. induction l; constructor; [reflexivity|assumption]. Qed.

Lemma fits_one {A} (P : A -> bool) w :
  fits (One, P) w -> exists c, w = [c] /\ P c = true.
Proof.
  intros [Hw Hl]. cbn in Hw, Hl. destruct w as [|c [|? ?]]; try discriminate.
  inversion Hw; subst. eauto.
Qed.

(** a match of the head pattern: the tag name in any case, the
    attributes, and [>] *)
Lemma head_match_shape ws :
  Forall2 fits head_re ws ->
  exists h, concat ws = h ++ piece head_group ws ++ [62%N] /\
            Forall2 same_fold (t_ "<head") h /\
            Forall (fun c => not_gt c = true) (piece head_group ws).
Proof.
  intros H. cbv [head_re lits list_ascii_of_string map app] in H.
  repeat match type of H with
         | Forall2 _ (_ :: _) _ =>
             let a := fresh "a" in let w := fresh "w" in
             let F := fresh "F" in let H' := fresh "H" in
             inversion H as [|a w ? ? F H']; subst; clear H; rename H' into H
         end.
  inversion H; subst; clear H.
  repeat match goal with
         | F : fits (One, _) _ |- _ =>
             let c := fresh "c" in let E := fresh "E" in
             apply fits_one in F as (c & -> & E)
         end.
  match goal with
  | F : fits (Star, _) ?w |- _ => destruct F as [Hattrs _]; cbn in Hattrs
  end.
  match goal with
  | E : exactly _ ?c = true |- _ =>
      unfold exactly in E; apply N.eqb_eq in E; subst c
  end.
  eexists [_; _; _; _; _]. split; [reflexivity|]. split; [|exact Hattrs].
  repeat (constructor;
          [match goal with
           | E : lit_u ?c ?n = true |- same_fold _ ?n =>
               apply (lit_u_plain c n); [reflexivity|exact E]
           end|]).
  constructor.
Qed.

Lemma snoc_suffix {X} (x1 x2 q : list X) d :
  x1 ++ x2 = q ++ [d] -> x2 <> [] -> exists x2', x2 = x2' ++ [d] /\ q = x1 ++ x2'.
Proof.
  intros E Hne.
  destruct (app_eq_cases _ _ _ _ E) as [(l & -> & E1)|(c & l & -> & E1)].
  - destruct l as [|c l]; cbn in E1.
    + exists []. rewrite !app_nil_r. cbn. split; [now symmetry|reflexivity].
    + exfalso. injection E1 as _ E1. destruct l; cbn in E1; [|discriminate].
      congruence.
  - exists (c :: l). auto.
Qed.

Lemma last_gt (i y z : list N) :
  i ++ [62%N] = y ++ 62%N :: z -> Forall (fun c => not_gt c = true) i -> z = [].
Proof.
  intros E Hi.
  destruct (app_eq_cases _ _ _ _ E) as [(l & -> & E1)|(c & l & -> & E1)].
  - destruct l as [|c l]; cbn in E1; [now injection E1|].
    injection E1 as <- _. apply Forall_app in Hi as [_ Hi].
    inversion Hi as [|? ? Hc _]. discriminate Hc.
  - injection E1 as _ E1. now destruct l.
Qed.

(** behind the inserted tag no declaration starts before the tag *)
Lemma replace_meta_after_insert pre ws post :
  search meta_charset_re (pre ++ concat ws ++ post) = None ->
  Forall2 fits head_re ws ->
  replace_meta (pre ++ head_repl ws ++ post) = pre ++ head_repl ws ++ post.
Proof.
  intros Hn HF. destruct (head_match_shape _ HF) as (h & Ews & Hh & Hattrs).
  set (attrs := piece head_group ws) in *.
  set (Q' := pre ++ t_ "<head" ++ attrs).
  assert (H0 : search meta_charset_re ((Q' ++ [62%N]) ++ post) = None).
  { eapply (search_none_respects same_fold); [|  |exact Hn].
    - apply meta_charset_re_same_fold.
    - unfold Q'. rewrite Ews, <- !app_assoc.
      apply Forall2_app; [apply same_fold_refl|].
      apply Forall2_app; [exact Hh|]. apply same_fold_refl. }
  assert (Er : pre ++ head_repl ws ++ post
               = ((Q' ++ [62%N]) ++ [10%N]) ++ META_UTF8 ++ post).
  { unfold Q', head_repl. fold attrs. rewrite <- !app_assoc. reflexivity. }
  rewrite Er. rewrite sub_through.
  - rewrite replace_meta_tag. rewrite (sub_no_match _ _ post); [reflexivity|].
    eapply search_app_none. exact H0.
  - intros x1 x2 E Hne.
    destruct (snoc_suffix _ _ _ _ (eq_sym E) Hne) as (x2' & -> & EQ).
    destruct x2' as [|c x2]; [reflexivity|].
    destruct (snoc_suffix x1 (c :: x2) _ _ (eq_sym EQ)) as (y & Ey & _);
      [discriminate|].
    destruct (match_here meta_charset_re (((c :: x2) ++ [10%N]) ++ META_UTF8 ++ post))
      as [[ws' rr]|] eqn:E2; [exfalso|reflexivity].
    apply matches_of_match_here in E2 as [Hm E2].
    rewrite <- app_assoc in E2. symmetry in E2.
    rewrite EQ in H0. rewrite <- app_assoc in H0.
    destruct (app_eq_cases _ _ _ _ E2) as [(l & El & E1)|(d & l & El & E1)].
    + destruct l as [|d l].
      * rewrite app_nil_r in El.
        destruct (match_here_of_matches _ _ post Hm) as [x Hx].
        apply search_none in H0. rewrite <- El in H0. congruence.
      * destruct (meta_match_init _ Hm) as (i & Ei & Hi).
        rewrite Ei, Ey, <- app_assoc in El. cbn [app] in El.
        apply last_gt in El; [discriminate|exact Hi].
    + destruct (match_here_of_matches _ _ (d :: l ++ post) Hm) as [x Hx].
      apply search_none in H0. rewrite El, <- app_assoc in H0. cbn [app] in H0.
      congruence.
Qed.

(** X13.  [ensure_meta_utf8] is idempotent: applied to its own result it
    changes nothing, so a second run adds no second declaration. *)
Theorem ensure_meta_utf8_idempotent (t : text) (is_html : bool) :
  ensure_meta_utf8 (ensure_meta_utf8 t is_html) is_html =
  ensure_meta_utf8 t is_html.
Proof.
  destruct is_html; [|reflexivity].
  rewrite (ensure_meta_utf8_markup t).
  destruct (search utf8_meta_re (replace_meta t)) eqn:E.
  - now rewrite ensure_meta_utf8_markup, replace_meta_twice, E.
  - assert (Hn : search meta_charset_re t = None).
    { destruct (search meta_charset_re t) as [[[pre ws] r]|] eqn:E2;
        [|reflexivity].
      rewrite (replace_meta_first _ _ _ _ E2) in E.
      destruct (search_utf8_meta pre (replace_meta r)) as [x Hx]. congruence. }
    rewrite (sub_no_match _ _ _ Hn) in E. rewrite (sub_no_match _ _ _ Hn).
    unfold sub1. destruct (search head_re t) as [[[pre ws] post]|] eqn:E3.
    + apply search_sound in E3 as [-> E3].
      apply match_here_sound in E3 as [_ HF].
      rewrite ensure_meta_utf8_markup.
      rewrite (replace_meta_after_insert _ _ _ Hn HF).
      assert (Hs : is_Some (search utf8_meta_re (pre ++ head_repl ws ++ post))).
      { unfold head_repl.
        replace (pre ++ (t_ "<head" ++ piece head_group ws ++ t_ ">" ++ [10%N]
                         ++ META_UTF8) ++ post)
          with ((pre ++ t_ "<head" ++ piece head_group ws ++ t_ ">" ++ [10%N])
                  ++ META_UTF8 ++ post)
          by now rewrite <- !app_assoc.
        apply search_utf8_meta. }
      destruct Hs as [x ->]. reflexivity.
    + rewrite ensure_meta_utf8_markup, (sub_no_match _ _ _ Hn), E.
      unfold sub1. now rewrite E3.
Qed.

End MetaProps.

(** ** The effectful steps *)

Module RunProps.
Import PyFacts Utf8Facts MetaFacts ResolverProps.
Section Run.

Variable uchardet_installed : bool.
Variable uchardet : string -> option bytes -> proc.
Variable seconds : Type.
Variable iconv : string -> string -> option bytes -> seconds -> proc.
Variable interrupted : string -> bool.

Local Abbreviation uchardet_guess' := (uchardet_guess uchardet_installed uchardet).
Local Abbreviation detected_hint' := (detected_hint uchardet_installed uchardet).
Local Abbreviation uchardet_events' := (uchardet_events uchardet_installed).
Local Abbreviation convert_with_iconv' := (convert_with_iconv seconds iconv).
Local Abbreviation first_accepted' := (first_accepted seconds iconv).
Local Abbreviation process_file' :=
  (process_file uchardet_installed uchardet seconds iconv).
Local Abbreviation main_loop' :=
  (main_loop uchardet_installed uchardet seconds iconv interrupted).
Local Abbreviation main' :=
  (main uchardet_installed uchardet seconds iconv interrupted).
Local Abbreviation process_file_dry' :=
  (Transcoder.process_file_dry uchardet_installed uchardet seconds iconv).
Local Abbreviation process_file_real' :=
  (Transcoder.process_file_real uchardet_installed uchardet seconds iconv).
Local Abbreviation process_file_missing' :=
  (Transcoder.process_file_missing uchardet_installed uchardet seconds iconv).

Lemma decode_ascii_ignore_ascii b :
  str_forall (fun c => (code c <? 128)%N) (decode_ascii_ignore b) = true.
Proof.
  induction b as [|x b IH]; [reflexivity|]. cbn [decode_ascii_ignore].
  destruct (N.ltb_spec (Byte.to_N x) 128); [|exact IH].
  cbn [str_forall]. rewrite HintProps.code_ascii_of_byte, IH.
  now apply andb_true_iff; split; [apply N.ltb_lt|].
Qed.

Lemma str_forall_lstrip P s :
  str_forall P s = true -> str_forall P (lstrip s) = true.
Proof.
  induction s as [|c s IH]; [auto|]. cbn [lstrip].
  destruct (isspace c); [|auto]. cbn [str_forall]. intros H.
  apply andb_true_iff in H as [_ H]. auto.
Qed.

Lemma str_forall_rstrip P s :
  str_forall P s = true -> str_forall P (rstrip s) = true.
Proof.
  induction s as [|c s IH]; [auto|]. cbn [rstrip str_forall]. intros H.
  apply andb_true_iff in H as [Hc H]. specialize (IH H).
  destruct (rstrip s) as [|d r].
  - destruct (isspace c); [reflexivity|]. cbn. now rewrite Hc.
  - cbn [str_forall] in *. now rewrite Hc, IH.
Qed.

(** X14.  [uchardet_guess] never raises and touches no file.  Without the
    tool on the PATH it starts nothing and answers the empty string; with
    it, it starts the tool once.  Its answer is ASCII and has no white
    space at either end; it is empty whenever the tool timed out, could
    not be started, or ended with a non-zero status. *)
Theorem uchardet_guess_total (path : string) (w : world) :
  exists hint evs,
    uchardet_guess' path w = (Ret hint, logged w evs) /\
    evs = (if uchardet_installed then [EvRun ["uchardet"; path]] else []) /\
    strip hint = hint /\
    str_forall (fun c => (code c <? 128)%N) hint = true /\
    (uchardet_installed = false -> hint = "") /\
    ((forall out, uchardet path (files w !! path) <> Completed 0 out) ->
     hint = "").
Proof.
  exists (detected_hint' path (files w !! path)), (uchardet_events' path).
  split; [apply Transcoder.uchardet_guess_run|].
  unfold detected_hint, uchardet_events.
  destruct uchardet_installed; [|repeat split; auto].
  split; [reflexivity|].
  assert (Hs : forall out, strip (strip (decode_ascii_ignore out))
                           = strip (decode_ascii_ignore out))
    by (intros; apply strip_idem).
  assert (Ha : forall out, str_forall (fun c => (code c <? 128)%N)
                             (strip (decode_ascii_ignore out)) = true)
    by (intros; apply str_forall_rstrip, str_forall_lstrip,
          decode_ascii_ignore_ascii).
  destruct (uchardet path (files w !! path)) as [[|rc] out| |];
    (split; [auto|]); (split; [auto|]); (split; [discriminate|]);
    intros H; try reflexivity.
  now destruct (H out).
Qed.

(** X15.  [convert_with_iconv] never raises, whatever the converter does:
    it starts [iconv] once with the source encoding and the path, touches
    no file, and returns valid UTF-8.  What it returns is the output of a
    run that ended with status 0, or nothing. *)
Theorem convert_with_iconv_total (path enc : string) (timeout_s : seconds)
        (w : world) :
  exists out,
    convert_with_iconv' path enc timeout_s w =
      (Ret out, logged w [EvRun ["iconv"; "-f"; enc; "-t"; "UTF-8"; path]]) /\
    is_valid_utf8 out = true /\
    (out = [] \/ iconv enc path (files w !! path) timeout_s = Completed 0 out).
Proof.
  unfold convert_with_iconv, logged.
  destruct (iconv enc path (files w !! path) timeout_s) as [[|rc] out| |];
    cbn [Nat.eqb andb]; try (exists []; repeat split; auto; fail).
  destruct (is_valid_utf8 out) eqn:E.
  - exists out. auto.
  - exists []. auto.
Qed.

(** *** [process_file] *)

Lemma encoded_valid t :
  Forall (fun c => scalar c = true) t -> is_valid_utf8 (encoded t) = true.
Proof.
  intros H. unfold is_valid_utf8.
  now rewrite (decode_encode _ _ (Transcoder.encoded_spec t H)).
Qed.

Lemma to_write_valid is_html t :
  Forall (fun c => scalar c = true) t ->
  is_valid_utf8 (encoded (to_write is_html t)) = true.
Proof. intros H. now apply encoded_valid, Transcoder.to_write_scalar. Qed.

Lemma decoded_scalar' out : Forall (fun c => scalar c = true) (decoded out).
Proof.
  unfold decoded. destruct (decode_utf8 out) as [t|] eqn:E; [|constructor].
  eapply decode_scalar; eauto.
Qed.

(** the cases of a run on a file that is there *)
Ltac run_cases dry_run data Ef :=
  destruct dry_run;
  [ rewrite (process_file_dry' _ _ _ _ Ef)
  | rewrite (process_file_real' _ _ _ _ Ef) ];
  cbv zeta;
  (destruct (is_valid_utf8 data && declares_utf8 (declared_charset data)) eqn:Es;
   [ try (destruct (is_markup _) eqn:Em;
          [destruct (bool_decide (_ ∈ readonly _)) eqn:Er|])
   | destruct (first_accepted' _ _ _ _) as [[[pre enc] out]|] eqn:Efa;
     try destruct (bool_decide (_ ∈ readonly _)) eqn:Er ]).

Lemma process_file_effects path timeout_s dry_run w :
  (forall q, q <> path ->
             files (snd (process_file' path timeout_s dry_run w)) !! q
             = files w !! q) /\
  (forall q, is_Some (files (snd (process_file' path timeout_s dry_run w)) !! q)
             <-> is_Some (files w !! q)) /\
  readonly (snd (process_file' path timeout_s dry_run w)) = readonly w /\
  exists evs, log (snd (process_file' path timeout_s dry_run w)) = log w ++ evs.
Proof.
  assert (Hl : forall (f : gmap string bytes) q b,
             is_Some (f !! path) ->
             (is_Some (<[path := b]> f !! q) <-> is_Some (f !! q))).
  { intros f q b Hp. destruct (decide (q = path)) as [->|Hq].
    - rewrite lookup_insert_eq. split; eauto.
    - now rewrite lookup_insert_ne by congruence. }
  destruct (files w !! path) as [data|] eqn:Ef.
  - assert (Hp : is_Some (files w !! path)) by (rewrite Ef; eauto).
    run_cases dry_run data Ef; cbn [snd files readonly log logged written];
      (split; [intros q Hq; rewrite ?lookup_insert_ne by congruence; reflexivity|]);
      (split; [intros q; first [apply Hl; exact Hp|reflexivity]|]);
      (split; [reflexivity|]); rewrite <- ?app_assoc; eauto.
  - rewrite (process_file_missing' _ _ _ _ Ef). cbn [snd].
    repeat split; auto. exists []. now rewrite app_nil_r.
Qed.

(** X16.  [process_file] works on its own file only: every other file
    keeps its content, no file appears or disappears, the set of paths
    that cannot be written stays as it is, and the log of effects only
    grows. *)
Theorem process_file_frame (path : string) (timeout_s : seconds)
        (dry_run : bool) (w : world) :
  let w' := snd (process_file' path timeout_s dry_run w) in
  (forall q, q <> path -> files w' !! q = files w !! q) /\
  (forall q, is_Some (files w' !! q) <-> is_Some (files w !! q)) /\
  readonly w' = readonly w /\
  exists evs, log w' = log w ++ evs.
Proof. cbv zeta. apply process_file_effects. Qed.

(** X17.  After a real run that reports SKIP, OK or OK*, the file holds
    valid UTF-8. *)
Theorem file_is_utf8_after_success (path : string) (timeout_s : seconds)
        (w w' : world) (o : outcome) :
  process_file' path timeout_s false w = (Ret o, w') ->
  (forall dec det, o <> FAIL dec det) ->
  exists b, files w' !! path = Some b /\ is_valid_utf8 b = true.
Proof.
  intros H Ho.
  destruct (files w !! path) as [data|] eqn:Ef;
    [|now rewrite (process_file_missing' _ _ _ _ Ef) in H].
  rewrite (process_file_real' _ _ _ _ Ef) in H. cbv zeta in H.
  destruct (is_valid_utf8 data && declares_utf8 (declared_charset data)) eqn:Es.
  - apply andb_true_iff in Es as [Hv _].
    destruct (is_markup path).
    + destruct (bool_decide (path ∈ readonly w)); [discriminate|].
      injection H as <- <-. eexists. cbn [files written].
      rewrite lookup_insert_eq. split; [reflexivity|].
      apply (to_write_valid true), decoded_scalar'.
    + injection H as <- <-. exists data. auto.
  - destruct (first_accepted' _ _ _ _) as [[[pre enc] out]|].
    + destruct (bool_decide (path ∈ readonly w)); [discriminate|].
      injection H as <- <-. eexists. cbn [files written].
      rewrite lookup_insert_eq. split; [reflexivity|].
      apply to_write_valid, decoded_scalar'.
    + destruct (bool_decide (path ∈ readonly w)).
      * injection H as <- <-. now destruct (Ho _ _ eq_refl).
      * injection H as <- <-. eexists. cbn [files written].
        rewrite lookup_insert_eq. split; [reflexivity|].
        apply to_write_valid, latin1_scalar.
Qed.


Lemma iconv_runs_of_events path encs :
  List.filter is_iconv_run (uchardet_events' path ++ iconv_events path encs) =
  iconv_events path encs.
Proof.
  rewrite List.filter_app.
  replace (List.filter is_iconv_run (uchardet_events' path)) with (@nil event)
    by (unfold uchardet_events; now destruct uchardet_installed).
  cbn [app]. unfold iconv_events.
  induction encs as [|e encs IH]; [reflexivity|].
  cbn [map List.filter]. now rewrite IH.
Qed.

Lemma iconv_runs_snoc evs e :
  is_iconv_run e = false ->
  List.filter is_iconv_run (evs ++ [e]) = List.filter is_iconv_run evs.
Proof.
  intros He. rewrite List.filter_app. cbn. rewrite He. apply app_nil_r.
Qed.

Lemma first_accepted_prefix path content timeout_s ordered pre enc out :
  first_accepted' path content timeout_s ordered = Some (pre, enc, out) ->
  exists post, ordered = (pre ++ [enc]) ++ post.
Proof.
  intros H. apply Transcoder.first_accepted_spec in H as (post & -> & _).
  exists post. now rewrite <- app_assoc.
Qed.

(** X19.  For one file the converter is started on the candidates in the
    order of the candidate list, each at most once, up to the first
    accepted one: at most eight runs, and none at all for a file that is
    reported SKIP or cannot be read. *)
Theorem converter_runs_are_a_prefix (path : string) (timeout_s : seconds)
        (dry_run : bool) (w : world) :
  exists evs tried rest,
    log (snd (process_file' path timeout_s dry_run w)) = log w ++ evs /\
    List.filter is_iconv_run evs =
      map (fun enc => EvRun ["iconv"; "-f"; enc; "-t"; "UTF-8"; path]) tried /\
    length tried <= 8 /\
    match files w !! path with
    | None => tried = []
    | Some data =>
        candidate_list (declared_charset data) (detected_hint' path (Some data))
        = tried ++ rest
    end /\
    (fst (process_file' path timeout_s dry_run w) = Ret SKIP -> tried = []).
Proof.
  destruct (files w !! path) as [data|] eqn:Ef.
  - pose proof (candidate_list_at_most_eight (declared_charset data)
                  (detected_hint' path (Some data))) as Hlen.
    run_cases dry_run data Ef; cbn [fst snd log logged written];
      try (apply first_accepted_prefix in Efa as [post Epost];
           rewrite Epost, length_app in Hlen);
      rewrite <- ?app_assoc;
      try (eexists _, [], _; split; [reflexivity|];
           rewrite ?iconv_runs_snoc by reflexivity;
           split; [unfold uchardet_events; now destruct uchardet_installed|];
           split; [cbn; lia|]; split; reflexivity; fail);
      try (eexists _, (pre ++ [enc]), post; split; [reflexivity|];
           rewrite ?app_assoc, ?iconv_runs_snoc by reflexivity;
           rewrite ?iconv_runs_of_events;
           split; [reflexivity|]; split; [lia|];
           split; [exact Epost|discriminate]; fail);
      (eexists _, _, []; split; [reflexivity|];
       rewrite ?app_assoc, ?iconv_runs_snoc by reflexivity;
       rewrite ?iconv_runs_of_events;
       split; [reflexivity|]; split; [lia|];
       split; [now rewrite app_nil_r|discriminate]).
  - rewrite (process_file_missing' _ _ _ _ Ef). cbn [fst snd].
    exists [], [], []. rewrite app_nil_r. repeat split; auto. cbn. lia.
Qed.

(** *** The loop of [main] *)

Lemma process_file_dry_files path timeout_s w :
  files (snd (process_file' path timeout_s true w)) = files w.
Proof.
  destruct (files w !! path) as [data|] eqn:Ef;
    [|now rewrite (process_file_missing' _ _ _ _ Ef)].
  rewrite (process_file_dry' _ _ _ _ Ef). cbv zeta.
  destruct (is_valid_utf8 data && declares_utf8 (declared_charset data));
    [reflexivity|].
  destruct (first_accepted' _ _ _ _) as [[[pre enc] out]|]; reflexivity.
Qed.

Lemma main_loop_app timeout_s dry_run total fs1 fs2 :
  forall i w,
    main_loop' timeout_s dry_run total i (fs1 ++ fs2) w =
    let '(ls1, fin1, w1) := main_loop' timeout_s dry_run total i fs1 w in
    if fin1 then
      let '(ls2, fin2, w2) :=
        main_loop' timeout_s dry_run total (i + length fs1) fs2 w1 in
      (ls1 ++ ls2, fin2, w2)
    else (ls1, false, w1).
Proof.
  induction fs1 as [|f fs1 IH]; intros i w.
  - cbn [app main_loop length]. rewrite Nat.add_0_r.
    now destruct (main_loop' timeout_s dry_run total i fs2 w) as [[ls2 fin2] w2].
  - cbn [app main_loop length].
    destruct (if interrupted f then (Raise KeyboardInterrupt, w)
              else process_file' f timeout_s dry_run w) as [[o|[e|]] w1];
      [| |reflexivity];
      rewrite IH; replace (i + S (length fs1)) with (S i + length fs1) by lia;
      destruct (main_loop' timeout_s dry_run total (S i) fs1 w1)
        as [[ls1 [|]] w2]; try reflexivity;
      now destruct (main_loop' timeout_s dry_run total (S i + length fs1) fs2 w2)
        as [[ls2 fin2] w3].
Qed.

(** X20.  The loop of [main] over two lists of files, one after the
    other, is the loop over the first list followed, when that ran to its
    end, by the loop over the second list from the world the first left,
    with the numbering going on; after an interruption in the first list
    nothing of the second list is processed. *)
Theorem main_loop_composes (timeout_s : seconds) (dry_run : bool)
        (total i : nat) (fs1 fs2 : list string) (w : world) :
  main_loop' timeout_s dry_run total i (fs1 ++ fs2) w =
  let '(ls1, fin1, w1) := main_loop' timeout_s dry_run total i fs1 w in
  if fin1 then
    let '(ls2, fin2, w2) :=
      main_loop' timeout_s dry_run total (i + length fs1) fs2 w1 in
    (ls1 ++ ls2, fin2, w2)
  else (ls1, false, w1).
Proof. apply main_loop_app. Qed.


Lemma main_loop_effects timeout_s dry_run total fs :
  forall i w,
    (forall q, ~ In q fs ->
       files (snd (main_loop' timeout_s dry_run total i fs w)) !! q
       = files w !! q) /\
    (forall q, is_Some (files (snd (main_loop' timeout_s dry_run total i fs w)) !! q)
               <-> is_Some (files w !! q)) /\
    readonly (snd (main_loop' timeout_s dry_run total i fs w)) = readonly w /\
    (dry_run = true ->
     files (snd (main_loop' timeout_s dry_run total i fs w)) = files w).
Proof.
  induction fs as [|f fs IH]; intros i w;
    [cbn [main_loop snd]; repeat split; auto|].
  cbn [main_loop].
  destruct (interrupted f); [cbn [snd]; repeat split; auto|].
  destruct (process_file_effects f timeout_s dry_run w) as (Hq & Hs & Hr & _).
  assert (Hd : dry_run = true ->
               files (snd (process_file' f timeout_s dry_run w)) = files w)
    by (intros ->; apply process_file_dry_files).
  destruct (process_file' f timeout_s dry_run w) as [[o|[e|]] w1];
    cbn [snd] in *.
  3: { split; [intros q Hn; apply Hq; intros ->; apply Hn; now left|].
       auto. }
  all: specialize (IH (S i) w1);
    destruct (main_loop' timeout_s dry_run total (S i) fs w1) as [[ls fin] w2];
    cbn [snd] in *; destruct IH as (IHq & IHs & IHr & IHd);
    (split; [intros q Hn; rewrite IHq by (intros ?; apply Hn; now right);
             apply Hq; intros ->; apply Hn; now left|]);
    (split; [intros q; now rewrite IHs|]);
    (split; [congruence|]);
    intros Hdry; rewrite IHd by exact Hdry; exact (Hd Hdry).
Qed.

(** X22.  A run of [main] changes enumerated files only: every other file
    keeps its content, no file appears or disappears, and the paths that
    cannot be written stay the same.  A dry run changes no file at all. *)
Theorem main_touches_enumerated_files_only (timeout_s : seconds)
        (dry_run : bool) (fs : list string) (w : world) :
  let w' := snd (main' timeout_s dry_run fs w) in
  (forall q, ~ In q fs -> files w' !! q = files w !! q) /\
  (forall q, is_Some (files w' !! q) <-> is_Some (files w !! q)) /\
  readonly w' = readonly w /\
  (dry_run = true -> files w' = files w).
Proof.
  cbv zeta. unfold main.
  pose proof (main_loop_effects timeout_s dry_run (length fs) fs 1 w) as H.
  now destruct (main_loop' timeout_s dry_run (length fs) 1 fs w) as [[ls fin] w'].
Qed.

End Run.

Lemma file_is_utf8_after_success_witness :
  run latin1_iconv "notes.css" false (one_file "notes.css" e_acute)
  = (Ret (OK "ISO-8859-1"),
     snd (run latin1_iconv "notes.css" false (one_file "notes.css" e_acute))) /\
  (forall dec det, OK "ISO-8859-1" <> FAIL dec det) /\
  exists b,
    files (snd (run latin1_iconv "notes.css" false (one_file "notes.css" e_acute)))
      !! "notes.css" = Some b /\
    is_valid_utf8 b = true.
Proof.
  assert (H : run latin1_iconv "notes.css" false (one_file "notes.css" e_acute)
              = (Ret (OK "ISO-8859-1"),
                 snd (run latin1_iconv "notes.css" false
                          (one_file "notes.css" e_acute))))
    by (vm_compute; reflexivity).
  assert (Ho : forall dec det, OK "ISO-8859-1" <> FAIL dec det)
    by discriminate.
  split; [exact H|]. split; [exact Ho|].
  exact (file_is_utf8_after_success false no_uchardet unit latin1_iconv
           "notes.css" tt (one_file "notes.css" e_acute) _ _ H Ho).
Defined.



End RunProps.

(** ** The file selection of [main] *)

Module SelectProps.
Import PyFacts.

Lemma contains_app c s t : contains c (s +:+ t) = contains c s || contains c t.
Proof.
  induction s as [|d s IH]; [reflexivity|].
  change (contains c (String d s +:+ t))
    with (Ascii.eqb c d || contains c (s +:+ t)).
  rewrite IH. cbn [contains]. now rewrite orb_assoc.
Qed.

Lemma name_of_no_slash p : contains "/" (name_of p) = false.
Proof.
  induction p as [|c p IH]; [reflexivity|]. cbn [name_of].
  destruct (contains "/" p) eqn:E; [exact IH|].
  destruct (Ascii.eqb_spec c "/") as [->|Hc]; [exact E|].
  cbn [contains]. rewrite E, orb_false_r.
  destruct (Ascii.eqb_spec "/" c) as [<-|]; [now destruct Hc|reflexivity].
Qed.

Lemma name_of_plain name : contains "/" name = false -> name_of name = name.
Proof.
  destruct name as [|c s]; [reflexivity|]. cbn [contains name_of].
  destruct (Ascii.eqb_spec "/" c) as [<-|Hc]; [discriminate|].
  cbn [orb]. intros ->.
  destruct (Ascii.eqb_spec c "/") as [->|]; [now destruct Hc|reflexivity].
Qed.

Lemma name_of_join dir name :
  contains "/" name = false -> name_of (dir +:+ "/" +:+ name) = name.
Proof.
  intros Hn. induction dir as [|c dir IH].
  - change ("" +:+ "/" +:+ name) with (String "/" name).
    cbn [name_of]. now rewrite Hn.
  - change (String c dir +:+ "/" +:+ name)
      with (String c (dir +:+ "/" +:+ name)).
    cbn [name_of]. rewrite contains_app.
    change ("/" +:+ name) with (String "/" name). cbn [contains].
    rewrite Ascii.eqb_refl. cbn [orb]. rewrite orb_true_r. exact IH.
Qed.

(** the part from the last dot on: one dot, then no further dot *)
Lemma from_last_dot_shape s suf :
  from_last_dot s = Some suf ->
  exists y pre, suf = String "." y /\ contains "." y = false /\ s = pre +:+ suf.
Proof.
  revert suf. induction s as [|c s IH]; intros suf; [discriminate|].
  cbn [from_last_dot].
  destruct (from_last_dot s) as [r|] eqn:E.
  - intros [= <-]. destruct (IH r eq_refl) as (y & pre & -> & Hy & ->).
    exists y, (String c pre). auto.
  - destruct (Ascii.eqb_spec c ".") as [->|Hc]; [|discriminate].
    intros [= <-]. exists s, "". split; [reflexivity|]. split; [|reflexivity].
    clear IH. induction s as [|d s IH]; [reflexivity|].
    cbn [from_last_dot] in E. destruct (from_last_dot s); [discriminate|].
    destruct (Ascii.eqb_spec d ".") as [->|Hd]; [discriminate|].
    cbn [contains].
    destruct (Ascii.eqb_spec "." d) as [<-|]; [now destruct Hd|]. now apply IH.
Qed.

Lemma suffix_shape p :
  suffix p = "" \/
  exists y, suffix p = String "." y /\ y <> "" /\
            contains "." y = false /\ contains "/" y = false.
Proof.
  unfold suffix. cbv zeta.
  destruct (from_last_dot (name_of p)) as [suf|] eqn:E; [|now left].
  destruct ((String.length suf <? String.length (name_of p))%nat
            && (1 <? String.length suf)%nat) eqn:El; [|now left].
  right. apply andb_true_iff in El as [_ El]. apply Nat.ltb_lt in El.
  destruct (from_last_dot_shape _ _ E) as (y & pre & -> & Hy & Hn).
  exists y. split; [reflexivity|]. split; [|split; [exact Hy|]].
  - intros ->. cbn in El. lia.
  - pose proof (name_of_no_slash p) as Hs. rewrite Hn, contains_app in Hs.
    apply orb_false_iff in Hs as [_ Hs]. cbn in Hs. exact Hs.
Qed.

Lemma lower_char_keeps c d :
  (code d < 65)%N -> Ascii.eqb d (lower_char c) = Ascii.eqb d c.
Proof.
  intros Hd. unfold lower_char.
  destruct ((65 <=? code c) && (code c <=? 90))%N eqn:E; [|reflexivity].
  apply andb_true_iff in E as [E1 E2]. apply N.leb_le in E1, E2.
  destruct (Ascii.eqb_spec d c) as [->|_]; [lia|].
  destruct (Ascii.eqb_spec d (ascii_of_N (code c + 32))) as [->|_]; [|reflexivity].
  unfold code in *. rewrite N_ascii_embedding in Hd; lia.
Qed.

Lemma contains_lower d s :
  (code d < 65)%N -> contains d (lower s) = contains d s.
Proof.
  intros Hd. induction s as [|c s IH]; [reflexivity|].
  cbn. now rewrite IH, lower_char_keeps.
Qed.

Lemma lower_suffix_shape p :
  lower (suffix p) = "" \/
  exists y, lower (suffix p) = String "." y /\ y <> "" /\
            contains "." y = false /\ contains "/" y = false.
Proof.
  destruct (suffix_shape p) as [->|(y & -> & Hne & Hd & Hs)]; [now left|].
  right. exists (lower y). split; [reflexivity|]. split.
  - destruct y; [congruence|discriminate].
  - now rewrite !contains_lower by (vm_compute; reflexivity).
Qed.

Lemma parse_exts_elem ext only_html x :
  x ∈ parse_exts ext only_html -> exists y, x = String "." y.
Proof.
  unfold parse_exts. destruct only_html.
  - rewrite elem_of_union, !elem_of_singleton. intros [-> | ->]; eauto.
  - rewrite elem_of_list_to_set, list_elem_of_In, in_map_iff.
    intros (e & <- & _). eauto.
Qed.

(** X23.  A file is selected by its last extension alone: when a name is
    selected, its suffix is a dot followed by at least one character, with
    no second dot and no slash in it; a name without such a suffix is never
    selected, whatever [--ext] holds. *)
Theorem selection_by_last_extension (ext : string) (only_html : bool)
        (name : string) :
  selected (parse_exts ext only_html) name = true ->
  exists y, lower (suffix name) = String "." y /\ y <> "" /\
            free_of "." y = true /\ free_of "/" y = true.
Proof.
  unfold selected, free_of. intros H. apply bool_decide_eq_true_1 in H.
  destruct (lower_suffix_shape name) as [E|(y & E & Hne & Hd & Hs)].
  - rewrite E in H. apply parse_exts_elem in H as [y Hy]. discriminate.
  - exists y. rewrite Hd, Hs. auto.
Qed.

Lemma selection_by_last_extension_witness :
  selected (parse_exts "html, .CSS" false) "site.v2/Main.Css" = true /\
  exists y, lower (suffix "site.v2/Main.Css") = String "." y /\ y <> "" /\
            free_of "." y = true /\ free_of "/" y = true.
Proof.
  assert (H : selected (parse_exts "html, .CSS" false) "site.v2/Main.Css" = true)
    by (vm_compute; reflexivity).
  split; [exact H|].
  exact (selection_by_last_extension "html, .CSS" false "site.v2/Main.Css" H).
Defined.

(** X24.  An entry of the extension set that is a bare dot, or that holds
    a dot or a slash behind its first character, selects nothing: with or
    without it the same names are selected.  So [--ext tar.gz] matches no
    file. *)
Theorem multi_dot_extension_selects_nothing (exts : gset string)
        (y name : string) :
  y = "" \/ free_of "." y = false \/ free_of "/" y = false ->
  selected ({[ String "." y ]} ∪ exts) name = selected exts name.
Proof.
  unfold selected, free_of. intros Hy.
  apply bool_decide_ext. rewrite elem_of_union, elem_of_singleton.
  split; [|auto]. intros [E|H]; [exfalso|exact H].
  destruct (lower_suffix_shape name) as [E'|(z & E' & Hne & Hd & Hs)];
    rewrite E' in E; [discriminate|].
  injection E as ->. rewrite Hd, Hs in Hy. cbn in Hy.
  destruct Hy as [?|[?|?]]; congruence.
Qed.

Lemma multi_dot_extension_selects_nothing_witness :
  ("tar.gz" = "" \/ free_of "." "tar.gz" = false \/ free_of "/" "tar.gz" = false) /\
  selected ({[ ".tar.gz" ]} ∪ {[ ".html" ]}) "backup.tar.gz"
  = selected {[ ".html" ]} "backup.tar.gz".
Proof.
  assert (H : "tar.gz" = "" \/ free_of "." "tar.gz" = false
              \/ free_of "/" "tar.gz" = false) by (right; left; reflexivity).
  split; [exact H|].
  exact (multi_dot_extension_selects_nothing {[ ".html" ]} "tar.gz"
           "backup.tar.gz" H).
Defined.

(** X25.  With [--only-html] the selection agrees with [process_file],
    whatever [--ext] says: a file name is selected exactly when its path,
    the directory joined with the name, is treated as markup. *)
Theorem only_html_selects_markup (ext dir name : string) :
  contains "/" name = false ->
  is_markup (dir +:+ "/" +:+ name) = selected (parse_exts ext true) name.
Proof.
  intros Hn. unfold is_markup, selected, parse_exts, suffix.
  rewrite (name_of_join dir name Hn), (name_of_plain name Hn).
  apply bool_decide_ext.
  rewrite elem_of_union, !elem_of_singleton, !elem_of_cons, elem_of_nil. tauto.
Qed.

Lemma only_html_selects_markup_witness :
  contains "/" "Index.HTM" = false /\
  is_markup ("/srv/www" +:+ "/" +:+ "Index.HTM")
  = selected (parse_exts "css" true) "Index.HTM".
Proof.
  assert (H : contains "/" "Index.HTM" = false) by reflexivity.
  split; [exact H|].
  exact (only_html_selects_markup "css" "/srv/www" "Index.HTM" H).
Defined.


Lemma lower_upper_char c : lower_char (upper_char c) = lower_char c.
Proof. each_char c. Qed.

Lemma lower_upper s : lower (upper s) = lower s.
Proof.
  induction s as [|c s IH]; cbn [upper lower]; [reflexivity|].
  now rewrite lower_upper_char, IH.
Qed.

Lemma slash_upper c : Ascii.eqb (upper_char c) "/" = Ascii.eqb c "/".
Proof. each_char c. Qed.

Lemma slash_upper' c : Ascii.eqb "/" (upper_char c) = Ascii.eqb "/" c.
Proof. each_char c. Qed.

Lemma dot_upper c : Ascii.eqb (upper_char c) "." = Ascii.eqb c ".".
Proof. each_char c. Qed.

Lemma contains_slash_upper s : contains "/" (upper s) = contains "/" s.
Proof.
  induction s as [|c s IH]; [reflexivity|]. cbn [upper contains].
  now rewrite slash_upper', IH.
Qed.

Lemma name_of_upper s : name_of (upper s) = upper (name_of s).
Proof.
  induction s as [|c s IH]; [reflexivity|]. cbn [upper name_of].
  rewrite contains_slash_upper, slash_upper.
  destruct (contains "/" s); [exact IH|].
  destruct (Ascii.eqb c "/"); reflexivity.
Qed.

Lemma from_last_dot_upper s :
  from_last_dot (upper s) = option_map upper (from_last_dot s).
Proof.
  induction s as [|c s IH]; [reflexivity|]. cbn [upper from_last_dot].
  rewrite IH, dot_upper. destruct (from_last_dot s); [reflexivity|].
  cbn [option_map]. destruct (Ascii.eqb c "."); reflexivity.
Qed.

Lemma length_upper s : String.length (upper s) = String.length s.
Proof. induction s as [|c s IH]; cbn [upper String.length]; congruence. Qed.

Lemma suffix_upper p : suffix (upper p) = upper (suffix p).
Proof.
  unfold suffix. cbv zeta. rewrite name_of_upper, from_last_dot_upper.
  destruct (from_last_dot (name_of p)) as [suf|]; [|reflexivity].
  cbn [option_map]. rewrite !length_upper.
  now destruct ((String.length suf <? String.length (name_of p))%nat
                && (1 <? String.length suf)%nat).
Qed.

(** X26.  The extension of a file is compared without regard to case,
    in the selection of [main] and in the markup test of [process_file]:
    a name in capitals is selected, and treated as markup, exactly when
    the name as written is. *)
Theorem extension_case_is_ignored (exts : gset string) (path : string) :
  selected exts (upper path) = selected exts path /\
  is_markup (upper path) = is_markup path.
Proof.
  unfold selected, is_markup. now rewrite suffix_upper, lower_upper.
Qed.

End SelectProps.
